(** * Verification of the appraisal-report generator (src/app.py)

    A shallow embedding of the pure core of [app.py]: the batched
    field-extraction merge, the narrative split, the placeholder
    substitution, the two archive rewrites and the surroundings search,
    followed by the properties of each.

    Conventions of the embedding.
    - A Python [str] is a list of Unicode code points ([N]); literals are
      written as UTF-8 text and decoded by [u].
    - A Python [bytes] is a list of [byte].
    - A Python [dict] is an association list in insertion order, updated in
      place by [dict_set].
    - A value decoded by [json.loads] is a [json].
    - Code that raises returns a [result]; code that touches the disk passes
      the file system explicitly. *)

From Stdlib Require Import List NArith ZArith Lia Bool Floats Permutation.
From Stdlib Require Strings.String Strings.Byte.
Import ListNotations.
Import String.StringSyntax.
Delimit Scope string_scope with string.

(* ================================================================== *)
(** * Part I. Definitions *)
(* ================================================================== *)

(** ** Python strings *)

Definition char := N.
Definition str := list char.
Definition bytes := list Byte.byte.

Fixpoint str_eqb (a b : str) : bool :=
  match a, b with
  | [], [] => true
  | x :: a', y :: b' => N.eqb x y && str_eqb a' b'
  | _, _ => false
  end.

(** [bytes.decode('utf-8')] in strict mode: overlong forms, surrogates and
    code points above U+10FFFF are rejected ([None] is UnicodeDecodeError). *)
Definition cont (b : N) : bool := (128 <=? b)%N && (b <=? 191)%N.
Definition low6 (b : N) : N := (b - 128)%N.

Definition lead2 (b0 : N) : bool := (194 <=? b0)%N && (b0 <=? 223)%N.
Definition lead3 (b0 b1 : N) : bool :=
  if (b0 =? 224)%N then (160 <=? b1)%N && (b1 <=? 191)%N
  else if (b0 =? 237)%N then (128 <=? b1)%N && (b1 <=? 159)%N
  else (225 <=? b0)%N && (b0 <=? 239)%N && cont b1.
Definition lead4 (b0 b1 : N) : bool :=
  if (b0 =? 240)%N then (144 <=? b1)%N && (b1 <=? 191)%N
  else if (b0 =? 244)%N then (128 <=? b1)%N && (b1 <=? 143)%N
  else (241 <=? b0)%N && (b0 <=? 243)%N && cont b1.

Fixpoint utf8_decode_N (bs : list N) : option str :=
  match bs with
  | [] => Some []
  | b0 :: t0 =>
    if (b0 <? 128)%N then option_map (cons b0) (utf8_decode_N t0)
    else
      match t0 with
      | [] => None
      | b1 :: t1 =>
        if lead2 b0 && cont b1
        then option_map (cons ((b0 - 192) * 64 + low6 b1)%N) (utf8_decode_N t1)
        else
          match t1 with
          | [] => None
          | b2 :: t2 =>
            if lead3 b0 b1 && cont b2
            then option_map
                   (cons ((b0 - 224) * 4096 + low6 b1 * 64 + low6 b2)%N)
                   (utf8_decode_N t2)
            else
              match t2 with
              | [] => None
              | b3 :: t3 =>
                if lead4 b0 b1 && cont b2 && cont b3
                then option_map
                       (cons ((b0 - 240) * 262144 + low6 b1 * 4096
                              + low6 b2 * 64 + low6 b3)%N)
                       (utf8_decode_N t3)
                else None
              end
          end
      end
  end.

Definition utf8_decode (bs : bytes) : option str :=
  utf8_decode_N (map Byte.to_N bs).

(** [str.encode('utf-8')]: a lone surrogate raises UnicodeEncodeError. *)
Definition byte_of_N (n : N) : Byte.byte :=
  match Byte.of_N n with Some b => b | None => Byte.x00 end.

Definition utf8_encode_char (c : char) : option (list N) :=
  if (c <? 128)%N then Some [c]
  else if (c <? 2048)%N then Some [192 + c / 64; 128 + c mod 64]%N
  else if (c <? 65536)%N then
    if (55296 <=? c)%N && (c <=? 57343)%N then None
    else Some [224 + c / 4096; 128 + (c / 64) mod 64; 128 + c mod 64]%N
  else if (c <? 1114112)%N then
    Some [240 + c / 262144; 128 + (c / 4096) mod 64;
          128 + (c / 64) mod 64; 128 + c mod 64]%N
  else None.

Fixpoint utf8_encode (s : str) : option bytes :=
  match s with
  | [] => Some []
  | c :: s' =>
    match utf8_encode_char c, utf8_encode s' with
    | Some bs, Some rest => Some (map byte_of_N bs ++ rest)
    | _, _ => None
    end
  end.

(** String literals of the source, written as UTF-8 text. *)
Definition u (s : String.string) : str :=
  match utf8_decode (String.list_byte_of_string s) with
  | Some cs => cs
  | None => []
  end.
Arguments u s%_string.

(** [s.startswith(p)], returning what follows the prefix. *)
Fixpoint strip_prefix (p s : str) : option str :=
  match p, s with
  | [], _ => Some s
  | a :: p', b :: s' => if N.eqb a b then strip_prefix p' s' else None
  | _ :: _, [] => None
  end.

(** [old in s] *)
Fixpoint contains (old s : str) : bool :=
  match strip_prefix old s with
  | Some _ => true
  | None => match s with [] => false | _ :: s' => contains old s' end
  end.

(** [s.replace(old, new)]: leftmost, non-overlapping occurrences, scanning
    from the left.  The fuel bounds the number of scanning steps; [replace]
    supplies the length of [s], which is enough because every step consumes
    at least one character of a non-empty [old].  For the empty [old] Python
    inserts [new] before every character and at the end. *)
Fixpoint replace_fuel (fuel : nat) (old new s : str) : str :=
  match fuel with
  | O => s
  | S fuel' =>
    match s with
    | [] => []
    | c :: s' =>
      match strip_prefix old s with
      | Some rest => new ++ replace_fuel fuel' old new rest
      | None => c :: replace_fuel fuel' old new s'
      end
    end
  end.

Definition replace (s old new : str) : str :=
  match old with
  | [] => flat_map (fun c => new ++ [c]) s ++ new
  | _ :: _ => replace_fuel (length s) old new s
  end.
Arguments replace : simpl never.

(** [s.split(sep)] for a non-empty separator: the list of segments between
    the leftmost non-overlapping occurrences of [sep]; never empty. *)
Fixpoint split_fuel (fuel : nat) (sep s : str) : list str :=
  match fuel with
  | O => [s]
  | S fuel' =>
    match s with
    | [] => [[]]
    | c :: s' =>
      match strip_prefix sep s with
      | Some rest => [] :: split_fuel fuel' sep rest
      | None =>
        match split_fuel fuel' sep s' with
        | seg :: segs => (c :: seg) :: segs
        | [] => [[c]]
        end
      end
    end
  end.

Definition split (s sep : str) : list str := split_fuel (length s) sep s.

(** [str.isspace] on one code point (CPython's [_PyUnicode_IsWhitespace]). *)
Definition is_space (c : char) : bool :=
  ((9 <=? c) && (c <=? 13) || (28 <=? c) && (c <=? 32)
   || (c =? 133) || (c =? 160) || (c =? 5760)
   || (8192 <=? c) && (c <=? 8202)
   || (c =? 8232) || (c =? 8233) || (c =? 8239) || (c =? 8287)
   || (c =? 12288))%N.

Fixpoint lstrip (s : str) : str :=
  match s with
  | c :: s' => if is_space c then lstrip s' else s
  | [] => []
  end.

Definition rstrip (s : str) : str := rev (lstrip (rev s)).

(** [s.strip()] *)
Definition strip (s : str) : str := rstrip (lstrip s).

(** ** Python dictionaries, in insertion order *)

Section Dict.
Context {V : Type}.

Definition dict := list (str * V).

Fixpoint dict_get (k : str) (d : dict) : option V :=
  match d with
  | [] => None
  | (k', v) :: d' => if str_eqb k' k then Some v else dict_get k d'
  end.

(** [d[k] = v]: an existing key keeps its position. *)
Fixpoint dict_set (k : str) (v : V) (d : dict) : dict :=
  match d with
  | [] => [(k, v)]
  | (k', v') :: d' =>
    if str_eqb k' k then (k', v) :: d' else (k', v') :: dict_set k v d'
  end.

(** [k in d] *)
Definition dict_has (k : str) (d : dict) : bool :=
  match dict_get k d with Some _ => true | None => false end.

(** [dict(pairs)]: a repeated key keeps its first position and its last
    value, as [json.loads] does for a repeated member name. *)
Definition dict_of_pairs (ps : list (str * V)) : dict :=
  fold_left (fun d kv => dict_set (fst kv) (snd kv) d) ps [].

Definition keys (d : dict) : list str := map fst d.
End Dict.

Arguments dict V : clear implicits.

(** ** Values decoded by [json.loads] *)

#[warnings="-register-all"]
Inductive json : Type :=
| JNull
| JBool (b : bool)
| JInt (n : Z)
| JFloat (f : float)
| JStr (s : str)
| JArr (items : list json)
| JObj (members : list (str * json)).

(** Python truthiness, [bool(v)]. *)
Definition truthy (v : json) : bool :=
  match v with
  | JNull => false
  | JBool b => b
  | JInt n => negb (n =? 0)%Z
  | JFloat f => negb (PrimFloat.eqb f 0%float)
  | JStr s => match s with [] => false | _ => true end
  | JArr l => match l with [] => false | _ => true end
  | JObj l => match l with [] => false | _ => true end
  end.

(** [v == s] for a string literal [s]. *)
Definition eq_str (v : json) (s : str) : bool :=
  match v with
  | JStr s' => str_eqb s' s
  | _ => false
  end.

(** The dictionary a decoded JSON object is. *)
Definition obj_dict (members : list (str * json)) : dict json :=
  dict_of_pairs members.

(** ** The field schema (FIELD_GROUPS, ALL_FIELDS) *)

Definition FIELD_GROUPS : list (str * list str) := Eval vm_compute in
  [ (u "📋 基本信息",
     map u [ "权属人"; "房产地址"; "委托人"; "委托书文号";
             "报告编号"; "报告序号"; "价值时点"; "报告日期";
             "查勘日期"; "签名日期"; "作业期" ]%string);
    (u "🏠 房产实物",
     map u [ "建筑面积"; "土地面积"; "户型"; "总层数";
             "所在楼层"; "建成年份"; "欠缴特约物业费"; "欠缴物业费" ]%string);
    (u "📜 权益状况",
     map u [ "不动产权证号"; "使用期限"; "宗地号"; "登记日期";
             "抵押权人"; "抵押登记证明号"; "债权数额";
             "抵押登记日期"; "债务履行期限"; "查封文号"; "查封期限" ]%string);
    (u "💰 估价结论",
     map u [ "评估总价"; "评估总价大写"; "评估单价"; "评估单价大写" ]%string) ].

(** [[f for fields in FIELD_GROUPS.values() for f in fields]] *)
Definition ALL_FIELDS : list str := flat_map snd FIELD_GROUPS.

(** The sentinel written for a field the document does not mention. *)
Definition SENTINEL : str := Eval vm_compute in u "未提及".

(** ** extract_info_from_pdf: the merge of the batch results

    The page rendering, the request and the removal of a code fence around
    the reply are outside the model.  A batch enters it as the outcome of
    [json.loads(raw)]: [None] when it raised, the decoded value otherwise. *)

Definition batch_response := option json.

(** The right conjunct of line 135:
    [k not in all_results or not all_results[k] or all_results[k] == "未提及"] *)
Definition unresolved (all_results : dict json) (k : str) : bool :=
  match dict_get k all_results with
  | None => true
  | Some cur => negb (truthy cur) || eq_str cur SENTINEL
  end.

(** The left conjuncts of line 135: [v and v != "未提及"] *)
Definition acceptable (v : json) : bool :=
  truthy v && negb (eq_str v SENTINEL).

(** Lines 135-136, one pair of the batch. *)
Definition merge_pair (all_results : dict json) (kv : str * json) : dict json :=
  let (k, v) := kv in
  if acceptable v && unresolved all_results k
  then dict_set k v all_results
  else all_results.

(** Line 134, the loop over [batch_result.items()]. *)
Definition merge_items (all_results : dict json) (items : dict json) : dict json :=
  fold_left merge_pair items all_results.

(** Lines 132-138.  A reply that does not parse, or that parses to anything
    but an object ([.items()] raises AttributeError before the loop starts),
    is caught by the [except] and contributes nothing. *)
Definition merge_batch (all_results : dict json) (r : batch_response) : dict json :=
  match r with
  | Some (JObj members) => merge_items all_results (obj_dict members)
  | _ => all_results
  end.

(** Lines 140-142. *)
Definition backfill (all_results : dict json) : dict json :=
  fold_left
    (fun acc f => if dict_has f acc then acc else dict_set f (JStr SENTINEL) acc)
    ALL_FIELDS all_results.

(** The accumulator after the batch loop (lines 102-138). *)
Definition merge_all (all_results : dict json) (rs : list batch_response) : dict json :=
  fold_left merge_batch rs all_results.

Definition extract_info_from_pdf (rs : list batch_response) : dict json :=
  backfill (merge_all [] rs).

(** The merge rule in the words of the specification, for comparison: a pair
    is taken when the value is a non-empty string other than the sentinel and
    the key is absent, empty or the sentinel. *)
Definition spec_acceptable (v : json) : bool :=
  match v with
  | JStr s => negb (str_eqb s []) && negb (str_eqb s SENTINEL)
  | _ => false
  end.

(** The value found under [k] once the pairs of one decoded object have been
    merged, for a rule [accept] on returned values: the returned value when
    the rule takes it and the key is still open, the old state otherwise. *)
Definition merge_rule (accept : json -> bool) : Prop :=
  forall (all_results : dict json) (members : list (str * json)) (k : str),
    dict_get k (merge_batch all_results (Some (JObj members)))
    = match dict_get k (obj_dict members) with
      | Some v =>
        if accept v && unresolved all_results k then Some v
        else dict_get k all_results
      | None => dict_get k all_results
      end.

(** Every value the accumulator holds was taken by the rule. *)
Definition all_accepted (d : dict json) : Prop :=
  forall k v, dict_get k d = Some v -> acceptable v = true.

(** Scenario A of the specification. *)
Definition scenario_A : list batch_response :=
  [ Some (JObj [ (u "权属人", JStr (u "张三"));
                 (u "房产地址", JStr (u "未提及")) ]);
    Some (JObj [ (u "房产地址", JStr (u "北京市朝阳区XX路1号")) ]) ].

(** A reply in which the model gives the number of storeys as a number. *)
Definition numeric_reply : list batch_response :=
  [ Some (JObj [ (u "总层数", JInt 18) ]) ].

(** The schema invariant in the words of the specification: 23 keys, each
    bound to a string in every extracted map. *)
Definition spec_schema_invariant : Prop :=
  length ALL_FIELDS = 23
  /\ forall rs f, In f ALL_FIELDS ->
       exists s, dict_get f (extract_info_from_pdf rs) = Some (JStr s).

(** The extracted values in the words of the specification: the sentinel or
    a non-empty string other than the sentinel. *)
Definition spec_extracted_value (v : json) : Prop :=
  v = JStr SENTINEL \/ exists s, v = JStr s /\ s <> [] /\ s <> SENTINEL.

Fixpoint nodupb (l : list str) : bool :=
  match l with
  | [] => true
  | x :: l' => negb (existsb (str_eqb x) l') && nodupb l'
  end.

(** ** generate_surrounding_description: the split of the narrative

    The request is outside the model; the function is modelled on the text
    of the reply, [response.content[0].text] (lines 211-215). *)

Definition SPLIT_TOKEN : str := Eval vm_compute in u "---SPLIT---".

Definition generate_surrounding_description (reply : str) : str * str :=
  let text := strip reply in
  let parts := split text SPLIT_TOKEN in
  let para1 := match parts with p0 :: _ => strip p0 | [] => text end in
  let para2 := match parts with _ :: p1 :: _ => strip p1 | _ => [] end in
  (para1, para2).

(** [s.partition(sep)] without the separator: what precedes and what follows
    the first occurrence of [sep], if there is one. *)
Fixpoint cut_first (sep s : str) : option (str * str) :=
  match strip_prefix sep s with
  | Some rest => Some ([], rest)
  | None =>
    match s with
    | [] => None
    | c :: s' =>
      match cut_first sep s' with
      | Some (a, b) => Some (c :: a, b)
      | None => None
      end
    end
  end.

(** The split in the words of the specification: cut the reply at the first
    delimiter; the two sides, trimmed, are the two paragraphs. *)
Definition spec_narrative (reply : str) : str * str :=
  let text := strip reply in
  match cut_first SPLIT_TOKEN text with
  | Some (a, b) => (strip a, strip b)
  | None => (text, [])
  end.

(** What lies between the first delimiter and the next one. *)
Definition up_to_next (sep s : str) : str :=
  match cut_first sep s with
  | Some (a, _) => a
  | None => s
  end.

Definition two_delimiters : str :=
  Eval vm_compute in u "甲 ---SPLIT--- 乙 ---SPLIT--- 丙".

(** A string that does not begin with white space. *)
Definition head_ok (s : str) : Prop :=
  match s with
  | [] => True
  | c :: _ => is_space c = false
  end.

(** ** fill_template: the placeholder substitution (lines 230-231)

    [data] is the form's field map extended with the two narrative
    paragraphs: every value is a [str], or [None] for a missing one. *)

(** ["{{" + key + "}}"] *)
Definition placeholder (key : str) : str := [123; 123]%N ++ key ++ [125; 125]%N.
Arguments placeholder : simpl never.

(** [str(value) if value else ''] *)
Definition field_text (value : option str) : str :=
  match value with
  | Some s => s
  | None => []
  end.

Definition substitute (xml_content : str) (data : dict (option str)) : str :=
  fold_left
    (fun xml kv => replace xml (placeholder (fst kv)) (field_text (snd kv)))
    data xml_content.




(** A template seen as its pieces: runs of text and tokens. *)
Inductive piece : Type :=
| Lit (s : str)
| Tok (key : str).

Definition render_piece (p : piece) : str :=
  match p with
  | Lit s => s
  | Tok k => placeholder k
  end.

Definition render (ps : list piece) : str := flat_map render_piece ps.

Definition is_brace (c : char) : bool := ((c =? 123) || (c =? 125))%N.

(** Neither [{] nor [}] occurs in [s]. *)
Definition brace_free (s : str) : bool := forallb (fun c => negb (is_brace c)) s.

Definition piece_ok (p : piece) : bool :=
  match p with
  | Lit s => brace_free s
  | Tok k => brace_free k
  end.

(** A template whose braces are those of its tokens. *)
Definition template_ok (ps : list piece) : bool := forallb piece_ok ps.

(** A field map whose keys and values contain no brace. *)
Definition data_ok (data : dict (option str)) : bool :=
  forallb (fun kv => brace_free (fst kv) && brace_free (field_text (snd kv))) data.

(** What becomes of a piece: a token of a key of the map becomes the text of
    the key's value, anything else stays. *)
Definition fill_piece (data : dict (option str)) (p : piece) : piece :=
  match p with
  | Lit s => Lit s
  | Tok k =>
    match dict_get k data with
    | Some v => Lit (field_text v)
    | None => Tok k
    end
  end.

(** One step of the loop, on pieces. *)
Definition subst1 (k : str) (v : str) (p : piece) : piece :=
  match p with
  | Lit s => Lit s
  | Tok k' => if str_eqb k' k then Lit v else Tok k'
  end.

(** No [{] occurs in [s]. *)
Definition no_open (s : str) : bool := forallb (fun c => negb (c =? 123)%N) s.


(** Idempotence in the words of the specification: it is enough that no
    value contains [{{] or [}}]. *)
Definition spec_idempotence : Prop :=
  forall (t : str) (data : dict (option str)),
    (forall k v, dict_get k data = Some v ->
       contains (u "{{") (field_text v) = false
       /\ contains (u "}}") (field_text v) = false) ->
    substitute (substitute t data) data = substitute t data.

(** Scenario D of the specification. *)
Definition scenario_D_template : list piece :=
  [ Lit (u "编号："); Tok (u "报告编号"); Lit (u "；复核编号：");
    Tok (u "报告编号"); Lit (u "；地址："); Tok (u "房产地址");
    Lit (u "；备注："); Tok (u "备注") ].

Definition scenario_D_fields : dict (option str) :=
  [ (u "报告编号", Some (u "R-2024-001")); (u "房产地址", Some []) ].



(** ** Archives and the file system

    A zip archive is the list of its members in directory order; a name may
    occur more than once.  [ZipFile.read(name)] returns the content of the
    last member with that name. *)

Definition archive := list (str * bytes).

Fixpoint zip_read (a : archive) (name : str) : option bytes :=
  match a with
  | [] => None
  | (n, content) :: a' =>
    match zip_read a' name with
    | Some later => Some later
    | None => if str_eqb n name then Some content else None
    end
  end.

(** [ZipFile.namelist()] *)
Definition namelist (a : archive) : list str := map fst a.

(** What a path holds: a readable archive, or anything else. *)
Inductive file : Type :=
| Zip (a : archive)
| Damaged.

Definition fs := str -> option file.

Definition fs_set (p : str) (f : option file) (disk : fs) : fs :=
  fun q => if str_eqb q p then f else disk q.

Inductive exn : Type :=
| FileNotFoundError
| SameFileError
| BadZipFile
| KeyError
| UnicodeDecodeError
| UnicodeEncodeError
| OSError.

Inductive result (A : Type) : Type :=
| Ok (a : A)
| Raise (e : exn).
Arguments Ok {A} a.
Arguments Raise {A} e.

(** Code that works on the disk and may raise. *)
Definition M (A : Type) : Type := fs -> fs * result A.

Definition ret {A} (a : A) : M A := fun disk => (disk, Ok a).
Definition raise {A} (e : exn) : M A := fun disk => (disk, Raise e).
Definition bind {A B} (c : M A) (k : A -> M B) : M B :=
  fun disk =>
    match c disk with
    | (disk', Ok a) => k a disk'
    | (disk', Raise e) => (disk', Raise e)
    end.
Definition lift {A} (r : result A) : M A := fun disk => (disk, r).

Notation "x <- c ;; k" := (bind c (fun x => k))
  (at level 61, c at next level, right associativity).
Notation "c ;; k" := (bind c (fun _ => k))
  (at level 61, right associativity).

(** [Path.exists()] *)
Definition path_exists (p : str) : M bool :=
  fun disk => (disk, Ok (match disk p with Some _ => true | None => false end)).

(** What the disk can refuse to [shutil.copy] when the source exists and is
    another file than the destination.  Each raises OSError (PermissionError
    and the like are subclasses of it). *)
Inductive copy_fault : Type :=
| SourceUnreadable       (* [open(src, 'rb')] fails: nothing is written *)
| DestinationUnwritable  (* [open(dst, 'wb')] fails: nothing is written *)
| CopyInterrupted        (* the destination was created or truncated and a
                            write failed, as on a full disk: what is left is
                            a truncated file, not an archive *)
| ModeNotCopied.         (* the content was copied; [copymode] failed *)

(** [shutil.copy(src, dst)]: [copyfile], then [copymode].  [fault] is what
    the disk refuses, [None] when it refuses nothing. *)
Definition shutil_copy (fault : option copy_fault) (src dst : str) : M unit :=
  fun disk =>
    match disk src with
    | None => (disk, Raise FileNotFoundError)
    | Some f =>
      if str_eqb src dst then (disk, Raise SameFileError)
      else
        match fault with
        | None => (fs_set dst (Some f) disk, Ok tt)
        | Some SourceUnreadable => (disk, Raise OSError)
        | Some DestinationUnwritable => (disk, Raise OSError)
        | Some CopyInterrupted => (fs_set dst (Some Damaged) disk, Raise OSError)
        | Some ModeNotCopied => (fs_set dst (Some f) disk, Raise OSError)
        end
    end.

(** [zipfile.ZipFile(p, 'r')] *)
Definition open_zip (p : str) : M archive :=
  fun disk =>
    match disk p with
    | None => (disk, Raise FileNotFoundError)
    | Some Damaged => (disk, Raise BadZipFile)
    | Some (Zip a) => (disk, Ok a)
    end.

(** [z.read(name)] *)
Definition read_member (a : archive) (name : str) : result bytes :=
  match zip_read a name with
  | Some content => Ok content
  | None => Raise KeyError
  end.

Definition decode (b : bytes) : result str :=
  match utf8_decode b with
  | Some s => Ok s
  | None => Raise UnicodeDecodeError
  end.

Definition encode (s : str) : result bytes :=
  match utf8_encode s with
  | Some b => Ok b
  | None => Raise UnicodeEncodeError
  end.

(** The body of [with ZipFile(p, 'w') as zout: for item in ...:
    zout.writestr(...)].  Each element of [todo] is the member one iteration
    is about to write, or the exception raised while computing it.  [quota]
    is what the disk accepts: [Some n] lets [n] members through and refuses
    the next one with OSError, [None] never refuses. *)
Fixpoint write_loop (quota : option nat) (todo : list (result (str * bytes)))
    (written : archive) : archive * result unit :=
  match todo with
  | [] => (written, Ok tt)
  | Raise e :: _ => (written, Raise e)
  | Ok entry :: rest =>
    match quota with
    | Some O => (written, Raise OSError)
    | Some (S q) => write_loop (Some q) rest (written ++ [entry])
    | None => write_loop None rest (written ++ [entry])
    end
  end.

(** Opening [p] for writing creates it.  When the loop ends, normally or on
    an exception of the body, the archive is closed over what was written;
    when the disk refused a write, what is left is not an archive. *)
Definition write_zip (p : str) (quota : option nat)
    (todo : list (result (str * bytes))) : M unit :=
  fun disk =>
    match write_loop quota todo [] with
    | (written, Raise OSError) => (fs_set p (Some Damaged) disk, Raise OSError)
    | (written, r) => (fs_set p (Some (Zip written)) disk, r)
    end.

(** [os.replace(src, dst)] *)
Definition os_replace (src dst : str) : M unit :=
  fun disk =>
    match disk src with
    | None => (disk, Raise FileNotFoundError)
    | Some f => (fs_set src None (fs_set dst (Some f) disk), Ok tt)
    end.

Definition DOCUMENT_XML : str := Eval vm_compute in u "word/document.xml".
Definition DOCUMENT_RELS : str :=
  Eval vm_compute in u "word/_rels/document.xml.rels".

(** The member to write under [name], once its content is computed. *)
Definition named (name : str) (r : result bytes) : result (str * bytes) :=
  match r with
  | Ok content => Ok (name, content)
  | Raise e => Raise e
  end.

(** ** fill_template and replace_image_in_docx *)

(** A letter, a digit or the underscore of ASCII.  These stand for
    themselves in a regular expression; line 253 pastes the placeholder
    into its pattern as it is, so a placeholder with any other character
    (a dot, a parenthesis, a plus sign) is read by [re] as syntax and is
    outside what [match_embed] below describes. *)
Definition word_char (c : char) : bool :=
  (((48 <=? c) && (c <=? 57)) || ((65 <=? c) && (c <=? 90))
   || ((97 <=? c) && (c <=? 122)) || (c =? 95))%N.

Definition word_chars (s : str) : bool := forallb word_char s.

Section Template.

(** [Path(__file__).parent / "template_v2.docx"] *)
Variable TEMPLATE_PATH : str.

(** [\d] of the [re] module on [str] patterns (a decimal digit of any
    script) and [str.lower]: their tables are not part of the source. *)
Variable is_decimal : char -> bool.
Variable lower : str -> str.

(** Lines 236-240, one iteration. *)
Definition fill_member (zin : archive) (xml_content : str)
    (item : str * bytes) : result (str * bytes) :=
  if str_eqb (fst item) DOCUMENT_XML
  then named (fst item) (encode xml_content)
  else named (fst item) (read_member zin (fst item)).

Definition fill_template (copy : option copy_fault) (quota : option nat)
    (data : dict (option str)) (output_path : str) : M unit :=
  there <- path_exists TEMPLATE_PATH ;;
  if negb there then raise FileNotFoundError
  else
    shutil_copy copy TEMPLATE_PATH output_path ;;
    z <- open_zip output_path ;;
    raw <- lift (read_member z DOCUMENT_XML) ;;
    xml_content <- lift (decode raw) ;;
    let xml_content := substitute xml_content data in
    let tmp_path := output_path ++ u ".tmp" in
    zin <- open_zip output_path ;;
    write_zip tmp_path quota (map (fill_member zin xml_content) zin) ;;
    os_replace tmp_path output_path.

(** [re.search]: the leftmost position at which the pattern matches. *)
Fixpoint re_search {A} (match_at : str -> option A) (s : str) : option A :=
  match match_at s with
  | Some m => Some m
  | None =>
    match s with
    | [] => None
    | _ :: s' => re_search match_at s'
    end
  end.

(** The longest prefix of characters satisfying [p], and what follows. *)
Fixpoint span (p : char -> bool) (s : str) : str * str :=
  match s with
  | c :: s' =>
    if p c then let (a, b) := span p s' in (c :: a, b) else ([], s)
  | [] => ([], [])
  end.

(** [[^>]*] followed by the literal [lit]: some position of the run of
    characters other than [>] at which [lit] begins. *)
Fixpoint after_attrs (lit s : str) : bool :=
  match strip_prefix lit s with
  | Some _ => true
  | None =>
    match s with
    | [] => false
    | c :: s' => if (c =? 62)%N then false else after_attrs lit s'
    end
  end.

(** The pattern of line 253 at one position, for a placeholder that
    satisfies [word_chars], as the five of the form do: the attribute
    [r:embed] with a value [rId] and one or more digits (group 1), any
    characters other than [>], then the attribute [w:comment] whose value
    is the placeholder.  Every statement below that depends on what this
    search finds assumes [word_chars] of the placeholder.  Character 34 is
    the double quote. *)
Definition match_embed (image_placeholder : str) (s : str) : option str :=
  match strip_prefix (u "r:embed=" ++ [34%N] ++ u "rId") s with
  | None => None
  | Some s1 =>
    match span is_decimal s1 with
    | ((_ :: _) as digits, q :: s2) =>
      if (q =? 34)%N
         && after_attrs (u "w:comment=" ++ [34%N] ++ image_placeholder ++ [34%N]) s2
      then Some (u "rId" ++ digits)
      else None
    | _ => None
    end
  end.

(** The attribute [Target] with a value [media/] and one or more
    characters other than the double quote (group 1), at one position. *)
Definition match_media (s : str) : option str :=
  match strip_prefix (u "Target=" ++ [34%N] ++ u "media/") s with
  | None => None
  | Some s1 =>
    match span (fun c => negb (c =? 34)%N) s1 with
    | ((_ :: _) as name, _ :: _) => Some name
    | _ => None
    end
  end.

(** [[^>]*] is greedy: of the positions in the run of characters other
    than [>], the last one at which the rest of the pattern matches. *)
Fixpoint last_in_attrs (s : str) : option str :=
  match s with
  | [] => match_media []
  | c :: s' =>
    if (c =? 62)%N then match_media s
    else
      match last_in_attrs s' with
      | Some name => Some name
      | None => match_media s
      end
  end.

(** The pattern of line 260 at one position: the attribute [Id] whose
    value is the relationship id, any characters other than [>], then the
    [Target] attribute. *)
Definition match_target (rid : str) (s : str) : option str :=
  match strip_prefix (u "Id=" ++ [34%N] ++ rid ++ [34%N]) s with
  | None => None
  | Some s1 => last_in_attrs s1
  end.

(** Lines 274-279, one iteration. *)
Definition image_member (zin : archive) (rels_content : str)
    (old_filename new_filename : str) (new_image_bytes : bytes)
    (item : str * bytes) : result (str * bytes) :=
  if str_eqb (fst item) DOCUMENT_RELS
  then named (fst item) (encode rels_content)
  else if str_eqb (fst item) (u "word/media/" ++ old_filename)
  then Ok (u "word/media/" ++ new_filename, new_image_bytes)
  else named (fst item) (read_member zin (fst item)).

Definition replace_image_in_docx (quota : option nat) (docx_path : str)
    (image_placeholder : str) (new_image_bytes : bytes) (image_ext : str)
    : M unit :=
  z <- open_zip docx_path ;;
  raw_rels <- lift (read_member z DOCUMENT_RELS) ;;
  rels_content <- lift (decode raw_rels) ;;
  raw_doc <- lift (read_member z DOCUMENT_XML) ;;
  doc_content <- lift (decode raw_doc) ;;
  match re_search (match_embed image_placeholder) doc_content with
  | None => ret tt
  | Some rid =>
    match re_search (match_target rid) rels_content with
    | None => ret tt
    | Some old_filename =>
      let new_filename :=
        u "replaced_" ++ lower image_placeholder ++ u "." ++ image_ext in
      let rels_content :=
        replace rels_content (u "media/" ++ old_filename)
                (u "media/" ++ new_filename) in
      let tmp_path := docx_path ++ u ".imgtmp" in
      zin <- open_zip docx_path ;;
      write_zip tmp_path quota
        (map (image_member zin rels_content old_filename new_filename
                new_image_bytes) zin) ;;
      os_replace tmp_path docx_path
    end
  end.

End Template.

(** The text of a member: [z.read(name).decode('utf-8')], when both work. *)
Definition member_text (a : archive) (name : str) : option str :=
  match zip_read a name with
  | Some content => utf8_decode content
  | None => None
  end.

(** The media file a placeholder is bound to in an archive (lines 252-263). *)
Definition targeted_media (is_decimal : char -> bool) (a : archive)
    (image_placeholder : str) : option str :=
  match member_text a DOCUMENT_XML, member_text a DOCUMENT_RELS with
  | Some doc_content, Some rels_content =>
    match re_search (match_embed is_decimal image_placeholder) doc_content with
    | Some rid => re_search (match_target rid) rels_content
    | None => None
    end
  | _, _ => None
  end.

(** Line 264. *)
Definition new_media_name (lower : str -> str) (image_placeholder image_ext : str)
    : str :=
  u "replaced_" ++ lower image_placeholder ++ u "." ++ image_ext.


(** The no-op clause in the words of the specification: when the
    placeholder matches nothing in the document text, nothing is raised and
    nothing changes. *)
Definition spec_unmatched_is_silent : Prop :=
  forall is_decimal lower quota docx_path image_placeholder new_image_bytes
         image_ext disk a doc_content,
    disk docx_path = Some (Zip a) ->
    member_text a DOCUMENT_XML = Some doc_content ->
    re_search (match_embed is_decimal image_placeholder) doc_content = None ->
    replace_image_in_docx is_decimal lower quota docx_path image_placeholder
      new_image_bytes image_ext disk
    = (disk, Ok tt).

(** Sample disks. *)
Definition ascii_digit (c : char) : bool := ((48 <=? c) && (c <=? 57))%N.

Definition ascii_lower (s : str) : str :=
  map (fun c => if ((65 <=? c) && (c <=? 90))%N then (c + 32)%N else c) s.

Definition bytes_of (s : String.string) : bytes := String.list_byte_of_string s.
Arguments bytes_of s%_string.

Definition no_disk : fs := fun _ => None.

Definition sample_document : bytes :=
  bytes_of "<w:t>{{权属人}}</w:t><a:blip r:embed=" ++ [Byte.x22] ++ bytes_of "rId5"
  ++ [Byte.x22] ++ bytes_of " w:comment=" ++ [Byte.x22] ++ bytes_of "IMAGE_PHOTO_1"
  ++ [Byte.x22] ++ bytes_of "/>".

Definition sample_rels : bytes :=
  bytes_of "<Relationship Id=" ++ [Byte.x22] ++ bytes_of "rId5" ++ [Byte.x22]
  ++ bytes_of " Target=" ++ [Byte.x22] ++ bytes_of "media/image1.png" ++ [Byte.x22] ++ bytes_of "/>".

Definition sample_template : archive :=
  [ (u "[Content_Types].xml", bytes_of "<Types/>");
    (DOCUMENT_XML, sample_document);
    (DOCUMENT_RELS, sample_rels);
    (u "word/media/image1.png", bytes_of "PNG") ].

Definition sample_disk : fs :=
  fs_set (u "template_v2.docx") (Some (Zip sample_template)) no_disk.



Definition unrelated_disk : fs :=
  fs_set (u "report.docx")
    (Some (Zip [ (DOCUMENT_XML, bytes_of "<w:t>no picture</w:t>") ])) no_disk.

(** ** search_surroundings

    The two services are seen through their replies: what
    [requests.get(...).json()] returns, or the exception it raises
    (connection failure, timeout, a body that is not JSON). *)

Inductive response : Type :=
| Fails (message : str)
| Replies (body : json).

(** What can be raised inside the [try] of lines 159-188. *)
Inductive py_error : Type :=
| NetworkError (message : str)
| AttributeError (v : json)
| LookupError (v : json).

Definition attempt (A : Type) : Type := (py_error + A)%type.

(** [v.get(k, default)]: only a dictionary has the method. *)
Definition py_get (v : json) (k : str) (default : json) : attempt json :=
  match v with
  | JObj members =>
    inr (match dict_get k (obj_dict members) with
         | Some x => x
         | None => default
         end)
  | _ => inl (AttributeError v)
  end.

(** [v[k]] for a string [k]. *)
Definition py_item (v : json) (k : str) : attempt json :=
  match v with
  | JObj members =>
    match dict_get k (obj_dict members) with
    | Some x => inr x
    | None => inl (LookupError v)
    end
  | _ => inl (LookupError v)
  end.

(** [v[0]] *)
Definition py_first (v : json) : attempt json :=
  match v with
  | JArr (x :: _) => inr x
  | JStr (c :: _) => inr (JStr [c])
  | _ => inl (LookupError v)
  end.

(** The elements the loop [for poi in v[:5]] goes through. *)
Definition py_first_five (v : json) : attempt (list json) :=
  match v with
  | JArr items => inr (firstn 5 items)
  | JStr s => inr (map (fun c => JStr [c]) (firstn 5 s))
  | _ => inl (LookupError v)
  end.

Definition COORDINATE : str := Eval vm_compute in u "坐标".
Definition TRANSPORT : str := Eval vm_compute in u "交通（地铁/公交）".
Definition EDUCATION : str := Eval vm_compute in u "教育（学校/幼儿园）".
Definition MEDICAL : str := Eval vm_compute in u "医疗（医院/诊所）".
Definition COMMERCE : str := Eval vm_compute in u "商业（商场/超市）".
Definition PARKS : str := Eval vm_compute in u "公园绿地".
Definition STATUS : str := Eval vm_compute in u "搜索状态".

(** Lines 150-158. *)
Definition initial_result : dict json :=
  [ (COORDINATE, JNull);
    (TRANSPORT, JArr []); (EDUCATION, JArr []); (MEDICAL, JArr []);
    (COMMERCE, JArr []); (PARKS, JArr []);
    (STATUS, JStr (u "成功")) ].

(** Lines 171-177: type filter, key of the record, radius. *)
Definition CATEGORIES : list (str * str * Z) :=
  [ (u "交通设施服务", TRANSPORT, 1000%Z);
    (u "中小学;高等院校;幼儿园", EDUCATION, 1000%Z);
    (u "综合医院;诊所;药店", MEDICAL, 1500%Z);
    (u "购物服务;超级市场", COMMERCE, 1000%Z);
    (u "公园广场;风景名胜", PARKS, 1500%Z) ].

(** [result[key].append(text)] *)
Definition append_to (key : str) (text : str) (result : dict json) : dict json :=
  match dict_get key result with
  | Some (JArr items) => dict_set key (JArr (items ++ [JStr text])) result
  | _ => result
  end.

(** Lines 165-168 on the decoded reply of the geocoder: [None] when the
    address is not resolved (the function sets the status and returns), the
    location of the first geocode otherwise. *)
Definition locate (geo : json) : attempt (option json) :=
  match py_get geo (u "status") JNull with
  | inl e => inl e
  | inr status =>
    let unresolved_address :=
      if negb (eq_str status (u "1")) then inr true
      else match py_get geo (u "geocodes") JNull with
           | inl e => inl e
           | inr geocodes => inr (negb (truthy geocodes))
           end in
    match unresolved_address with
    | inl e => inl e
    | inr true => inr None
    | inr false =>
      match py_item geo (u "geocodes") with
      | inl e => inl e
      | inr geocodes =>
        match py_first geocodes with
        | inl e => inl e
        | inr first =>
          match py_item first (u "location") with
          | inl e => inl e
          | inr location => inr (Some location)
          end
        end
      end
    end
  end.

Section Surroundings.

(** The geocoding and the nearby-search services, by request parameters:
    address and key; location, types, radius and key. *)
Variable geocode_geo : str -> str -> response.
Variable place_around : json -> str -> Z -> str -> response.

(** [str(v)] as an f-string field renders it, and [str(e)] for an
    exception raised by the interpreter. *)
Variable format_value : json -> str.
Variable describe : py_error -> str.

Definition error_message (e : py_error) : str :=
  match e with
  | NetworkError message => message
  | _ => describe e
  end.

(** Lines 185-186.  The record so far is returned with the exception. *)
Fixpoint add_pois (key : str) (pois : list json) (result : dict json)
    : dict json * option py_error :=
  match pois with
  | [] => (result, None)
  | poi :: rest =>
    match py_get poi (u "name") (JStr []), py_get poi (u "distance") (JStr []) with
    | inr name, inr distance =>
      add_pois key rest
        (append_to key
           (format_value name ++ u "（约" ++ format_value distance ++ u "米）")
           result)
    | inl e, _ => (result, Some e)
    | _, inl e => (result, Some e)
    end
  end.

(** Lines 178-186, one category. *)
Definition search_category (location : json) (amap_key : str)
    (category : str * str * Z) (result : dict json)
    : dict json * option py_error :=
  let '(type_str, key, radius) := category in
  match place_around location type_str radius amap_key with
  | Fails message => (result, Some (NetworkError message))
  | Replies resp =>
    match py_get resp (u "status") JNull with
    | inl e => (result, Some e)
    | inr status =>
      if eq_str status (u "1") then
        match py_get resp (u "pois") JNull with
        | inl e => (result, Some e)
        | inr pois =>
          if truthy pois then
            match py_item resp (u "pois") with
            | inl e => (result, Some e)
            | inr pois' =>
              match py_first_five pois' with
              | inl e => (result, Some e)
              | inr items => add_pois key items result
              end
            end
          else (result, None)
        end
      else (result, None)
    end
  end.

(** Lines 171-186, the loop. *)
Fixpoint search_categories (location : json) (amap_key : str)
    (categories : list (str * str * Z)) (result : dict json)
    : dict json * option py_error :=
  match categories with
  | [] => (result, None)
  | category :: rest =>
    match search_category location amap_key category result with
    | (result', None) => search_categories location amap_key rest result'
    | (result', Some e) => (result', Some e)
    end
  end.

(** Lines 160-186, the body of the [try]: the record as it stands when the
    body ends, and the exception if it ended by one. *)
Definition search_body (address amap_key : str) : dict json * option py_error :=
  let result := initial_result in
  match geocode_geo address amap_key with
  | Fails message => (result, Some (NetworkError message))
  | Replies geo =>
    match locate geo with
    | inl e => (result, Some e)
    | inr None => (dict_set STATUS (JStr (u "地址解析失败")) result, None)
    | inr (Some location) =>
      search_categories location amap_key CATEGORIES
        (dict_set COORDINATE location result)
    end
  end.

(** Lines 187-189. *)
Definition search_surroundings (address amap_key : str) : dict json :=
  match search_body address amap_key with
  | (result, None) => result
  | (result, Some e) =>
    dict_set STATUS (JStr (u "搜索异常: " ++ error_message e)) result
  end.

End Surroundings.

(** The record returned for an address that is not resolved. *)
Definition unresolved_record : dict json :=
  [ (COORDINATE, JNull);
    (TRANSPORT, JArr []); (EDUCATION, JArr []); (MEDICAL, JArr []);
    (COMMERCE, JArr []); (PARKS, JArr []);
    (STATUS, JStr (u "地址解析失败")) ].

(** [geo.get(k)] on the members of a decoded object. *)
Definition member (members : list (str * json)) (k : str) : json :=
  match dict_get k (obj_dict members) with
  | Some x => x
  | None => JNull
  end.

(** Sample services: a geocoder that finds nothing, one that finds a point,
    and a nearby search that answers for transport and then times out. *)
Definition geocoder_without_result (address amap_key : str) : response :=
  Replies (JObj [ (u "status", JStr (u "1")); (u "geocodes", JArr []) ]).

Definition geocoder_with_result (address amap_key : str) : response :=
  Replies (JObj [ (u "status", JStr (u "1"));
                  (u "geocodes",
                   JArr [ JObj [ (u "location", JStr (u "116.48,39.99")) ] ]) ]).

Definition flaky_search (location : json) (type_str : str) (radius : Z)
    (amap_key : str) : response :=
  if str_eqb type_str (u "交通设施服务")
  then Replies (JObj [ (u "status", JStr (u "1"));
                       (u "pois",
                        JArr [ JObj [ (u "name", JStr (u "望京站"));
                                      (u "distance", JStr (u "350")) ] ]) ])
  else Fails (u "Read timed out.").

Definition plain_text (v : json) : str :=
  match v with
  | JStr s => s
  | _ => []
  end.

Definition no_description (e : py_error) : str := [].

(* ================================================================== *)
(** * Part I, continued. The rest of the pipeline *)
(* ================================================================== *)

(** ** pdf_to_images_base64 and the batches of extract_info_from_pdf *)

(** One element of [images] (line 82). *)
Record image : Type := {
  page : nat;
  base64 : str;
  media_type : str
}.

(** Lines 76-84.  The document is its number of pages; [render_page] is the
    base64 text of the JPEG of the page with a given index. *)
Definition pdf_to_images_base64 (render_page : nat -> str) (pages : nat)
    : list image :=
  map (fun page_num =>
         {| page := page_num + 1;
            base64 := render_page page_num;
            media_type := u "image/jpeg" |})
      (seq 0 pages).

(** [range(start, stop, step)] for a positive [step]; [fuel] bounds the
    number of elements. *)
Fixpoint range_fuel (fuel start stop step : nat) : list nat :=
  match fuel with
  | O => []
  | S fuel' =>
    if start <? stop then start :: range_fuel fuel' (start + step) stop step
    else []
  end.

Definition range (start stop step : nat) : list nat :=
  range_fuel (stop - start) start stop step.

(** [l[i:j]] for [0 <= i <= j]. *)
Definition slice {A} (l : list A) (i j : nat) : list A :=
  firstn (j - i) (skipn i l).

Definition BATCH_SIZE : nat := 3.

(** Lines 104-106: for every [batch_start], the batch and [batch_end]. *)
Definition batches {A} (images : list A) : list (nat * list A * nat) :=
  map (fun batch_start =>
         let batch := slice images batch_start (batch_start + BATCH_SIZE) in
         (batch_start, batch, batch_start + length batch))
      (range 0 (length images) BATCH_SIZE).

(** ** The preview of the extracted fields (lines 329-331) *)

(** The pairs the preview shows: those with [v and v != "未提及"]. *)
Definition preview (extracted : dict json) : dict json :=
  filter (fun kv => truthy (snd kv) && negb (eq_str (snd kv) SENTINEL)) extracted.

(** A reply the merge ignores: one that did not parse, or not to an object. *)
Definition unusable (r : batch_response) : bool :=
  match r with
  | Some (JObj _) => false
  | _ => true
  end.

(** [k in ALL_FIELDS] *)
Definition in_schema (k : str) : bool := existsb (str_eqb k) ALL_FIELDS.

(** ** The code fence around a reply (lines 127-131) *)

Definition FENCE : str := Eval vm_compute in u "```".
Definition FENCE_JSON : str := Eval vm_compute in u "```json".

(** [raw.split(opening)[1].split("```")[0].strip()]; [None] is IndexError. *)
Definition between_fences (raw opening : str) : option str :=
  match nth_error (split raw opening) 1 with
  | None => None
  | Some inner =>
    match nth_error (split inner FENCE) 0 with
    | None => None
    | Some body => Some (strip body)
    end
  end.

(** The text handed to [json.loads] for the text of a reply. *)
Definition raw_json (text : str) : option str :=
  let raw := strip text in
  if contains FENCE_JSON raw then between_fences raw FENCE_JSON
  else if contains FENCE raw then between_fences raw FENCE
  else Some raw.

(** ** Building the report (lines 343-352, 357-369 and 403-422) *)

(** A file of the upload widget: [f.name] and [f.read()]. *)
Record uploaded_file : Type := { file_name : str; file_read : bytes }.

(** [s.rsplit(c, 1)[-1]] when [c] occurs in [s]. *)
Fixpoint after_last (c : char) (s : str) : option str :=
  match s with
  | [] => None
  | x :: s' =>
    match after_last c s' with
    | Some e => Some e
    | None => if (x =? c)%N then Some s' else None
    end
  end.

(** [name.rsplit(".", 1)[-1]]: what follows the last dot, the whole name
    when it has none. *)
Definition extension (name : str) : str :=
  match after_last 46%N name with
  | Some e => e
  | None => name
  end.

(** The keys of [img_labels]. *)
Definition IMAGE_KEYS : list str := Eval vm_compute in
  map u [ "IMAGE_LOCATION_MAP"; "IMAGE_PHOTO_1"; "IMAGE_PHOTO_2";
          "IMAGE_PHOTO_3"; "IMAGE_PHOTO_4" ]%string.

(** Lines 364-369: the files the five upload widgets returned. *)
Definition uploaded_images (file_uploader : str -> option uploaded_file)
    : dict uploaded_file :=
  fold_left
    (fun uploaded img_key =>
       match file_uploader img_key with
       | Some f => dict_set img_key f uploaded
       | None => uploaded
       end)
    IMAGE_KEYS [].

(** Lines 343-352: one text field per schema field, group after group;
    [text_input] is what the widget of a field returns. *)
Definition edited (text_input : str -> str) : dict str :=
  fold_left
    (fun edited group =>
       fold_left (fun edited field => dict_set field (text_input field) edited)
                 (snd group) edited)
    FIELD_GROUPS [].

Definition PARAGRAPH_1 : str := Eval vm_compute in u "区位描述段1".
Definition PARAGRAPH_2 : str := Eval vm_compute in u "区位描述段2".

(** Lines 403-405. *)
Definition fill_data (edited : dict str) (para1 para2 : str)
    : dict (option str) :=
  dict_set PARAGRAPH_2 (Some para2)
    (dict_set PARAGRAPH_1 (Some para1)
       (map (fun kv => (fst kv, Some (snd kv))) edited)).

(** Lines 420-422. *)
Definition report_filename (edited : dict str) : str :=
  let owner :=
    match dict_get (u "权属人") edited with
    | Some ((_ :: _) as s) => s
    | _ => u "报告"
    end in
  let addr_short :=
    firstn 10 (match dict_get (u "房产地址") edited with
               | Some s => s
               | None => []
               end) in
  owner ++ u "_" ++ addr_short ++ u "_估价报告.docx".

(** [open(p, 'rb').read()] *)
Definition read_file (p : str) : M file :=
  fun disk =>
    match disk p with
    | Some f => (disk, Ok f)
    | None => (disk, Raise FileNotFoundError)
    end.

Section Report.

Variable TEMPLATE_PATH : str.
Variable is_decimal : char -> bool.
Variable lower : str -> str.

(** What the disk refuses to the copy of the template, and what it accepts
    during each of the rewrites, in the order in which they are made. *)
Variable copy : option copy_fault.
Variable quota : nat -> option nat.

(** Lines 413-415, from the rewrite numbered [call] on. *)
Fixpoint replace_images (call : nat) (output_path : str)
    (uploaded_images : dict uploaded_file) : M unit :=
  match uploaded_images with
  | [] => ret tt
  | (img_key, img_file) :: rest =>
    let ext := lower (extension (file_name img_file)) in
    replace_image_in_docx is_decimal lower (quota call) output_path img_key
      (file_read img_file) ext ;;
    replace_images (S call) output_path rest
  end.

(** Lines 410-418. *)
Definition generate_report (fill_data : dict (option str)) (output_path : str)
    (uploaded_images : dict uploaded_file) : M file :=
  fill_template TEMPLATE_PATH copy (quota 0) fill_data output_path ;;
  replace_images 1 output_path uploaded_images ;;
  read_file output_path.

End Report.

(** The text of the main part of the sample template. *)
Definition sample_text : str := Eval vm_compute in
  match utf8_decode sample_document with
  | Some s => s
  | None => []
  end.

(** A string that [str.encode('utf-8')] accepts: no lone surrogate. *)
Definition encodable (s : str) : Prop :=
  Forall (fun c => utf8_encode_char c <> None) s.

(** A document whose relationships part names a media file that the
    archive does not hold. *)
Definition dangling_document : archive :=
  [ (DOCUMENT_XML, sample_document); (DOCUMENT_RELS, sample_rels) ].

(** What becomes of a piece of the template in the report: the token of a
    schema field becomes what the form returned for the field, the two
    description tokens become the two paragraphs, any other token stays. *)
Definition report_piece (text_input : str -> str) (para1 para2 : str)
    (p : piece) : piece :=
  match p with
  | Lit s => Lit s
  | Tok k =>
    if in_schema k then Lit (text_input k)
    else if str_eqb k PARAGRAPH_1 then Lit para1
    else if str_eqb k PARAGRAPH_2 then Lit para2
    else Tok k
  end.

(** The main part of the sample template, as pieces. *)
Definition sample_pieces : list piece := Eval vm_compute in
  [ Lit (u "<w:t>"); Tok (u "权属人");
    Lit (u "</w:t><a:blip r:embed=" ++ [34%N] ++ u "rId5" ++ [34%N]
         ++ u " w:comment=" ++ [34%N] ++ u "IMAGE_PHOTO_1" ++ [34%N]
         ++ u "/>") ].

(** ** The record of search_surroundings *)

Definition is_text (v : json) : bool :=
  match v with
  | JStr _ => true
  | _ => false
  end.

(** How many of the categories are filed under [key]. *)
Definition searches (key : str) (categories : list (str * str * Z)) : nat :=
  length (filter (fun category => str_eqb (snd (fst category)) key) categories).

(** A nearby search that answers every request, with nothing found. *)
Definition empty_search (location : json) (type_str : str) (radius : Z)
    (amap_key : str) : response :=
  Replies (JObj [ (u "status", JStr (u "1")); (u "pois", JArr []) ]).

(** A batch whose acceptable values are all for keys that the accumulator
    has already resolved. *)
Definition absorbed (all_results : dict json) (r : batch_response) : Prop :=
  match r with
  | Some (JObj members) =>
    forall k v, In (k, v) (obj_dict members) -> acceptable v = true ->
                unresolved all_results k = false
  | _ => True
  end.

Definition OWNER : str := Eval vm_compute in u "权属人".
Definition ADDRESS : str := Eval vm_compute in u "房产地址".

(** An upload form in which only the first photograph was given. *)
Definition one_photo (img_key : str) : option uploaded_file :=
  if str_eqb img_key (u "IMAGE_PHOTO_1")
  then Some {| file_name := u "front.JPG"; file_read := bytes_of "JPEG" |}
  else None.

Definition is_object (v : json) : bool :=
  match v with
  | JObj _ => true
  | _ => false
  end.

(** The entry of line 186 for a point of interest that is an object: its
    name and its distance, each the empty string when the member is
    missing, as the f-string renders them. *)
Definition poi_entry (format_value : json -> str) (poi : json) : str :=
  match poi with
  | JObj members =>
    let field k :=
      match dict_get k (obj_dict members) with
      | Some x => x
      | None => JStr []
      end in
    format_value (field (u "name")) ++ u "（约"
    ++ format_value (field (u "distance")) ++ u "米）"
  | _ => []
  end.

(* ================================================================== *)
(** * Part II. Properties *)
(* ================================================================== *)

(** ** Strings and dictionaries *)

Lemma str_eqb_eq (a b : str) : str_eqb a b = true <-> a = b.
Proof.
  revert b; induction a as [|x a IH]; intros [|y b]; simpl;
    try (split; [discriminate | discriminate]); try tauto.
  rewrite andb_true_iff, N.eqb_eq, IH.
  split; [intros [-> ->]; reflexivity | intros H; injection H; auto].
Qed.

Lemma str_eqb_refl (a : str) : str_eqb a a = true.
Proof. apply str_eqb_eq; reflexivity. Qed.

Lemma str_eqb_neq (a b : str) : str_eqb a b = false <-> a <> b.
Proof.
  rewrite <- str_eqb_eq. destruct (str_eqb a b); split; congruence.
Qed.

Lemma str_eqb_sym (a b : str) : str_eqb a b = str_eqb b a.
Proof.
  destruct (str_eqb a b) eqn:E.
  - apply str_eqb_eq in E; subst; symmetry; apply str_eqb_refl.
  - apply str_eqb_neq in E. symmetry. apply str_eqb_neq. congruence.
Qed.

Lemma str_eq_dec (a b : str) : {a = b} + {a <> b}.
Proof.
  destruct (str_eqb a b) eqn:E; [left; apply str_eqb_eq | right; apply str_eqb_neq];
    exact E.
Qed.

Section DictFacts.
Context {V : Type}.
Implicit Types (d : dict V) (k : str) (v : V).

Lemma dict_get_set_same d k v : dict_get k (dict_set k v d) = Some v.
Proof.
  induction d as [|[k' v'] d IH]; simpl.
  - now rewrite str_eqb_refl.
  - destruct (str_eqb k' k) eqn:E; simpl; rewrite E; auto.
Qed.

Lemma dict_get_set_other d k k' v :
  k <> k' -> dict_get k' (dict_set k v d) = dict_get k' d.
Proof.
  intros Hne. induction d as [|[k0 v0] d IH]; simpl.
  - apply str_eqb_neq in Hne. now rewrite Hne.
  - destruct (str_eqb k0 k) eqn:E; simpl.
    + apply str_eqb_eq in E; subst k0.
      apply str_eqb_neq in Hne. now rewrite Hne.
    + destruct (str_eqb k0 k'); auto.
Qed.

Lemma dict_get_set d k k' v :
  dict_get k' (dict_set k v d)
  = if str_eqb k k' then Some v else dict_get k' d.
Proof.
  destruct (str_eqb k k') eqn:E.
  - apply str_eqb_eq in E; subst. apply dict_get_set_same.
  - apply dict_get_set_other, str_eqb_neq, E.
Qed.

Lemma dict_get_None d k : dict_get k d = None <-> ~ In k (keys d).
Proof.
  induction d as [|[k0 v0] d IH]; simpl; [tauto|].
  destruct (str_eqb k0 k) eqn:E.
  - apply str_eqb_eq in E. split; [discriminate | tauto].
  - apply str_eqb_neq in E. rewrite IH. tauto.
Qed.

Lemma keys_dict_set d k v :
  keys (dict_set k v d) = if dict_has k d then keys d else keys d ++ [k].
Proof.
  unfold dict_has. induction d as [|[k0 v0] d IH]; simpl; [reflexivity|].
  destruct (str_eqb k0 k) eqn:E; simpl; [reflexivity|].
  rewrite IH. destruct (dict_get k d); reflexivity.
Qed.

Lemma NoDup_keys_dict_set d k v :
  NoDup (keys d) -> NoDup (keys (dict_set k v d)).
Proof.
  intros H. rewrite keys_dict_set. unfold dict_has.
  destruct (dict_get k d) eqn:E; [exact H|].
  apply dict_get_None in E.
  apply NoDup_rev in H. rewrite <- (rev_involutive (keys d ++ [k])).
  apply NoDup_rev. rewrite rev_app_distr. simpl. constructor; [|exact H].
  now rewrite <- in_rev.
Qed.

Lemma NoDup_keys_fold_set (ps : list (str * V)) d :
  NoDup (keys d) ->
  NoDup (keys (fold_left (fun d kv => dict_set (fst kv) (snd kv) d) ps d)).
Proof.
  revert d; induction ps as [|[k v] ps IH]; intros d H; simpl; [exact H|].
  apply IH, NoDup_keys_dict_set, H.
Qed.

(** A dictionary built by [dict(pairs)] has no repeated key. *)
Lemma NoDup_keys_dict_of_pairs (ps : list (str * V)) :
  NoDup (keys (dict_of_pairs ps)).
Proof. apply NoDup_keys_fold_set. constructor. Qed.
End DictFacts.

(** ** The extraction merge *)

Lemma acceptable_resolved all_results k v :
  dict_get k all_results = Some v -> acceptable v = true ->
  unresolved all_results k = false.
Proof.
  unfold unresolved, acceptable. intros -> H.
  apply andb_true_iff in H as [Ht Hs]. apply negb_true_iff in Hs.
  now rewrite Ht, Hs.
Qed.

Lemma merge_pair_get all_results k v k' :
  dict_get k' (merge_pair all_results (k, v))
  = if str_eqb k k' && (acceptable v && unresolved all_results k)
    then Some v else dict_get k' all_results.
Proof.
  unfold merge_pair.
  destruct (acceptable v && unresolved all_results k).
  - rewrite dict_get_set, andb_true_r. reflexivity.
  - now rewrite andb_false_r.
Qed.

Lemma unresolved_merge_pair_other all_results k v k' :
  k <> k' ->
  unresolved (merge_pair all_results (k, v)) k' = unresolved all_results k'.
Proof.
  intros Hne. unfold unresolved. rewrite merge_pair_get.
  apply str_eqb_neq in Hne. now rewrite Hne.
Qed.

Lemma merge_items_get items : forall all_results k,
  NoDup (keys items) ->
  dict_get k (merge_items all_results items)
  = match dict_get k items with
    | Some v =>
      if acceptable v && unresolved all_results k then Some v
      else dict_get k all_results
    | None => dict_get k all_results
    end.
Proof.
  induction items as [|[k0 v0] items IH]; intros acc k Hnd; [reflexivity|].
  simpl in Hnd. inversion Hnd as [|? ? Hnotin Hnd']; subst.
  change (merge_items acc ((k0, v0) :: items))
    with (merge_items (merge_pair acc (k0, v0)) items).
  rewrite IH by exact Hnd'. cbn [dict_get].
  destruct (str_eqb k0 k) eqn:E.
  - apply str_eqb_eq in E; subst k0.
    apply dict_get_None in Hnotin. rewrite Hnotin.
    rewrite merge_pair_get, str_eqb_refl. reflexivity.
  - assert (Hne : k0 <> k) by now apply str_eqb_neq.
    rewrite unresolved_merge_pair_other by exact Hne.
    rewrite merge_pair_get, E. reflexivity.
Qed.

(** A value the rule has taken is never touched again: not by a pair, ... *)
Lemma merge_pair_keeps all_results kv k v :
  dict_get k all_results = Some v -> acceptable v = true ->
  dict_get k (merge_pair all_results kv) = Some v.
Proof.
  intros Hget Hacc. destruct kv as [k0 v0]. rewrite merge_pair_get.
  destruct (str_eqb k0 k) eqn:E; [|exact Hget].
  apply str_eqb_eq in E; subst k0.
  rewrite (acceptable_resolved _ _ _ Hget Hacc), andb_false_r. exact Hget.
Qed.

(** ... not by a batch, ... *)
Lemma merge_batch_keeps all_results r k v :
  dict_get k all_results = Some v -> acceptable v = true ->
  dict_get k (merge_batch all_results r) = Some v.
Proof.
  intros Hget Hacc. destruct r as [[]|]; simpl; try exact Hget.
  unfold merge_items. generalize (obj_dict members) as items.
  intros items; revert all_results Hget.
  induction items as [|kv items IH]; intros acc Hget; simpl; [exact Hget|].
  apply IH, merge_pair_keeps; assumption.
Qed.

(** ... not by any number of later batches, ... *)
Lemma merge_all_keeps rs : forall all_results k v,
  dict_get k all_results = Some v -> acceptable v = true ->
  dict_get k (merge_all all_results rs) = Some v.
Proof.
  induction rs as [|r rs IH]; intros acc k v Hget Hacc; simpl; [exact Hget|].
  apply IH; [apply merge_batch_keeps|]; assumption.
Qed.

(** ... and not by the final pass over the schema. *)
Lemma backfill_get all_results k :
  dict_get k (backfill all_results)
  = match dict_get k all_results with
    | Some v => Some v
    | None => if in_dec str_eq_dec k ALL_FIELDS then Some (JStr SENTINEL) else None
    end.
Proof.
  unfold backfill. generalize ALL_FIELDS as fs. intros fs; revert all_results.
  induction fs as [|f fs IH]; intros acc; simpl.
  - destruct (dict_get k acc); reflexivity.
  - rewrite IH. unfold dict_has.
    destruct (dict_get f acc) eqn:Ef.
    + destruct (dict_get k acc) eqn:Ek; [reflexivity|].
      destruct (str_eq_dec f k) as [->|Hne]; [congruence|].
      destruct (in_dec str_eq_dec k fs); reflexivity.
    + rewrite dict_get_set.
      destruct (str_eq_dec f k) as [->|Hne].
      * rewrite str_eqb_refl, Ef. reflexivity.
      * rewrite (proj2 (str_eqb_neq _ _) Hne).
        destruct (dict_get k acc); [reflexivity|].
        destruct (in_dec str_eq_dec k fs); reflexivity.
Qed.

Lemma all_accepted_merge_pair d kv :
  all_accepted d -> all_accepted (merge_pair d kv).
Proof.
  intros H k v. destruct kv as [k0 v0]. rewrite merge_pair_get.
  destruct (str_eqb k0 k && (acceptable v0 && unresolved d k0)) eqn:E.
  - intros [= <-]. apply andb_true_iff in E as [_ E].
    now apply andb_true_iff in E.
  - apply H.
Qed.

Lemma all_accepted_merge_batch d r :
  all_accepted d -> all_accepted (merge_batch d r).
Proof.
  intros H. destruct r as [[]|]; simpl; try exact H.
  unfold merge_items. generalize (obj_dict members) as items.
  intros items; revert d H.
  induction items as [|kv items IH]; intros d H; simpl; [exact H|].
  apply IH, all_accepted_merge_pair, H.
Qed.

Lemma all_accepted_merge_all rs : forall d,
  all_accepted d -> all_accepted (merge_all d rs).
Proof.
  induction rs as [|r rs IH]; intros d H; simpl; [exact H|].
  apply IH, all_accepted_merge_batch, H.
Qed.

Lemma all_accepted_nil : all_accepted [].
Proof. intros k v; discriminate. Qed.

Lemma acceptable_truthy v : acceptable v = true -> truthy v = true.
Proof. unfold acceptable. intros H. now apply andb_true_iff in H. Qed.

Lemma acceptable_str s :
  acceptable (JStr s) = spec_acceptable (JStr s).
Proof. unfold acceptable, spec_acceptable. simpl. destruct s; reflexivity. Qed.

Lemma nodupb_sound l : nodupb l = true -> NoDup l.
Proof.
  induction l as [|x l IH]; simpl; intros H; constructor;
    apply andb_true_iff in H as [Hx Hl]; [|auto].
  intros Hin. apply negb_true_iff in Hx.
  assert (existsb (str_eqb x) l = true); [|congruence].
  apply existsb_exists. exists x. split; [exact Hin | apply str_eqb_refl].
Qed.

(** C1 (as amended): the merge rule of [extract_info_from_pdf].  After the
    pairs of one decoded batch are merged, a key holds the returned value
    exactly when that value is truthy and not the sentinel and the key was
    absent, falsy or the sentinel before, and holds what it held otherwise;
    on strings "truthy and not the sentinel" is "non-empty and not the
    sentinel".  A reply that does not decode to an object changes nothing.
    A value once taken survives every later batch and the final pass over
    the schema, and Scenario A comes out as the specification says. *)
Theorem merge_first_resolved_value_wins :
  merge_rule acceptable
  /\ (forall s, acceptable (JStr s) = spec_acceptable (JStr s))
  /\ (forall all_results r,
        (forall members, r <> Some (JObj members)) ->
        merge_batch all_results r = all_results)
  /\ (forall all_results k v rs,
        dict_get k all_results = Some v -> acceptable v = true ->
        dict_get k (merge_all all_results rs) = Some v
        /\ dict_get k (backfill (merge_all all_results rs)) = Some v)
  /\ (forall rs1 rs2 k v,
        dict_get k (merge_all [] rs1) = Some v ->
        dict_get k (extract_info_from_pdf (rs1 ++ rs2)) = Some v)
  /\ dict_get (u "权属人") (extract_info_from_pdf scenario_A)
     = Some (JStr (u "张三"))
  /\ dict_get (u "房产地址") (extract_info_from_pdf scenario_A)
     = Some (JStr (u "北京市朝阳区XX路1号")).
Proof.
  split; [|split; [|split; [|split; [|split; [|split]]]]].
  - intros acc members k. simpl. apply merge_items_get.
    apply NoDup_keys_dict_of_pairs.
  - apply acceptable_str.
  - intros acc r Hr. destruct r as [[]|]; try reflexivity.
    now destruct (Hr members).
  - intros acc k v rs Hget Hacc.
    assert (H := merge_all_keeps rs _ _ _ Hget Hacc).
    split; [exact H|]. rewrite backfill_get, H. reflexivity.
  - intros rs1 rs2 k v Hget. unfold extract_info_from_pdf, merge_all.
    rewrite fold_left_app. fold (merge_all [] rs1).
    fold (merge_all (merge_all [] rs1) rs2).
    assert (Hacc : acceptable v = true)
      by exact (all_accepted_merge_all rs1 [] all_accepted_nil k v Hget).
    rewrite backfill_get, (merge_all_keeps rs2 _ _ _ Hget Hacc). reflexivity.
  - vm_compute. reflexivity.
  - vm_compute. reflexivity.
Qed.

Lemma merge_first_resolved_value_wins_witness :
  dict_get (u "权属人")
    (extract_info_from_pdf
       ([Some (JObj [(u "权属人", JStr (u "张三"))])]
        ++ [Some (JObj [(u "权属人", JStr (u "李四"))])]))
  = Some (JStr (u "张三")).
Proof.
  apply (proj1 (proj2 (proj2 (proj2 (proj2 merge_first_resolved_value_wins))))).
  vm_compute. reflexivity.
Defined.

(** C1, as the specification words it, fails: a number returned for a field
    is not a non-empty string, yet the code stores it. *)
Lemma merge_takes_non_string_value :
  spec_acceptable (JInt 18) = false
  /\ dict_get (u "总层数")
       (merge_batch [] (Some (JObj [(u "总层数", JInt 18)])))
     = Some (JInt 18)
  /\ ~ merge_rule spec_acceptable.
Proof.
  split; [reflexivity|]. split; [vm_compute; reflexivity|].
  intros H. specialize (H [] [(u "总层数", JInt 18)] (u "总层数")).
  vm_compute in H. discriminate H.
Qed.

(** C2 (as amended): the schema has 34 distinct keys; every extracted map
    binds each of them to a truthy value, the one the merge took when there
    is one and the sentinel string otherwise. *)
Theorem extraction_covers_schema :
  length ALL_FIELDS = 34
  /\ NoDup ALL_FIELDS
  /\ forall rs f, In f ALL_FIELDS ->
       exists v, dict_get f (extract_info_from_pdf rs) = Some v
                 /\ truthy v = true
                 /\ match dict_get f (merge_all [] rs) with
                    | Some w => v = w /\ acceptable w = true
                    | None => v = JStr SENTINEL
                    end.
Proof.
  split; [reflexivity|]. split; [apply nodupb_sound; vm_compute; reflexivity|].
  intros rs f Hin. unfold extract_info_from_pdf. rewrite backfill_get.
  destruct (dict_get f (merge_all [] rs)) as [w|] eqn:E.
  - assert (Hacc : acceptable w = true)
      by exact (all_accepted_merge_all rs [] all_accepted_nil f w E).
    exists w. auto using acceptable_truthy.
  - destruct (in_dec str_eq_dec f ALL_FIELDS) as [_|Hn]; [|contradiction].
    exists (JStr SENTINEL). repeat split; reflexivity.
Qed.

Lemma extraction_covers_schema_witness :
  exists v, dict_get (u "宗地号") (extract_info_from_pdf scenario_A) = Some v
            /\ truthy v = true
            /\ match dict_get (u "宗地号") (merge_all [] scenario_A) with
               | Some w => v = w /\ acceptable w = true
               | None => v = JStr SENTINEL
               end.
Proof.
  apply (proj2 (proj2 extraction_covers_schema) scenario_A (u "宗地号")).
  vm_compute. do 21 right. left. reflexivity.
Defined.

(** C2, as the specification words it, fails twice: the schema has 34 keys,
    not 23, and a schema key can end up bound to a number. *)
Lemma schema_is_not_23_strings :
  length ALL_FIELDS <> 23
  /\ In (u "总层数") ALL_FIELDS
  /\ dict_get (u "总层数") (extract_info_from_pdf numeric_reply) = Some (JInt 18)
  /\ ~ spec_schema_invariant.
Proof.
  split; [vm_compute; discriminate|].
  split; [vm_compute; do 14 right; left; reflexivity|].
  split; [vm_compute; reflexivity|].
  intros [H _]. vm_compute in H. discriminate H.
Qed.

(** C10 (as amended): no extracted map contains the empty string, or any
    other falsy value; a value is the sentinel string or a truthy value other
    than the sentinel, and when it is a string it is non-empty. *)
Theorem extraction_never_yields_empty_string (rs : list batch_response)
    (k : str) (v : json) :
  dict_get k (extract_info_from_pdf rs) = Some v ->
  v <> JStr []
  /\ truthy v = true
  /\ (v = JStr SENTINEL \/ acceptable v = true)
  /\ (forall s, v = JStr s -> s = SENTINEL \/ (s <> [] /\ s <> SENTINEL)).
Proof.
  unfold extract_info_from_pdf. rewrite backfill_get.
  assert (Hacc : forall w, acceptable w = true ->
            w <> JStr [] /\ truthy w = true
            /\ (w = JStr SENTINEL \/ acceptable w = true)
            /\ (forall s, w = JStr s -> s = SENTINEL \/ (s <> [] /\ s <> SENTINEL))).
  { intros w Hw. split; [intros ->; discriminate Hw|].
    split; [now apply acceptable_truthy|]. split; [now right|].
    intros s ->. right. unfold acceptable in Hw. simpl in Hw.
    apply andb_true_iff in Hw as [Ht Hs]. apply negb_true_iff in Hs.
    split; [intros ->; discriminate Ht | now apply str_eqb_neq]. }
  destruct (dict_get k (merge_all [] rs)) as [w|] eqn:E.
  - intros [= <-]. apply Hacc.
    exact (all_accepted_merge_all rs [] all_accepted_nil k w E).
  - destruct (in_dec str_eq_dec k ALL_FIELDS); [|discriminate].
    intros [= <-]. split; [discriminate|]. split; [reflexivity|].
    split; [now left|]. intros s [= <-]. now left.
Qed.

Lemma extraction_never_yields_empty_string_witness :
  JStr (u "张三") <> JStr []
  /\ truthy (JStr (u "张三")) = true
  /\ (JStr (u "张三") = JStr SENTINEL \/ acceptable (JStr (u "张三")) = true)
  /\ (forall s, JStr (u "张三") = JStr s ->
        s = SENTINEL \/ (s <> [] /\ s <> SENTINEL)).
Proof.
  apply (extraction_never_yields_empty_string scenario_A (u "权属人")).
  vm_compute. reflexivity.
Defined.

(** C10, as the specification words it, fails: an extracted value need not
    be a string at all. *)
Lemma extracted_value_may_be_a_number :
  dict_get (u "总层数") (extract_info_from_pdf numeric_reply) = Some (JInt 18)
  /\ ~ spec_extracted_value (JInt 18).
Proof.
  split; [vm_compute; reflexivity|].
  intros [H|[s [H _]]]; discriminate H.
Qed.

(** ** Scanning a string: prefixes, first occurrences, [split] *)

Lemma strip_prefix_app p s r : strip_prefix p s = Some r <-> s = p ++ r.
Proof.
  revert s; induction p as [|a p IH]; intros s; simpl.
  - split; [intros [= ->]; reflexivity | intros ->; reflexivity].
  - destruct s as [|b s]; [split; discriminate|].
    destruct (N.eqb_spec a b) as [->|Hne].
    + rewrite IH. split; [intros ->; reflexivity | intros [= ->]; reflexivity].
    + split; [discriminate | intros [= E _]; congruence].
Qed.

Lemma strip_prefix_self p r : strip_prefix p (p ++ r) = Some r.
Proof. now apply strip_prefix_app. Qed.

Lemma strip_prefix_length p s r :
  strip_prefix p s = Some r -> length s = length p + length r.
Proof. intros H. apply strip_prefix_app in H. subst. apply length_app. Qed.

Lemma cut_first_app sep s a b :
  cut_first sep s = Some (a, b) -> s = a ++ sep ++ b.
Proof.
  revert a b; induction s as [|c s IH]; intros a b; simpl.
  - destruct (strip_prefix sep []) eqn:E; [|discriminate].
    intros [= <- <-]. now apply strip_prefix_app in E.
  - destruct (strip_prefix sep (c :: s)) eqn:E.
    + intros [= <- <-]. now apply strip_prefix_app in E.
    + destruct (cut_first sep s) as [[a' b']|]; [|discriminate].
      intros [= <- <-]. simpl. f_equal. now apply IH.
Qed.

Lemma cut_first_length sep s a b :
  cut_first sep s = Some (a, b) -> length s = length a + length sep + length b.
Proof.
  intros H. apply cut_first_app in H. subst.
  rewrite !length_app. lia.
Qed.

Lemma cut_first_contains sep s :
  contains sep s = match cut_first sep s with Some _ => true | None => false end.
Proof.
  induction s as [|c s IH]; simpl.
  - destruct (strip_prefix sep []); reflexivity.
  - destruct (strip_prefix sep (c :: s)); [reflexivity|].
    rewrite IH. destruct (cut_first sep s) as [[]|]; reflexivity.
Qed.

Section Split.
Variable sep : str.
Hypothesis sep_nonempty : sep <> [].

Lemma strip_prefix_shorter s r :
  strip_prefix sep s = Some r -> length r < length s.
Proof.
  intros H. apply strip_prefix_length in H.
  destruct sep; [contradiction|]. simpl in H. lia.
Qed.

Lemma split_fuel_enough n : forall m s,
  length s <= n -> length s <= m -> split_fuel n sep s = split_fuel m sep s.
Proof.
  induction n as [|n IH]; intros m s Hn Hm.
  - destruct s; [|simpl in Hn; lia]. destruct m; reflexivity.
  - destruct s as [|c s]; [destruct m; reflexivity|].
    destruct m as [|m]; [simpl in Hm; lia|]. simpl in Hn, Hm.
    cbn [split_fuel].
    destruct (strip_prefix sep (c :: s)) as [rest|] eqn:E.
    + apply strip_prefix_shorter in E. simpl in E.
      f_equal. apply IH; lia.
    + rewrite (IH m s) by lia. reflexivity.
Qed.

(** [split] cuts at the first occurrence and goes on with what follows. *)
Lemma split_cut_first s :
  split s sep
  = match cut_first sep s with
    | Some (a, b) => a :: split b sep
    | None => [s]
    end.
Proof.
  unfold split. induction s as [|c s IH].
  - simpl. destruct sep; [contradiction|]. reflexivity.
  - cbn [length split_fuel cut_first].
    destruct (strip_prefix sep (c :: s)) as [rest|] eqn:E.
    + f_equal. apply split_fuel_enough; [|lia].
      apply strip_prefix_shorter in E. simpl in E. lia.
    + rewrite IH. destruct (cut_first sep s) as [[a b]|]; reflexivity.
Qed.
End Split.

(** ** [strip] *)

Lemma lstrip_head_ok s : head_ok (lstrip s).
Proof.
  induction s as [|c s IH]; simpl; [exact I|].
  destruct (is_space c) eqn:E; [exact IH | exact E].
Qed.

Lemma lstrip_fixed s : head_ok s -> lstrip s = s.
Proof. destruct s as [|c s]; simpl; [reflexivity | intros ->; reflexivity]. Qed.

Lemma lstrip_suffix s : exists w, s = w ++ lstrip s.
Proof.
  induction s as [|c s [w IH]]; simpl; [now exists []|].
  destruct (is_space c); [|now exists []].
  exists (c :: w). simpl. now f_equal.
Qed.

Lemma rstrip_prefix s : exists w, s = rstrip s ++ w.
Proof.
  unfold rstrip. destruct (lstrip_suffix (rev s)) as [w Hw].
  exists (rev w). rewrite <- rev_app_distr, <- Hw. now rewrite rev_involutive.
Qed.

Lemma rstrip_head_ok s : head_ok s -> head_ok (rstrip s).
Proof.
  intros H. destruct (rstrip_prefix s) as [w Hw].
  destruct (rstrip s) as [|c r]; [exact I|].
  rewrite Hw in H. exact H.
Qed.

Lemma rstrip_idem s : rstrip (rstrip s) = rstrip s.
Proof.
  unfold rstrip. rewrite rev_involutive.
  now rewrite (lstrip_fixed _ (lstrip_head_ok (rev s))).
Qed.

Lemma strip_idem s : strip (strip s) = strip s.
Proof.
  unfold strip.
  rewrite (lstrip_fixed (rstrip (lstrip s))).
  - apply rstrip_idem.
  - apply rstrip_head_ok, lstrip_head_ok.
Qed.

(** ** Occurrences and trimming *)

Lemma contains_cons lit c s :
  contains lit s = true -> contains lit (c :: s) = true.
Proof. intros H. simpl. destruct (strip_prefix lit (c :: s)); [reflexivity | exact H]. Qed.

Lemma contains_app_r lit a s :
  contains lit s = true -> contains lit (a ++ s) = true.
Proof. induction a as [|c a IH]; intros H; [exact H|]. apply contains_cons, IH, H. Qed.

Lemma contains_iff sep s :
  contains sep s = true <-> exists a b, s = a ++ sep ++ b.
Proof.
  split.
  - rewrite cut_first_contains.
    destruct (cut_first sep s) as [[a b]|] eqn:E; [|discriminate].
    intros _. exists a, b. now apply cut_first_app.
  - intros [a [b ->]]. apply contains_app_r.
    assert (H := strip_prefix_self sep b).
    destruct (sep ++ b); simpl; now rewrite H.
Qed.

Lemma lstrip_split s :
  exists w, forallb is_space w = true /\ s = w ++ lstrip s.
Proof.
  induction s as [|c s [w [Hw IH]]]; simpl; [now exists []|].
  destruct (is_space c) eqn:E; [|now exists []].
  exists (c :: w). simpl. rewrite E, Hw. split; [reflexivity | now f_equal].
Qed.

Lemma forallb_rev {A} (f : A -> bool) l : forallb f (rev l) = forallb f l.
Proof.
  induction l as [|x l IH]; [reflexivity|].
  simpl. rewrite forallb_app, IH. simpl. rewrite andb_true_r. apply andb_comm.
Qed.

Lemma rstrip_split s :
  exists w, forallb is_space w = true /\ s = rstrip s ++ w.
Proof.
  unfold rstrip. destruct (lstrip_split (rev s)) as [w [Hw E]].
  exists (rev w). rewrite forallb_rev. split; [exact Hw|].
  rewrite <- rev_app_distr, <- E. now rewrite rev_involutive.
Qed.

Lemma strip_split s :
  exists w1 w2,
    forallb is_space w1 = true /\ forallb is_space w2 = true
    /\ s = w1 ++ strip s ++ w2.
Proof.
  destruct (lstrip_split s) as [w1 [H1 E1]].
  destruct (rstrip_split (lstrip s)) as [w2 [H2 E2]].
  exists w1, w2. unfold strip. now rewrite <- E2.
Qed.

Section Trimmed.
Variables (sep : str) (first last : char) (middle middle' : str).
Hypothesis sep_first : sep = first :: middle.
Hypothesis sep_last : rev sep = last :: middle'.
Hypothesis first_ok : is_space first = false.
Hypothesis last_ok : is_space last = false.

(** An occurrence of [sep] does not begin in leading white space. *)
Lemma occurrence_after_spaces w t a b' (sep' : str) (c : char) tail :
  sep' = c :: tail -> is_space c = false ->
  forallb is_space w = true ->
  a ++ sep' ++ b' = w ++ t ->
  exists a', a = w ++ a' /\ t = a' ++ sep' ++ b'.
Proof.
  intros Hsep Hc Hw E. apply app_eq_app in E as [l [[Ha Ht]|[Hwl Hl]]].
  - now exists l.
  - destruct l as [|c' l].
    + rewrite app_nil_r in Hwl. subst w. exists []. rewrite app_nil_r.
      split; [reflexivity | now symmetry].
    + subst sep'. simpl in Hl. injection Hl as <- _. subst w.
      rewrite forallb_app in Hw. simpl in Hw. rewrite Hc in Hw.
      destruct (forallb is_space a); discriminate Hw.
Qed.

Lemma contains_strip s : contains sep (strip s) = contains sep s.
Proof.
  destruct (strip_split s) as [w1 [w2 [H1 [H2 E]]]].
  remember (strip s) as core eqn:Ecore. clear Ecore. subst s.
  destruct (contains sep (w1 ++ core ++ w2)) eqn:Es.
  - apply contains_iff in Es as [a [b' E]]. apply contains_iff. symmetry in E.
    destruct (occurrence_after_spaces w1 (core ++ w2) a b' sep first middle
                sep_first first_ok H1 E) as [a' [_ E']].
    apply (f_equal (@rev _)) in E'. rewrite !rev_app_distr in E'.
    rewrite <- app_assoc in E'. symmetry in E'.
    destruct (occurrence_after_spaces (rev w2) (rev core) (rev b') (rev a')
                (rev sep) last middle' sep_last last_ok
                ltac:(now rewrite forallb_rev) E') as [x [_ E'']].
    exists a', (rev x). apply (f_equal (@rev _)) in E''.
    rewrite rev_involutive in E''. rewrite E''.
    now rewrite !rev_app_distr, !rev_involutive, <- app_assoc.
  - destruct (contains sep core) eqn:Et; [|reflexivity].
    apply contains_iff in Et as [a [b' Et]].
    assert (H : contains sep (w1 ++ core ++ w2) = true); [|congruence].
    apply contains_iff. exists (w1 ++ a), (b' ++ w2).
    rewrite Et. now rewrite <- !app_assoc.
Qed.
End Trimmed.

(** ** The narrative split *)

Lemma SPLIT_TOKEN_nonempty : SPLIT_TOKEN <> [].
Proof. discriminate. Qed.

(** The delimiter occurs in a reply exactly when it occurs in the trimmed
    reply. *)
Lemma SPLIT_TOKEN_trimmed s :
  contains SPLIT_TOKEN (strip s) = contains SPLIT_TOKEN s.
Proof.
  apply (contains_strip SPLIT_TOKEN 45%N 45%N (tl SPLIT_TOKEN)
           (tl (rev SPLIT_TOKEN))); reflexivity.
Qed.

(** C9 (as amended): the first paragraph is the trimmed text before the
    first delimiter; the second is the trimmed text between the first
    delimiter and the next one, or the end of the reply when there is no
    other, in which case the pair is the one obtained by cutting at the first
    delimiter; a reply without delimiter is the first paragraph, trimmed,
    and the second is empty (Scenario C). *)
Theorem narrative_split (reply : str) :
  (contains SPLIT_TOKEN reply = false ->
   generate_surrounding_description reply = (strip reply, []))
  /\ (forall a b,
        cut_first SPLIT_TOKEN (strip reply) = Some (a, b) ->
        strip reply = a ++ SPLIT_TOKEN ++ b
        /\ generate_surrounding_description reply
           = (strip a, strip (up_to_next SPLIT_TOKEN b))
        /\ (contains SPLIT_TOKEN b = false ->
            generate_surrounding_description reply = spec_narrative reply)).
Proof.
  unfold generate_surrounding_description, spec_narrative.
  rewrite (split_cut_first _ SPLIT_TOKEN_nonempty).
  split.
  - rewrite <- SPLIT_TOKEN_trimmed, cut_first_contains.
    destruct (cut_first SPLIT_TOKEN (strip reply)) as [[a b]|];
      [discriminate|].
    intros _. now rewrite strip_idem.
  - intros a b E. rewrite E. split; [now apply cut_first_app|].
    rewrite (split_cut_first _ SPLIT_TOKEN_nonempty b).
    unfold up_to_next. rewrite cut_first_contains.
    destruct (cut_first SPLIT_TOKEN b) as [[b1 b2]|].
    + split; [reflexivity | discriminate].
    + split; reflexivity.
Qed.

Lemma narrative_split_witness :
  generate_surrounding_description (u " 区位良好。 ") = (u "区位良好。", [])
  /\ generate_surrounding_description (u "甲 ---SPLIT--- 乙 ")
     = spec_narrative (u "甲 ---SPLIT--- 乙 ").
Proof.
  split.
  - apply (proj1 (narrative_split (u " 区位良好。 "))). vm_compute. reflexivity.
  - apply (proj2 (narrative_split (u "甲 ---SPLIT--- 乙 "))
             (u "甲 ") (u " 乙"));
      vm_compute; reflexivity.
Defined.

(** C9, as the specification words it, fails on a reply with two
    delimiters: the code keeps what lies between them, cutting at the first
    one keeps everything after it. *)
Lemma narrative_drops_text_after_second_delimiter :
  generate_surrounding_description two_delimiters = (u "甲", u "乙")
  /\ spec_narrative two_delimiters = (u "甲", u "乙 ---SPLIT--- 丙")
  /\ generate_surrounding_description two_delimiters
     <> spec_narrative two_delimiters.
Proof.
  split; [vm_compute; reflexivity|]. split; [vm_compute; reflexivity|].
  vm_compute. discriminate.
Qed.

(** ** [replace] *)

Section Replace.
Variables old new : str.
Hypothesis old_nonempty : old <> [].

Lemma strip_prefix_old_shorter s r :
  strip_prefix old s = Some r -> length r < length s.
Proof. apply strip_prefix_shorter, old_nonempty. Qed.

Lemma replace_fuel_enough n : forall m s,
  length s <= n -> length s <= m ->
  replace_fuel n old new s = replace_fuel m old new s.
Proof.
  induction n as [|n IH]; intros m s Hn Hm.
  - destruct s; [|simpl in Hn; lia]. destruct m; reflexivity.
  - destruct s as [|c s]; [destruct m; reflexivity|].
    destruct m as [|m]; [simpl in Hm; lia|]. simpl in Hn, Hm.
    cbn [replace_fuel].
    destruct (strip_prefix old (c :: s)) as [rest|] eqn:E.
    + apply strip_prefix_old_shorter in E. simpl in E.
      f_equal. apply IH; lia.
    + f_equal. apply IH; lia.
Qed.

Lemma replace_unfold s :
  replace s old new = replace_fuel (length s) old new s.
Proof. unfold replace. destruct old; [contradiction | reflexivity]. Qed.

Lemma replace_nil : replace [] old new = [].
Proof. rewrite replace_unfold. reflexivity. Qed.

(** An occurrence at the head is replaced and the scan resumes after it. *)
Lemma replace_match rest :
  replace (old ++ rest) old new = new ++ replace rest old new.
Proof.
  rewrite !replace_unfold.
  destruct (old ++ rest) as [|c s] eqn:Es.
  - destruct old; [contradiction | discriminate].
  - cbn [length replace_fuel]. rewrite <- Es, strip_prefix_self.
    f_equal. apply replace_fuel_enough; [|lia].
    assert (H := strip_prefix_old_shorter (old ++ rest) rest (strip_prefix_self _ _)).
    rewrite Es in H. simpl in H. lia.
Qed.

(** Where there is no occurrence at the head, the character is kept. *)
Lemma replace_skip c s :
  strip_prefix old (c :: s) = None ->
  replace (c :: s) old new = c :: replace s old new.
Proof.
  intros E. rewrite !replace_unfold. cbn [length replace_fuel]. now rewrite E.
Qed.

(** A text without occurrence is returned as it is. *)
Lemma replace_absent s : contains old s = false -> replace s old new = s.
Proof.
  induction s as [|c s IH]; intros H; [apply replace_nil|].
  simpl in H. destruct (strip_prefix old (c :: s)) eqn:E; [discriminate|].
  rewrite replace_skip by exact E. now rewrite IH.
Qed.
End Replace.

(** ** Templates: tokens in a text whose only braces are theirs *)

Lemma placeholder_nonempty k : placeholder k <> [].
Proof. discriminate. Qed.

Lemma brace_free_no_open s : brace_free s = true -> no_open s = true.
Proof.
  unfold brace_free, no_open, is_brace. rewrite !forallb_forall.
  intros H c Hc. specialize (H c Hc). now destruct (c =? 123)%N.
Qed.

Lemma brace_free_app a b :
  brace_free (a ++ b) = brace_free a && brace_free b.
Proof. apply forallb_app. Qed.

Lemma no_open_key_close k :
  brace_free k = true -> no_open (k ++ [125; 125]%N) = true.
Proof.
  intros H. apply brace_free_no_open in H.
  unfold no_open in *. rewrite forallb_app.
  apply andb_true_iff. split; [exact H | reflexivity].
Qed.

(** Two brace-free keys that are closed at the same place are the same. *)
Lemma brace_free_close_inj a : forall b x y,
  brace_free a = true -> brace_free b = true ->
  a ++ 125%N :: x = b ++ 125%N :: y -> a = b.
Proof.
  induction a as [|c a IH]; intros [|c' b] x y Ha Hb E; simpl in *.
  - reflexivity.
  - injection E as <- _. discriminate Hb.
  - injection E as -> _. discriminate Ha.
  - injection E as <- E. f_equal.
    apply andb_true_iff in Ha as [_ Ha]. apply andb_true_iff in Hb as [_ Hb].
    exact (IH _ _ _ Ha Hb E).
Qed.

(** At a token, the placeholder of [k] matches exactly when the token is
    that of [k]. *)
Lemma strip_prefix_token k k' rest :
  brace_free k = true -> brace_free k' = true ->
  strip_prefix (placeholder k) (placeholder k' ++ rest)
  = if str_eqb k' k then Some rest else None.
Proof.
  intros Hk Hk'. destruct (str_eqb k' k) eqn:E.
  - apply str_eqb_eq in E; subst. apply strip_prefix_self.
  - destruct (strip_prefix (placeholder k) (placeholder k' ++ rest)) as [r|] eqn:Es;
      [|reflexivity].
    apply strip_prefix_app in Es. unfold placeholder in Es.
    simpl in Es. injection Es as Es. rewrite <- !app_assoc in Es. simpl in Es.
    apply brace_free_close_inj in Es; [|assumption..].
    apply str_eqb_neq in E. contradiction.
Qed.

(** One character into a token no placeholder matches. *)
Lemma strip_prefix_inside_token k k' rest :
  brace_free k' = true ->
  strip_prefix (placeholder k) (123%N :: k' ++ [125; 125]%N ++ rest) = None.
Proof.
  intros Hk'.
  destruct (strip_prefix (placeholder k) (123%N :: k' ++ [125; 125]%N ++ rest))
    as [r|] eqn:E; [|reflexivity].
  apply strip_prefix_app in E. unfold placeholder in E. simpl in E.
  injection E as E. destruct k' as [|c k']; simpl in E; [discriminate E|].
  injection E as -> _. discriminate Hk'.
Qed.

Lemma strip_prefix_no_open k c s :
  (c =? 123)%N = false -> strip_prefix (placeholder k) (c :: s) = None.
Proof.
  intros Hc.
  destruct (strip_prefix (placeholder k) (c :: s)) as [r|] eqn:E; [|reflexivity].
  apply strip_prefix_app in E. unfold placeholder in E. simpl in E.
  injection E as -> _. discriminate Hc.
Qed.

Section ReplaceInTemplate.
Variables (k : str) (v : str).
Hypothesis k_ok : brace_free k = true.

(** A run without [{] is copied. *)
Lemma replace_run s rest :
  no_open s = true ->
  replace (s ++ rest) (placeholder k) v = s ++ replace rest (placeholder k) v.
Proof.
  induction s as [|c s IH]; intros H; [reflexivity|].
  simpl in H. apply andb_true_iff in H as [Hc Hs]. apply negb_true_iff in Hc.
  simpl. rewrite replace_skip.
  - now rewrite IH.
  - apply placeholder_nonempty.
  - now apply strip_prefix_no_open.
Qed.

(** The token of [k] is replaced, any other token is copied. *)
Lemma replace_token k' rest :
  brace_free k' = true ->
  replace (placeholder k' ++ rest) (placeholder k) v
  = render_piece (subst1 k v (Tok k')) ++ replace rest (placeholder k) v.
Proof.
  intros Hk'. cbn [subst1]. destruct (str_eqb k' k) eqn:E.
  - apply str_eqb_eq in E; subst k'. cbn [render_piece].
    apply replace_match, placeholder_nonempty.
  - assert (Hs := strip_prefix_token k k' rest k_ok Hk'). rewrite E in Hs.
    cbn [render_piece]. unfold placeholder at 1 3. cbn [app].
    rewrite replace_skip; [|apply placeholder_nonempty | exact Hs].
    rewrite <- !app_assoc.
    rewrite replace_skip;
      [|apply placeholder_nonempty | now apply strip_prefix_inside_token].
    do 2 f_equal. rewrite !app_assoc.
    apply replace_run. now apply no_open_key_close.
Qed.

Lemma replace_render ps :
  template_ok ps = true ->
  replace (render ps) (placeholder k) v = render (map (subst1 k v) ps).
Proof.
  induction ps as [|p ps IH]; intros H.
  - apply replace_nil, placeholder_nonempty.
  - simpl in H. apply andb_true_iff in H as [Hp Hps].
    change (render (p :: ps)) with (render_piece p ++ render ps).
    change (render (map (subst1 k v) (p :: ps)))
      with (render_piece (subst1 k v p) ++ render (map (subst1 k v) ps)).
    rewrite <- (IH Hps). destruct p as [s|k'].
    + apply replace_run, brace_free_no_open, Hp.
    + apply replace_token, Hp.
Qed.

Lemma template_ok_subst1 ps :
  brace_free v = true -> template_ok ps = true ->
  template_ok (map (subst1 k v) ps) = true.
Proof.
  intros Hv. unfold template_ok. rewrite !forallb_forall.
  intros H p Hp. apply in_map_iff in Hp as [q [<- Hq]].
  specialize (H q Hq). destruct q as [s|k']; [exact H|].
  simpl. destruct (str_eqb k' k); [exact Hv | exact H].
Qed.
End ReplaceInTemplate.

Lemma fill_piece_cons k v data p :
  fill_piece data (subst1 k (field_text v) p) = fill_piece ((k, v) :: data) p.
Proof.
  destruct p as [s|k']; [reflexivity|]. simpl.
  rewrite (str_eqb_sym k k'). destruct (str_eqb k' k); reflexivity.
Qed.

(** On a template, the loop of [fill_template] fills every piece. *)
Lemma substitute_render data : forall ps,
  data_ok data = true -> template_ok ps = true ->
  substitute (render ps) data = render (map (fill_piece data) ps).
Proof.
  induction data as [|[k v] data IH]; intros ps Hd Hps.
  - unfold substitute. cbn [fold_left].
    replace (map (fill_piece []) ps) with ps; [reflexivity|].
    clear Hps. induction ps as [|[s|k'] ps IHps]; simpl; [reflexivity | |];
      rewrite <- IHps; reflexivity.
  - simpl in Hd. apply andb_true_iff in Hd as [Hkv Hd].
    apply andb_true_iff in Hkv as [Hk Hv].
    change (substitute (render ps) ((k, v) :: data))
      with (substitute (replace (render ps) (placeholder k) (field_text v)) data).
    rewrite replace_render by assumption.
    rewrite IH; [|exact Hd | now apply template_ok_subst1].
    f_equal. rewrite map_map. apply map_ext. intros p. apply fill_piece_cons.
Qed.

Lemma data_ok_get data k v :
  data_ok data = true -> dict_get k data = Some v ->
  brace_free (field_text v) = true.
Proof.
  induction data as [|[k0 v0] data IH]; simpl; [discriminate|].
  intros H. apply andb_true_iff in H as [Hkv Hd].
  apply andb_true_iff in Hkv as [_ Hv].
  destruct (str_eqb k0 k); [intros [= <-]; exact Hv | now apply IH].
Qed.

Lemma template_ok_fill data ps :
  data_ok data = true -> template_ok ps = true ->
  template_ok (map (fill_piece data) ps) = true.
Proof.
  intros Hd. unfold template_ok. rewrite !forallb_forall.
  intros H p Hp. apply in_map_iff in Hp as [q [<- Hq]].
  specialize (H q Hq). destruct q as [s|k]; [exact H|].
  simpl. destruct (dict_get k data) as [v|] eqn:E; [|exact H].
  simpl. now apply (data_ok_get data k).
Qed.

Lemma fill_piece_idem data p :
  fill_piece data (fill_piece data p) = fill_piece data p.
Proof.
  destruct p as [s|k]; [reflexivity|]. simpl.
  destruct (dict_get k data) eqn:E; simpl; [reflexivity | now rewrite E].
Qed.

(** ** The one-pass substitution of the specification, on templates *)

Section OnePass.
Variable data : dict (option str).










End OnePass.


(** ** The placeholder substitution *)

Lemma substitute_absent data : forall t,
  (forall k, In k (keys data) -> contains (placeholder k) t = false) ->
  substitute t data = t.
Proof.
  induction data as [|[k v] data IH]; intros t H; [reflexivity|].
  change (substitute t ((k, v) :: data))
    with (substitute (replace t (placeholder k) (field_text v)) data).
  rewrite replace_absent.
  - apply IH. intros k' Hk'. apply H. now right.
  - apply placeholder_nonempty.
  - apply H. now left.
Qed.




(** C6 (as amended): substituting twice is substituting once on a template
    whose braces are those of its tokens, for a field map whose keys and
    values contain no brace; and on any text, whenever no token of the map
    occurs in the result of the first substitution. *)
Theorem substitute_idempotent_on_templates :
  (forall data ps,
     data_ok data = true -> template_ok ps = true ->
     substitute (substitute (render ps) data) data
     = substitute (render ps) data)
  /\ (forall data t,
        (forall k, In k (keys data) ->
           contains (placeholder k) (substitute t data) = false) ->
        substitute (substitute t data) data = substitute t data).
Proof.
  split.
  - intros data ps Hd Hps.
    rewrite (substitute_render data ps Hd Hps).
    rewrite substitute_render; [|exact Hd | now apply template_ok_fill].
    f_equal. rewrite map_map. apply map_ext. intros p. apply fill_piece_idem.
  - intros data t H. now apply substitute_absent.
Qed.

Lemma substitute_idempotent_on_templates_witness :
  substitute (substitute (render scenario_D_template) scenario_D_fields)
    scenario_D_fields
  = substitute (render scenario_D_template) scenario_D_fields.
Proof.
  apply (proj1 substitute_idempotent_on_templates);
    vm_compute; reflexivity.
Defined.

(** C6, as the specification words it, fails: with the single value [a],
    which contains no brace at all, the text [{{{{a}}}}] becomes [{{a}}] and
    then [a]. *)
Lemma substitute_twice_differs :
  substitute (u "{{{{a}}}}") [(u "a", Some (u "a"))] = u "{{a}}"
  /\ substitute (u "{{a}}") [(u "a", Some (u "a"))] = u "a"
  /\ brace_free (u "a") = true
  /\ ~ spec_idempotence.
Proof.
  split; [vm_compute; reflexivity|]. split; [vm_compute; reflexivity|].
  split; [reflexivity|].
  intros H. specialize (H (u "{{{{a}}}}") [(u "a", Some (u "a"))]).
  assert (Hv : forall k v, dict_get k [(u "a", Some (u "a"))] = Some v ->
            contains (u "{{") (field_text v) = false
            /\ contains (u "}}") (field_text v) = false).
  { intros k v. cbn [dict_get]. destruct (str_eqb (u "a") k); [|discriminate].
    intros [= <-]. split; vm_compute; reflexivity. }
  specialize (H Hv). vm_compute in H. discriminate H.
Qed.

(** ** The file system and the monad *)

Lemma fs_set_same p f disk : fs_set p f disk p = f.
Proof. unfold fs_set. now rewrite str_eqb_refl. Qed.

Lemma fs_set_other p q f disk : q <> p -> fs_set p f disk q = disk q.
Proof. intros H. unfold fs_set. apply str_eqb_neq in H. now rewrite H. Qed.

Lemma app_suffix_neq (p suffix : str) : suffix <> [] -> p ++ suffix <> p.
Proof.
  intros Hs E. apply (f_equal (@length _)) in E. rewrite length_app in E.
  destruct suffix; [contradiction | simpl in E; lia].
Qed.

Lemma bind_Ok {A B} (c : M A) (k : A -> M B) disk disk' y :
  bind c k disk = (disk', Ok y) ->
  exists x mid, c disk = (mid, Ok x) /\ k x mid = (disk', Ok y).
Proof.
  unfold bind. destruct (c disk) as [mid [x|e]]; [|discriminate].
  intros H. now exists x, mid.
Qed.

Lemma bind_Raise {A B} (c : M A) (k : A -> M B) disk disk' e :
  bind c k disk = (disk', Raise e) ->
  c disk = (disk', Raise e)
  \/ exists x mid, c disk = (mid, Ok x) /\ k x mid = (disk', Raise e).
Proof.
  unfold bind. destruct (c disk) as [mid [x|e']].
  - intros H. right. now exists x, mid.
  - intros [= <- <-]. now left.
Qed.

Lemma lift_inv {A} (r : result A) disk disk' r' :
  lift r disk = (disk', r') -> disk' = disk /\ r' = r.
Proof. unfold lift. now intros [= <- <-]. Qed.

Lemma open_zip_inv p disk disk' r :
  open_zip p disk = (disk', r) ->
  disk' = disk
  /\ match r with
     | Ok a => disk p = Some (Zip a)
     | Raise _ => True
     end.
Proof.
  unfold open_zip. destruct (disk p) as [[a|]|]; intros [= <- <-]; auto.
Qed.

Lemma write_loop_Ok todo : forall quota written written',
  write_loop quota todo written = (written', Ok tt) ->
  exists es, todo = map Ok es /\ written' = written ++ es.
Proof.
  induction todo as [|[entry|e] todo IH]; intros quota written written' H;
    simpl in H.
  - injection H as <-. exists []. now rewrite app_nil_r.
  - destruct quota as [[|q]|]; [discriminate| |];
      apply IH in H as [es [-> ->]]; exists (entry :: es);
      now rewrite <- app_assoc.
  - discriminate.
Qed.

Lemma write_zip_Ok p quota todo disk disk' :
  write_zip p quota todo disk = (disk', Ok tt) ->
  exists es, todo = map Ok es /\ disk' = fs_set p (Some (Zip es)) disk.
Proof.
  unfold write_zip.
  destruct (write_loop quota todo []) as [written [[]|e]] eqn:E.
  - intros [= <-]. apply write_loop_Ok in E as [es [-> ->]]. now exists es.
  - destruct e; discriminate.
Qed.


Lemma os_replace_inv src dst disk disk' r :
  os_replace src dst disk = (disk', r) ->
  match disk src with
  | Some f => disk' = fs_set src None (fs_set dst (Some f) disk) /\ r = Ok tt
  | None => disk' = disk /\ r = Raise FileNotFoundError
  end.
Proof. unfold os_replace. destruct (disk src); now intros [= <- <-]. Qed.

(** ** The members of a rewritten archive *)

Lemma zip_read_None a name : zip_read a name = None <-> ~ In name (namelist a).
Proof.
  induction a as [|[n c] a IH]; simpl; [tauto|].
  destruct (zip_read a name) eqn:E.
  - split; [discriminate|]. intros H. exfalso. apply H. right.
    destruct (in_dec str_eq_dec name (namelist a)) as [Hin|Hn]; [exact Hin|].
    apply IH in Hn. discriminate Hn.
  - destruct (str_eqb n name) eqn:En.
    + apply str_eqb_eq in En. split; [discriminate | tauto].
    + apply str_eqb_neq in En. split; [|reflexivity].
      intros _ [H|H]; [contradiction|]. now apply (proj1 IH).
Qed.

Lemma read_member_Ok a name : In name (namelist a) ->
  exists content, read_member a name = Ok content /\ zip_read a name = Some content.
Proof.
  intros H. unfold read_member. destruct (zip_read a name) as [c|] eqn:E.
  - now exists c.
  - apply zip_read_None in E. contradiction.
Qed.

(** If every member called [name] holds [content], so does the archive
    read by name. *)
Lemma zip_read_all a name content :
  In name (namelist a) ->
  (forall e, In e a -> fst e = name -> snd e = content) ->
  zip_read a name = Some content.
Proof.
  induction a as [|[n c] a IH]; intros Hin Hall; [destruct Hin|].
  simpl. destruct (in_dec str_eq_dec name (namelist a)) as [Hin'|Hn].
  - rewrite IH; [reflexivity | exact Hin' |].
    intros e He. apply Hall. now right.
  - apply zip_read_None in Hn. rewrite Hn.
    destruct Hin as [E|Hin]; [|apply zip_read_None in Hn; contradiction].
    simpl in E. subst n. rewrite str_eqb_refl. f_equal.
    apply (Hall (name, c)); [now left | reflexivity].
Qed.

Lemma zip_read_In a name content :
  zip_read a name = Some content -> In (name, content) a.
Proof.
  induction a as [|[n c] a IH]; simpl; [discriminate|].
  destruct (zip_read a name) as [later|].
  - intros [= <-]. right. now apply IH.
  - destruct (str_eqb n name) eqn:E; [|discriminate].
    apply str_eqb_eq in E. subst n. intros [= <-]. now left.
Qed.

Lemma map_Ok_In {A B} (f : A -> result B) (l : list A) (es : list B) :
  map f l = map Ok es ->
  (forall e, In e es -> exists x, In x l /\ f x = Ok e)
  /\ (forall x, In x l -> exists e, In e es /\ f x = Ok e).
Proof.
  revert es; induction l as [|x l IH]; intros [|e es] H; try discriminate.
  - split; intros ? [].
  - simpl in H. injection H as Hx H. destruct (IH es H) as [IH1 IH2]. split.
    + intros e' [<-|He']; [exists x; split; [now left | exact Hx]|].
      destruct (IH1 e' He') as [y [Hy Hfy]]. exists y. split; [now right | exact Hfy].
    + intros y [<-|Hy]; [exists e; split; [now left | exact Hx]|].
      destruct (IH2 y Hy) as [e' [He' Hfy]]. exists e'. split; [now right | exact Hfy].
Qed.

Lemma named_Ok name r e : named name r = Ok e ->
  exists content, r = Ok content /\ e = (name, content).
Proof. destruct r as [c|]; [|discriminate]. intros [= <-]. now exists c. Qed.

(** ** fill_template, step by step *)

Section TemplateFacts.
Variable TEMPLATE_PATH : str.
Variable is_decimal : char -> bool.
Variable lower : str -> str.

(** The course of [fill_template], with the intermediate disks. *)
Lemma fill_template_unfold copy quota data output_path disk :
  fill_template TEMPLATE_PATH copy quota data output_path disk
  = match disk TEMPLATE_PATH with
    | None => (disk, Raise FileNotFoundError)
    | Some f =>
      if str_eqb TEMPLATE_PATH output_path then (disk, Raise SameFileError)
      else
        match copy with
        | Some SourceUnreadable => (disk, Raise OSError)
        | Some DestinationUnwritable => (disk, Raise OSError)
        | Some CopyInterrupted =>
          (fs_set output_path (Some Damaged) disk, Raise OSError)
        | Some ModeNotCopied =>
          (fs_set output_path (Some f) disk, Raise OSError)
        | None =>
          let copied := fs_set output_path (Some f) disk in
          match f with
          | Damaged => (copied, Raise BadZipFile)
          | Zip src =>
            match read_member src DOCUMENT_XML with
            | Raise e => (copied, Raise e)
            | Ok raw =>
              match decode raw with
              | Raise e => (copied, Raise e)
              | Ok xml_content =>
                match write_zip (output_path ++ u ".tmp") quota
                        (map (fill_member src (substitute xml_content data))
                             src)
                        copied with
                | (disk', Raise e) => (disk', Raise e)
                | (disk', Ok _) =>
                  os_replace (output_path ++ u ".tmp") output_path disk'
                end
              end
            end
          end
        end
    end.
Proof.
  unfold fill_template, bind, path_exists, shutil_copy, raise. cbv beta.
  destruct (disk TEMPLATE_PATH) as [f|] eqn:Ef; cbv beta iota; cbn [negb];
    [|reflexivity].
  rewrite Ef.
  destruct (str_eqb TEMPLATE_PATH output_path); cbv beta iota; [reflexivity|].
  destruct copy as [[]|]; cbv beta iota; try reflexivity.
  unfold open_zip at 1. rewrite fs_set_same.
  destruct f as [src|]; cbv beta iota; [|reflexivity].
  unfold lift at 1.
  destruct (read_member src DOCUMENT_XML) as [raw|e]; cbv beta iota; [|reflexivity].
  unfold lift at 1. destruct (decode raw) as [xml|e]; cbv beta iota; [|reflexivity].
  unfold open_zip. rewrite fs_set_same. reflexivity.
Qed.

Lemma fill_member_name src xml item e :
  fill_member src xml item = Ok e -> fst e = fst item.
Proof.
  unfold fill_member. destruct (str_eqb (fst item) DOCUMENT_XML);
    intros H; apply named_Ok in H as [c [_ ->]]; reflexivity.
Qed.

Lemma fill_member_content src xml item e :
  fill_member src xml item = Ok e -> fst item <> DOCUMENT_XML ->
  zip_read src (fst item) = Some (snd e).
Proof.
  unfold fill_member. intros H Hne. apply str_eqb_neq in Hne. rewrite Hne in H.
  apply named_Ok in H as [c [Hc ->]]. unfold read_member in Hc.
  destruct (zip_read src (fst item)); [|discriminate]. now injection Hc as ->.
Qed.

Lemma map_Ok_names {A} (f : A -> result (str * bytes)) (name_of : A -> str)
    (l : list A) (es : archive) :
  map f l = map Ok es ->
  (forall x e, f x = Ok e -> fst e = name_of x) ->
  namelist es = map name_of l.
Proof.
  revert es; induction l as [|x l IH]; intros [|e es] H Hn; try discriminate;
    [reflexivity|].
  simpl in H. injection H as Hx H. simpl. f_equal; [now apply Hn | now apply IH].
Qed.

(** What a successful [fill_template] leaves: the rewritten archive at the
    destination, nothing at the temporary path. *)
Lemma fill_template_Ok copy quota data output_path disk disk' :
  fill_template TEMPLATE_PATH copy quota data output_path disk
  = (disk', Ok tt) ->
  exists src xml_content out,
    disk TEMPLATE_PATH = Some (Zip src)
    /\ member_text src DOCUMENT_XML = Some xml_content
    /\ map (fill_member src (substitute xml_content data)) src = map Ok out
    /\ disk' output_path = Some (Zip out)
    /\ disk' (output_path ++ u ".tmp") = None.
Proof.
  rewrite fill_template_unfold.
  destruct (disk TEMPLATE_PATH) as [[src|]|]; try discriminate;
    destruct (str_eqb TEMPLATE_PATH output_path); try discriminate;
    destruct copy as [[]|]; try discriminate.
  cbv zeta. unfold read_member, decode.
  destruct (zip_read src DOCUMENT_XML) as [raw|] eqn:Eraw; [|discriminate].
  destruct (utf8_decode raw) as [xml|] eqn:Exml; [|discriminate].
  destruct (write_zip _ _ _ _) as [mid [[]|e]] eqn:Ew; [|discriminate].
  apply write_zip_Ok in Ew as [out [Hout ->]].
  intros H. apply os_replace_inv in H. rewrite fs_set_same in H.
  destruct H as [-> _]. exists src, xml, out.
  split; [reflexivity|].
  split; [unfold member_text; now rewrite Eraw|]. split; [exact Hout|]. split.
  - rewrite fs_set_other, fs_set_same; [reflexivity|].
    intros E. symmetry in E. revert E. apply app_suffix_neq. discriminate.
  - apply fs_set_same.
Qed.


(** ** replace_image_in_docx, step by step *)

Lemma replace_image_in_docx_unfold quota docx_path image_placeholder
    new_image_bytes image_ext disk :
  replace_image_in_docx is_decimal lower quota docx_path image_placeholder
    new_image_bytes image_ext disk
  = match disk docx_path with
    | None => (disk, Raise FileNotFoundError)
    | Some Damaged => (disk, Raise BadZipFile)
    | Some (Zip src) =>
      match read_member src DOCUMENT_RELS with
      | Raise e => (disk, Raise e)
      | Ok raw_rels =>
        match decode raw_rels with
        | Raise e => (disk, Raise e)
        | Ok rels_content =>
          match read_member src DOCUMENT_XML with
          | Raise e => (disk, Raise e)
          | Ok raw_doc =>
            match decode raw_doc with
            | Raise e => (disk, Raise e)
            | Ok doc_content =>
              match re_search (match_embed is_decimal image_placeholder)
                      doc_content with
              | None => (disk, Ok tt)
              | Some rid =>
                match re_search (match_target rid) rels_content with
                | None => (disk, Ok tt)
                | Some old_filename =>
                  let new_filename :=
                    new_media_name lower image_placeholder image_ext in
                  match write_zip (docx_path ++ u ".imgtmp") quota
                          (map (image_member src
                                  (replace rels_content
                                     (u "media/" ++ old_filename)
                                     (u "media/" ++ new_filename))
                                  old_filename new_filename new_image_bytes)
                               src)
                          disk with
                  | (disk', Raise e) => (disk', Raise e)
                  | (disk', Ok _) =>
                    os_replace (docx_path ++ u ".imgtmp") docx_path disk'
                  end
                end
              end
            end
          end
        end
      end
    end.
Proof.
  unfold replace_image_in_docx, bind. unfold open_zip at 1.
  destruct (disk docx_path) as [[src|]|] eqn:Ed; cbv beta iota; try reflexivity.
  unfold lift at 1.
  destruct (read_member src DOCUMENT_RELS) as [raw_rels|e]; cbv beta iota;
    [|reflexivity].
  unfold lift at 1.
  destruct (decode raw_rels) as [rels|e]; cbv beta iota; [|reflexivity].
  unfold lift at 1.
  destruct (read_member src DOCUMENT_XML) as [raw_doc|e]; cbv beta iota;
    [|reflexivity].
  unfold lift at 1.
  destruct (decode raw_doc) as [doc|e]; cbv beta iota; [|reflexivity].
  destruct (re_search (match_embed is_decimal image_placeholder) doc) as [rid|];
    [|reflexivity].
  destruct (re_search (match_target rid) rels) as [old|]; [|reflexivity].
  cbv zeta. unfold open_zip. rewrite Ed. reflexivity.
Qed.


Lemma image_member_name src rels old new img item e name :
  image_member src rels old new img item = Ok e ->
  fst e = name -> name <> u "word/media/" ++ new ->
  fst item = name.
Proof.
  unfold image_member. destruct (str_eqb (fst item) DOCUMENT_RELS).
  - intros H. apply named_Ok in H as [c [_ ->]]. auto.
  - destruct (str_eqb (fst item) (u "word/media/" ++ old)).
    + intros [= <-]. simpl. intros <- H. now destruct H.
    + intros H. apply named_Ok in H as [c [_ ->]]. auto.
Qed.

Lemma image_member_kept src rels old new img item :
  In item src ->
  fst item <> DOCUMENT_RELS -> fst item <> u "word/media/" ++ old ->
  exists content,
    image_member src rels old new img item = Ok (fst item, content)
    /\ zip_read src (fst item) = Some content.
Proof.
  intros Hin H1 H2. unfold image_member.
  apply str_eqb_neq in H1, H2. rewrite H1, H2.
  destruct (read_member_Ok src (fst item)) as [c [Hc Hz]].
  - apply in_map_iff. now exists item.
  - exists c. rewrite Hc. now split.
Qed.

(** What a successful [replace_image_in_docx] leaves. *)
Lemma replace_image_in_docx_Ok quota docx_path image_placeholder
    new_image_bytes image_ext disk disk' src :
  disk docx_path = Some (Zip src) ->
  replace_image_in_docx is_decimal lower quota docx_path image_placeholder
    new_image_bytes image_ext disk = (disk', Ok tt) ->
  match targeted_media is_decimal src image_placeholder with
  | None => disk' = disk
  | Some old_filename =>
    exists rels_content out,
      map (image_member src rels_content old_filename
             (new_media_name lower image_placeholder image_ext)
             new_image_bytes) src = map Ok out
      /\ disk' docx_path = Some (Zip out)
      /\ disk' (docx_path ++ u ".imgtmp") = None
  end.
Proof.
  intros Hd. rewrite replace_image_in_docx_unfold, Hd.
  unfold targeted_media, member_text, read_member, decode.
  destruct (zip_read src DOCUMENT_RELS) as [raw_rels|]; [|discriminate].
  destruct (utf8_decode raw_rels) as [rels|]; [|discriminate].
  destruct (zip_read src DOCUMENT_XML) as [raw_doc|]; [|discriminate].
  destruct (utf8_decode raw_doc) as [doc|]; [|discriminate].
  destruct (re_search _ doc) as [rid|]; [|now intros [= <-]].
  destruct (re_search _ rels) as [old|]; [|now intros [= <-]].
  cbv zeta. destruct (write_zip _ _ _ _) as [mid [[]|e1]] eqn:Ew; [|discriminate].
  apply write_zip_Ok in Ew as [out [Hout ->]]. intros H.
  apply os_replace_inv in H. rewrite fs_set_same in H. destruct H as [-> _].
  eexists _, out. split; [exact Hout|]. split.
  - rewrite fs_set_other, fs_set_same; [reflexivity|].
    intros E. symmetry in E. revert E. apply app_suffix_neq. discriminate.
  - apply fs_set_same.
Qed.

End TemplateFacts.

(** ** The archive rewrites *)

(** C3: the archive round trip.  A [fill_template] that succeeds leaves at
    the destination an archive with the member names of the template, in the
    same order, in which every member other than [word/document.xml] reads
    as in the template.  The loop of [replace_image_in_docx] (lines 271-279),
    whatever media file name the two searches gave it, writes an archive
    that still has the relationships member and in which, for every member
    name of the document other than the relationships member and the
    targeted media member, a member of that name with the bytes of the
    document is present; that name also reads as before unless it is the
    name the new image is stored under.  So does a [replace_image_in_docx]
    that succeeds, the targeted member being the one its placeholder (of
    letters, digits and underscores) is bound to. *)
Theorem archive_round_trip :
  (forall TEMPLATE_PATH copy quota data output_path disk disk' src,
     disk TEMPLATE_PATH = Some (Zip src) ->
     fill_template TEMPLATE_PATH copy quota data output_path disk
     = (disk', Ok tt) ->
     exists out,
       disk' output_path = Some (Zip out)
       /\ namelist out = namelist src
       /\ (forall name, name <> DOCUMENT_XML ->
             zip_read out name = zip_read src name)
       /\ exists xml_content new_content,
            member_text src DOCUMENT_XML = Some xml_content
            /\ utf8_encode (substitute xml_content data) = Some new_content
            /\ zip_read out DOCUMENT_XML = Some new_content)
  /\ (forall quota (src : archive) rels_content old_filename new_filename
             new_image_bytes out,
        write_loop quota
          (map (image_member src rels_content old_filename new_filename
                  new_image_bytes) src) []
        = (out, Ok tt) ->
        (In DOCUMENT_RELS (namelist src) -> In DOCUMENT_RELS (namelist out))
        /\ forall name,
             In name (namelist src) ->
             name <> DOCUMENT_RELS ->
             name <> u "word/media/" ++ old_filename ->
             exists content,
               zip_read src name = Some content
               /\ In (name, content) out
               /\ (name <> u "word/media/" ++ new_filename ->
                   zip_read out name = Some content))
  /\ (forall is_decimal lower quota docx_path image_placeholder new_image_bytes
             image_ext disk disk' src,
        word_chars image_placeholder = true ->
        disk docx_path = Some (Zip src) ->
        replace_image_in_docx is_decimal lower quota docx_path
          image_placeholder new_image_bytes image_ext disk = (disk', Ok tt) ->
        exists out,
          disk' docx_path = Some (Zip out)
          /\ (In DOCUMENT_RELS (namelist src) -> In DOCUMENT_RELS (namelist out))
          /\ forall name,
               In name (namelist src) ->
               name <> DOCUMENT_RELS ->
               (forall old_filename,
                  targeted_media is_decimal src image_placeholder
                  = Some old_filename ->
                  name <> u "word/media/" ++ old_filename) ->
               exists content,
                 zip_read src name = Some content
                 /\ In (name, content) out
                 /\ (name <> u "word/media/"
                              ++ new_media_name lower image_placeholder image_ext ->
                     zip_read out name = Some content)).
Proof.
  assert (Hloop :
            forall (src : archive) rels old new img out,
              map (image_member src rels old new img) src = map Ok out ->
              (In DOCUMENT_RELS (namelist src) ->
               In DOCUMENT_RELS (namelist out))
              /\ forall name,
                   In name (namelist src) ->
                   name <> DOCUMENT_RELS ->
                   name <> u "word/media/" ++ old ->
                   exists content,
                     zip_read src name = Some content
                     /\ In (name, content) out
                     /\ (name <> u "word/media/" ++ new ->
                         zip_read out name = Some content)).
  { intros src rels old new img out Hout. split.
    { intros Hin. apply in_map_iff in Hin as [item [Hitem Hin]].
      destruct (proj2 (map_Ok_In _ _ _ Hout) item Hin) as [e [He Hfe]].
      unfold image_member in Hfe. rewrite Hitem, str_eqb_refl in Hfe.
      apply named_Ok in Hfe as [c [_ ->]].
      apply in_map_iff. now exists (DOCUMENT_RELS, c). }
    intros name Hin Hrels Hold.
    apply in_map_iff in Hin as [item [Hitem Hin]].
    destruct (image_member_kept src rels old new img item Hin)
      as [c [Hf Hc]]; try (now rewrite Hitem).
    rewrite Hitem in Hf, Hc.
    destruct (proj2 (map_Ok_In _ _ _ Hout) item Hin) as [e [He Hfe]].
    rewrite Hf in Hfe. injection Hfe as <-.
    exists c. split; [exact Hc|]. split; [exact He|]. intros Hnew.
    apply zip_read_all; [apply in_map_iff; now exists (name, c)|].
    intros e He' Hfst.
    destruct (proj1 (map_Ok_In _ _ _ Hout) e He') as [item' [Hin' Hf']].
    assert (Hitem' : fst item' = name)
      by exact (image_member_name _ _ _ _ _ _ _ _ Hf' Hfst Hnew).
    destruct (image_member_kept src rels old new img item' Hin')
      as [c' [Hf'' Hc']]; try (now rewrite Hitem').
    rewrite Hitem' in Hf'', Hc'. rewrite Hf'' in Hf'. injection Hf' as <-.
    simpl. congruence. }
  split; [|split].
  - intros T copy quota data output_path disk disk' src Hsrc H.
    apply fill_template_Ok in H as [src' [xml [out [Hs [Hxml [Hout [Hd _]]]]]]].
    rewrite Hsrc in Hs. injection Hs as <-.
    assert (Hnames : namelist out = namelist src).
    { apply (map_Ok_names _ fst _ _ Hout). intros x e. apply fill_member_name. }
    exists out. split; [exact Hd|]. split; [exact Hnames|]. split.
    + intros name Hname.
      destruct (in_dec str_eq_dec name (namelist src)) as [Hin|Hn].
      * destruct (read_member_Ok src name Hin) as [c [_ Hc]]. rewrite Hc.
        apply zip_read_all; [now rewrite Hnames|].
        intros e He Hfst.
        destruct (proj1 (map_Ok_In _ _ _ Hout) e He) as [item [_ Hf]].
        assert (Hitem : fst item = name)
          by (rewrite <- (fill_member_name _ _ _ _ Hf); exact Hfst).
        apply fill_member_content in Hf; [|now rewrite Hitem].
        rewrite Hitem, Hc in Hf. now injection Hf.
      * rewrite (proj2 (zip_read_None src name) Hn).
        apply zip_read_None. now rewrite Hnames.
    + assert (Hin : In DOCUMENT_XML (namelist src)).
      { destruct (in_dec str_eq_dec DOCUMENT_XML (namelist src)) as [Hin|Hn];
          [exact Hin|].
        apply zip_read_None in Hn. unfold member_text in Hxml.
        rewrite Hn in Hxml. discriminate Hxml. }
      apply in_map_iff in Hin as [item [Hitem Hin]].
      destruct (proj2 (map_Ok_In _ _ _ Hout) item Hin) as [e [He Hfe]].
      unfold fill_member in Hfe. rewrite Hitem, str_eqb_refl in Hfe.
      apply named_Ok in Hfe as [new [Hnew ->]]. unfold encode in Hnew.
      destruct (utf8_encode (substitute xml data)) as [new'|] eqn:Eenc;
        [|discriminate]. injection Hnew as ->.
      exists xml, new. split; [exact Hxml|]. split; [exact Eenc|].
      apply zip_read_all; [rewrite Hnames; apply in_map_iff; now exists item|].
      intros e' He' Hfst.
      destruct (proj1 (map_Ok_In _ _ _ Hout) e' He') as [item' [_ Hf']].
      assert (Hitem' : fst item' = DOCUMENT_XML)
        by (rewrite <- (fill_member_name _ _ _ _ Hf'); exact Hfst).
      unfold fill_member in Hf'. rewrite Hitem', str_eqb_refl in Hf'.
      unfold encode in Hf'. rewrite Eenc in Hf'. simpl in Hf'.
      now injection Hf' as <-.
  - intros quota src rels old new img out H.
    apply write_loop_Ok in H as [es [Hout ->]]. cbn [app].
    exact (Hloop src rels old new img es Hout).
  - intros is_decimal lower quota docx_path tag img ext disk disk' src _ Hsrc H.
    apply (replace_image_in_docx_Ok _ _ _ _ _ _ _ _ _ _ Hsrc) in H.
    destruct (targeted_media is_decimal src tag) as [old|].
    2:{ subst disk'. exists src. split; [exact Hsrc|]. split; [auto|].
        intros name Hin _ _.
        destruct (read_member_Ok src name Hin) as [c [_ Hc]]. exists c.
        split; [exact Hc|]. split; [now apply zip_read_In | now intros _]. }
    destruct H as [rels [out [Hout [Hd _]]]].
    exists out. split; [exact Hd|].
    destruct (Hloop src rels old (new_media_name lower tag ext) img out Hout)
      as [Hrels Hkept].
    split; [exact Hrels|].
    intros name Hin Hne Hmedia. exact (Hkept name Hin Hne (Hmedia old eq_refl)).
Qed.

Lemma archive_round_trip_witness :
  (exists out,
     fst (fill_template (u "template_v2.docx") None None
            [(u "权属人", Some (u "张三"))] (u "report.docx") sample_disk)
       (u "report.docx") = Some (Zip out)
     /\ namelist out = namelist sample_template
     /\ (forall name, name <> DOCUMENT_XML ->
           zip_read out name = zip_read sample_template name)
     /\ exists xml_content new_content,
          member_text sample_template DOCUMENT_XML = Some xml_content
          /\ utf8_encode (substitute xml_content [(u "权属人", Some (u "张三"))])
             = Some new_content
          /\ zip_read out DOCUMENT_XML = Some new_content)
  /\ (exists out,
        fst (replace_image_in_docx ascii_digit ascii_lower None
               (u "template_v2.docx") (u "IMAGE_PHOTO_1") (bytes_of "JPEG") (u "jpeg")
               sample_disk)
          (u "template_v2.docx") = Some (Zip out)
        /\ (In DOCUMENT_RELS (namelist sample_template) ->
            In DOCUMENT_RELS (namelist out))
        /\ forall name,
             In name (namelist sample_template) ->
             name <> DOCUMENT_RELS ->
             (forall old_filename,
                targeted_media ascii_digit sample_template (u "IMAGE_PHOTO_1")
                = Some old_filename ->
                name <> u "word/media/" ++ old_filename) ->
             exists content,
               zip_read sample_template name = Some content
               /\ In (name, content) out
               /\ (name <> u "word/media/"
                            ++ new_media_name ascii_lower (u "IMAGE_PHOTO_1")
                                 (u "jpeg") ->
                   zip_read out name = Some content)).
Proof.
  split.
  - apply (proj1 archive_round_trip (u "template_v2.docx") None None
             [(u "权属人", Some (u "张三"))] (u "report.docx") sample_disk).
    + vm_compute. reflexivity.
    + vm_compute. reflexivity.
  - apply (proj2 (proj2 archive_round_trip) ascii_digit ascii_lower None
             (u "template_v2.docx") (u "IMAGE_PHOTO_1") (bytes_of "JPEG") (u "jpeg")
             sample_disk).
    + reflexivity.
    + vm_compute. reflexivity.
    + vm_compute. reflexivity.
Defined.

(** What a successful [replace_image_in_docx] whose placeholder is bound
    leaves: the archive written by the loop at the document path, nothing
    at the temporary path. *)
Lemma replace_image_in_docx_target is_decimal lower quota docx_path
    image_placeholder new_image_bytes image_ext disk disk' src old_filename :
  disk docx_path = Some (Zip src) ->
  targeted_media is_decimal src image_placeholder = Some old_filename ->
  replace_image_in_docx is_decimal lower quota docx_path image_placeholder
    new_image_bytes image_ext disk = (disk', Ok tt) ->
  exists rels_content out,
    member_text src DOCUMENT_RELS = Some rels_content
    /\ map (image_member src
              (replace rels_content (u "media/" ++ old_filename)
                 (u "media/"
                  ++ new_media_name lower image_placeholder image_ext))
              old_filename
              (new_media_name lower image_placeholder image_ext)
              new_image_bytes) src = map Ok out
    /\ disk' docx_path = Some (Zip out).
Proof.
  intros Hsrc Ht. rewrite replace_image_in_docx_unfold, Hsrc.
  unfold targeted_media, member_text in Ht. unfold read_member, decode.
  destruct (zip_read src DOCUMENT_XML) as [raw_doc|]; [|discriminate].
  destruct (utf8_decode raw_doc) as [doc|]; [|discriminate].
  unfold member_text.
  destruct (zip_read src DOCUMENT_RELS) as [raw_rels|]; [|discriminate].
  destruct (utf8_decode raw_rels) as [rels|]; [|discriminate].
  destruct (re_search (match_embed is_decimal image_placeholder) doc)
    as [rid|]; [|discriminate].
  rewrite Ht. cbv zeta.
  destruct (write_zip _ _ _ disk) as [mid [[]|e]] eqn:Ew; [|discriminate].
  intros Hr.
  apply write_zip_Ok in Ew as [out [Hout ->]].
  apply os_replace_inv in Hr. rewrite fs_set_same in Hr.
  destruct Hr as [-> _].
  exists rels, out. split; [reflexivity|]. split; [exact Hout|].
  rewrite fs_set_other, fs_set_same; [reflexivity|].
  intros E. symmetry in E. revert E. apply app_suffix_neq. discriminate.
Qed.




(** ** The search for the placeholder *)

Lemma after_attrs_contains lit s :
  after_attrs lit s = true -> contains lit s = true.
Proof.
  induction s as [|c s IH]; simpl.
  - destruct (strip_prefix lit []); [reflexivity | discriminate].
  - destruct (strip_prefix lit (c :: s)); [reflexivity|].
    destruct (c =? 62)%N; [discriminate | exact IH].
Qed.

Lemma span_app p s : forall a rest, span p s = (a, rest) -> s = a ++ rest.
Proof.
  induction s as [|c s IH]; simpl; intros a rest.
  - now intros [= <- <-].
  - destruct (p c); [|now intros [= <- <-]].
    destruct (span p s) as [a' rest']. intros [= <- <-].
    simpl. f_equal. now apply IH.
Qed.

Lemma match_embed_contains is_decimal tag s rid :
  match_embed is_decimal tag s = Some rid ->
  contains (u "w:comment=" ++ [34%N] ++ tag ++ [34%N]) s = true.
Proof.
  unfold match_embed.
  destruct (strip_prefix _ s) as [s1|] eqn:E1; [|discriminate].
  apply strip_prefix_app in E1. subst s.
  destruct (span is_decimal s1) as [digits rest] eqn:E2.
  apply span_app in E2. subst s1.
  destruct digits as [|d digits]; [discriminate|].
  destruct rest as [|q s2]; [discriminate|].
  destruct (q =? 34)%N; [|discriminate]. cbn [andb].
  destruct (after_attrs _ s2) eqn:E3; [|discriminate]. intros _.
  apply contains_app_r, contains_app_r, contains_cons, after_attrs_contains, E3.
Qed.

Lemma re_search_None {A} (match_at : str -> option A) lit s :
  (forall t m, match_at t = Some m -> contains lit t = true) ->
  contains lit s = false -> re_search match_at s = None.
Proof.
  intros Hm. induction s as [|c s IH]; intros Hs; simpl.
  - destruct (match_at []) as [m|] eqn:E; [|reflexivity].
    apply Hm in E. congruence.
  - destruct (match_at (c :: s)) as [m|] eqn:E.
    + apply Hm in E. congruence.
    + apply IH. destruct (contains lit s) eqn:Ec; [|reflexivity].
      apply (contains_cons lit c) in Ec. congruence.
Qed.

(** C7 (as amended): for a placeholder of letters, digits and
    underscores, when the document can be opened and its relationships and
    main parts read, a placeholder that matches no drawing reference, or
    whose relationship id leads to no media file, makes
    [replace_image_in_docx] return without raising and without touching the
    disk; in particular when the placeholder does not occur as a
    [w:comment] value in the document text.  When one of the two parts is
    missing or is not UTF-8, the call raises KeyError or UnicodeDecodeError
    before any search, whatever the placeholder, and the disk is as it
    was. *)
Theorem unmatched_placeholder_is_noop
    (is_decimal : char -> bool) (lower : str -> str) (quota : option nat)
    (docx_path image_placeholder : str) (new_image_bytes : bytes)
    (image_ext : str) (disk : fs) (src : archive) :
  disk docx_path = Some (Zip src) ->
  (forall rels_content doc_content,
     word_chars image_placeholder = true ->
     member_text src DOCUMENT_RELS = Some rels_content ->
     member_text src DOCUMENT_XML = Some doc_content ->
     contains (u "w:comment=" ++ [34%N] ++ image_placeholder ++ [34%N])
       doc_content = false
     \/ re_search (match_embed is_decimal image_placeholder) doc_content = None
     \/ (exists rid,
           re_search (match_embed is_decimal image_placeholder) doc_content
           = Some rid
           /\ re_search (match_target rid) rels_content = None) ->
     replace_image_in_docx is_decimal lower quota docx_path image_placeholder
       new_image_bytes image_ext disk
     = (disk, Ok tt))
  /\ (member_text src DOCUMENT_RELS = None
      \/ member_text src DOCUMENT_XML = None ->
      exists e,
        (e = KeyError \/ e = UnicodeDecodeError)
        /\ replace_image_in_docx is_decimal lower quota docx_path
             image_placeholder new_image_bytes image_ext disk
           = (disk, Raise e)).
Proof.
  intros Hd. split.
  - intros rels_content doc_content _ Hrels Hdoc Hcase.
    rewrite replace_image_in_docx_unfold, Hd.
    unfold member_text in Hrels, Hdoc. unfold read_member, decode.
    destruct (zip_read src DOCUMENT_RELS) as [raw_rels|]; [|discriminate].
    rewrite Hrels.
    destruct (zip_read src DOCUMENT_XML) as [raw_doc|]; [|discriminate].
    rewrite Hdoc.
    assert (Hcase' :
              re_search (match_embed is_decimal image_placeholder) doc_content
              = None
              \/ exists rid,
                   re_search (match_embed is_decimal image_placeholder)
                     doc_content = Some rid
                   /\ re_search (match_target rid) rels_content = None).
    { destruct Hcase as [H|[H|H]]; [left | now left | now right].
      apply (re_search_None _ _ _
               (match_embed_contains is_decimal image_placeholder)).
      exact H. }
    destruct Hcase' as [->|[rid [-> ->]]]; reflexivity.
  - intros Hmissing.
    rewrite replace_image_in_docx_unfold, Hd.
    unfold member_text in Hmissing. unfold read_member, decode.
    destruct (zip_read src DOCUMENT_RELS) as [raw_rels|].
    2:{ exists KeyError. split; [now left | reflexivity]. }
    destruct (utf8_decode raw_rels) as [rels|].
    2:{ exists UnicodeDecodeError. split; [now right | reflexivity]. }
    destruct (zip_read src DOCUMENT_XML) as [raw_doc|].
    2:{ exists KeyError. split; [now left | reflexivity]. }
    destruct (utf8_decode raw_doc) as [doc|].
    2:{ exists UnicodeDecodeError. split; [now right | reflexivity]. }
    destruct Hmissing as [H|H]; discriminate H.
Qed.

Lemma unmatched_placeholder_is_noop_witness :
  replace_image_in_docx ascii_digit ascii_lower None (u "template_v2.docx")
    (u "IMAGE_PHOTO_2") (bytes_of "JPEG") (u "jpeg") sample_disk
  = (sample_disk, Ok tt).
Proof.
  apply (proj1 (unmatched_placeholder_is_noop ascii_digit ascii_lower None
                  (u "template_v2.docx") (u "IMAGE_PHOTO_2") (bytes_of "JPEG")
                  (u "jpeg") sample_disk sample_template eq_refl)
           (match member_text sample_template DOCUMENT_RELS with
            | Some s => s | None => [] end)
           (match member_text sample_template DOCUMENT_XML with
            | Some s => s | None => [] end)).
  - reflexivity.
  - vm_compute. reflexivity.
  - vm_compute. reflexivity.
  - left. vm_compute. reflexivity.
Defined.

(** C7, as the specification words it, fails: the relationships member is
    read before the placeholder is looked for, so a document without that
    member raises KeyError although the placeholder matches nothing. *)
Lemma unmatched_placeholder_may_raise :
  re_search (match_embed ascii_digit (u "IMAGE_PHOTO_1"))
    (u "<w:t>no picture</w:t>") = None
  /\ replace_image_in_docx ascii_digit ascii_lower None (u "report.docx")
       (u "IMAGE_PHOTO_1") (bytes_of "JPEG") (u "jpeg") unrelated_disk
     = (unrelated_disk, Raise KeyError)
  /\ ~ spec_unmatched_is_silent.
Proof.
  split; [vm_compute; reflexivity|]. split; [vm_compute; reflexivity|].
  intros H.
  specialize (H ascii_digit ascii_lower None (u "report.docx")
                (u "IMAGE_PHOTO_1") (bytes_of "JPEG") (u "jpeg") unrelated_disk
                [(DOCUMENT_XML, bytes_of "<w:t>no picture</w:t>")]
                (u "<w:t>no picture</w:t>")).
  assert (E : replace_image_in_docx ascii_digit ascii_lower None
                (u "report.docx") (u "IMAGE_PHOTO_1") (bytes_of "JPEG") (u "jpeg")
                unrelated_disk = (unrelated_disk, Raise KeyError))
    by (vm_compute; reflexivity).
  rewrite E in H.
  assert (H' := H ltac:(vm_compute; reflexivity) ltac:(vm_compute; reflexivity)
                  ltac:(vm_compute; reflexivity)).
  discriminate H'.
Qed.

(** ** The surroundings search *)

Lemma keys_dict_set_present {V} (d : dict V) k v :
  In k (keys d) -> keys (dict_set k v d) = keys d.
Proof.
  intros H. rewrite keys_dict_set. unfold dict_has.
  destruct (dict_get k d) eqn:E; [reflexivity|].
  apply dict_get_None in E. contradiction.
Qed.

Lemma keys_append_to key text (result : dict json) :
  keys (append_to key text result) = keys result.
Proof.
  unfold append_to. destruct (dict_get key result) as [[]|] eqn:E; try reflexivity.
  apply keys_dict_set_present.
  destruct (in_dec str_eq_dec key (keys result)) as [H|H]; [exact H|].
  apply dict_get_None in H. congruence.
Qed.

Section SurroundingsFacts.
Variable geocode_geo : str -> str -> response.
Variable place_around : json -> str -> Z -> str -> response.
Variable format_value : json -> str.
Variable describe : py_error -> str.

Lemma keys_add_pois key pois : forall result,
  keys (fst (add_pois format_value key pois result)) = keys result.
Proof.
  induction pois as [|poi pois IH]; intros result; simpl; [reflexivity|].
  destruct (py_get poi (u "name") (JStr [])) as [e|name];
    destruct (py_get poi (u "distance") (JStr [])) as [e'|distance];
    try reflexivity.
  rewrite IH. apply keys_append_to.
Qed.

Lemma keys_search_category location amap_key category result :
  keys (fst (search_category place_around format_value location amap_key
               category result))
  = keys result.
Proof.
  unfold search_category. destruct category as [[type_str key] radius].
  destruct (place_around location type_str radius amap_key) as [m|resp];
    [reflexivity|].
  destruct (py_get resp (u "status") JNull) as [e|status]; [reflexivity|].
  destruct (eq_str status (u "1")); [|reflexivity].
  destruct (py_get resp (u "pois") JNull) as [e|pois]; [reflexivity|].
  destruct (truthy pois); [|reflexivity].
  destruct (py_item resp (u "pois")) as [e|pois']; [reflexivity|].
  destruct (py_first_five pois') as [e|items]; [reflexivity|].
  apply keys_add_pois.
Qed.

Lemma keys_search_categories location amap_key categories : forall result,
  keys (fst (search_categories place_around format_value location amap_key
               categories result))
  = keys result.
Proof.
  induction categories as [|category rest IH]; intros result; simpl;
    [reflexivity|].
  assert (H := keys_search_category location amap_key category result).
  destruct (search_category _ _ _ _ _ _) as [result' [e|]]; simpl in *;
    [exact H|].
  now rewrite IH.
Qed.

Lemma search_categories_app location amap_key before after : forall result,
  search_categories place_around format_value location amap_key
    (before ++ after) result
  = match search_categories place_around format_value location amap_key
            before result with
    | (result', None) =>
      search_categories place_around format_value location amap_key
        after result'
    | (result', Some e) => (result', Some e)
    end.
Proof.
  induction before as [|category before IH]; intros result; simpl;
    [reflexivity|].
  destruct (search_category _ _ _ _ _ _) as [result' [e|]]; [reflexivity|].
  apply IH.
Qed.

Lemma keys_search_body address amap_key :
  keys (fst (search_body geocode_geo place_around format_value address amap_key))
  = keys initial_result.
Proof.
  unfold search_body. destruct (geocode_geo address amap_key) as [m|geo];
    [reflexivity|].
  destruct (locate geo) as [e|[location|]]; try reflexivity.
  rewrite keys_search_categories. reflexivity.
Qed.

Lemma locate_unresolved members :
  eq_str (member members (u "status")) (u "1") = false
  \/ truthy (member members (u "geocodes")) = false ->
  locate (JObj members) = inr None.
Proof.
  unfold locate, py_get, member. intros [H|H].
  - now rewrite H.
  - destruct (eq_str _ (u "1")); [|reflexivity]. cbn [negb]. now rewrite H.
Qed.
End SurroundingsFacts.

(** C8: the surroundings search always returns a record with its seven
    keys.  When the geocoder's reply does not resolve the address the record
    has the status for an unresolved address, five empty lists and no
    coordinate.  When a request fails, the status is the error prefix
    followed by the failure message, and the record is otherwise as the
    categories searched before the failure left it: untouched when the
    geocoding request itself fails. *)
Theorem surroundings_search_degrades
    (geocode_geo : str -> str -> response)
    (place_around : json -> str -> Z -> str -> response)
    (format_value : json -> str) (describe : py_error -> str)
    (address amap_key : str) :
  let found :=
    search_surroundings geocode_geo place_around format_value describe
      address amap_key in
  keys found = keys initial_result
  /\ (forall geo,
        geocode_geo address amap_key = Replies geo ->
        locate geo = inr None ->
        found = unresolved_record)
  /\ (forall members,
        geocode_geo address amap_key = Replies (JObj members) ->
        eq_str (member members (u "status")) (u "1") = false
        \/ truthy (member members (u "geocodes")) = false ->
        found = unresolved_record)
  /\ (forall message,
        geocode_geo address amap_key = Fails message ->
        found
        = dict_set STATUS (JStr (u "搜索异常: " ++ message)) initial_result)
  /\ (forall geo location before type_str key radius after result message,
        geocode_geo address amap_key = Replies geo ->
        locate geo = inr (Some location) ->
        CATEGORIES = before ++ (type_str, key, radius) :: after ->
        search_categories place_around format_value location amap_key before
          (dict_set COORDINATE location initial_result)
        = (result, None) ->
        place_around location type_str radius amap_key = Fails message ->
        found = dict_set STATUS (JStr (u "搜索异常: " ++ message)) result
        /\ forall k, k <> STATUS -> dict_get k found = dict_get k result).
Proof.
  intros found. subst found. unfold search_surroundings.
  split; [|split; [|split; [|split]]].
  - assert (H := keys_search_body geocode_geo place_around format_value
                   address amap_key).
    destruct (search_body _ _ _ _ _) as [result [e|]]; simpl in H; [|exact H].
    rewrite keys_dict_set_present; [exact H|].
    rewrite H. vm_compute. do 6 right. now left.
  - intros geo Hgeo Hloc. unfold search_body. now rewrite Hgeo, Hloc.
  - intros members Hgeo Hcase. unfold search_body.
    now rewrite Hgeo, (locate_unresolved members Hcase).
  - intros message Hgeo. unfold search_body. now rewrite Hgeo.
  - intros geo location before type_str key radius after result message
           Hgeo Hloc Hcat Hbefore Hfail.
    unfold search_body. rewrite Hgeo, Hloc, Hcat.
    rewrite search_categories_app, Hbefore.
    cbn [search_categories search_category]. rewrite Hfail.
    cbn [error_message]. split; [reflexivity|].
    intros k Hk. apply dict_get_set_other. congruence.
Qed.

Lemma surroundings_search_degrades_witness :
  search_surroundings geocoder_without_result flaky_search plain_text
    no_description (u "北京市朝阳区XX路1号") (u "key")
  = unresolved_record
  /\ dict_get TRANSPORT
       (search_surroundings geocoder_with_result flaky_search plain_text
          no_description (u "北京市朝阳区XX路1号") (u "key"))
     = Some (JArr [JStr (u "望京站（约350米）")])
  /\ dict_get STATUS
       (search_surroundings geocoder_with_result flaky_search plain_text
          no_description (u "北京市朝阳区XX路1号") (u "key"))
     = Some (JStr (u "搜索异常: Read timed out.")).
Proof.
  split; [|split].
  - apply (proj1 (proj2 (proj2 (surroundings_search_degrades
             geocoder_without_result flaky_search plain_text no_description
             (u "北京市朝阳区XX路1号") (u "key"))))
             [ (u "status", JStr (u "1")); (u "geocodes", JArr []) ]).
    + reflexivity.
    + right. vm_compute. reflexivity.
  - vm_compute. reflexivity.
  - vm_compute. reflexivity.
Defined.

(* ================================================================== *)
(** * Part II, continued. Properties of the rest of the pipeline *)
(* ================================================================== *)

(** ** Batches *)

Lemma slice_length {A} (l : list A) i :
  length (slice l i (i + BATCH_SIZE)) = Nat.min BATCH_SIZE (length l - i).
Proof.
  unfold slice. rewrite length_firstn, length_skipn. f_equal. lia.
Qed.

Lemma concat_slices {A} (l : list A) fuel : forall start,
  length l - start <= fuel ->
  concat (map (fun s => slice l s (s + BATCH_SIZE))
              (range_fuel fuel start (length l) BATCH_SIZE))
  = skipn start l.
Proof.
  induction fuel as [|fuel IH]; intros start Hfuel; simpl.
  - symmetry. apply skipn_all2. lia.
  - destruct (Nat.ltb_spec start (length l)) as [Hlt|Hge].
    + simpl. rewrite IH by (unfold BATCH_SIZE; lia).
      unfold slice. replace (start + BATCH_SIZE - start) with BATCH_SIZE by lia.
      etransitivity; [|apply (firstn_skipn BATCH_SIZE)].
      f_equal. rewrite skipn_skipn. f_equal. lia.
    + symmetry. apply skipn_all2. lia.
Qed.

Lemma range_fuel_In fuel step : forall start stop x,
  In x (range_fuel fuel start stop step) -> start <= x < stop.
Proof.
  induction fuel as [|fuel IH]; intros start stop x; simpl; [tauto|].
  destruct (Nat.ltb_spec start stop) as [Hlt|Hge]; [|intros []].
  intros [<-|H]; [lia|]. apply IH in H. lia.
Qed.

Lemma range_fuel_count fuel : forall start stop,
  stop - start <= fuel ->
  stop - start <= BATCH_SIZE * length (range_fuel fuel start stop BATCH_SIZE)
  /\ BATCH_SIZE * length (range_fuel fuel start stop BATCH_SIZE)
     < stop - start + BATCH_SIZE.
Proof.
  unfold BATCH_SIZE.
  induction fuel as [|fuel IH]; intros start stop Hfuel; simpl; [lia|].
  destruct (Nat.ltb_spec start stop) as [Hlt|Hge]; simpl; [|lia].
  specialize (IH (start + 3) stop ltac:(lia)). lia.
Qed.

(** The starting points are the multiples of the batch size, in order. *)
Lemma range_fuel_starts fuel : forall k stop,
  stop - BATCH_SIZE * k <= fuel ->
  range_fuel fuel (BATCH_SIZE * k) stop BATCH_SIZE
  = map (fun i => BATCH_SIZE * i)
        (seq k (length (range_fuel fuel (BATCH_SIZE * k) stop BATCH_SIZE))).
Proof.
  induction fuel as [|fuel IH]; intros k stop Hfuel; cbn [range_fuel];
    [reflexivity|].
  destruct (BATCH_SIZE * k <? stop) eqn:E; [|reflexivity].
  cbn [length seq map]. f_equal.
  replace (BATCH_SIZE * k + BATCH_SIZE) with (BATCH_SIZE * S k)
    by (unfold BATCH_SIZE; lia).
  apply IH. apply Nat.ltb_lt in E. unfold BATCH_SIZE in *. lia.
Qed.

Lemma firstn_seq_min n start len :
  firstn n (seq start len) = seq start (Nat.min n len).
Proof.
  revert start len; induction n as [|n IH]; intros start [|len]; simpl;
    try reflexivity.
  f_equal. apply IH.
Qed.

Lemma map_succ_seq len : forall start,
  map (fun page_num => page_num + 1) (seq start len) = seq (start + 1) len.
Proof.
  induction len as [|len IH]; intros start; simpl; [reflexivity|].
  f_equal. apply (IH (S start)).
Qed.

Lemma batches_In {A} (images : list A) batch_start batch batch_end :
  In (batch_start, batch, batch_end) (batches images) ->
  batch_start < length images
  /\ batch = slice images batch_start (batch_start + BATCH_SIZE)
  /\ batch_end = batch_start + length batch.
Proof.
  unfold batches, range. intros H. apply in_map_iff in H as [s [E Hs]].
  apply range_fuel_In in Hs. injection E as <- <- <-. repeat split. lia.
Qed.

(** X1: the batches of [extract_info_from_pdf] cut the pages into
    consecutive groups: put end to end they are the pages, each has between
    one and three pages, and there are as few of them as three pages a batch
    allows. *)
Theorem batches_partition {A : Type} (images : list A) :
  concat (map (fun b => snd (fst b)) (batches images)) = images
  /\ (forall batch_start batch batch_end,
        In (batch_start, batch, batch_end) (batches images) ->
        1 <= length batch <= BATCH_SIZE
        /\ batch_end = batch_start + length batch
        /\ batch_end <= length images)
  /\ length images <= BATCH_SIZE * length (batches images)
  /\ BATCH_SIZE * length (batches images) < length images + BATCH_SIZE.
Proof.
  split; [|split].
  - unfold batches. rewrite map_map. cbn [fst snd].
    unfold range. rewrite Nat.sub_0_r.
    rewrite (concat_slices images (length images) 0) by lia. reflexivity.
  - intros batch_start batch batch_end H.
    apply batches_In in H as [Hlt [-> ->]].
    rewrite slice_length. unfold BATCH_SIZE. lia.
  - unfold batches, range. rewrite length_map, Nat.sub_0_r.
    pose proof (range_fuel_count (length images) 0 (length images)) as H.
    rewrite Nat.sub_0_r in H. apply H. lia.
Qed.

Lemma batches_partition_witness :
  1 <= length [4; 5] <= BATCH_SIZE
  /\ 5 = 3 + length [4; 5]
  /\ 5 <= length [1; 2; 3; 4; 5].
Proof.
  apply (proj1 (proj2 (batches_partition [1; 2; 3; 4; 5])) 3 [4; 5] 5).
  vm_compute. right. left. reflexivity.
Defined.

(** X2: the page range announced for a batch, from [batch_start + 1] to
    [batch_end], is the list of the page numbers of the images in it, and the
    batches start at the multiples of three. *)
Theorem batch_page_ranges (render_page : nat -> str) (pages : nat) :
  (forall batch_start batch batch_end,
     In (batch_start, batch, batch_end)
        (batches (pdf_to_images_base64 render_page pages)) ->
     map page batch = seq (batch_start + 1) (batch_end - batch_start)
     /\ batch_end <= pages)
  /\ map (fun b => fst (fst b)) (batches (pdf_to_images_base64 render_page pages))
     = map (fun i => BATCH_SIZE * i)
           (seq 0 (length (batches (pdf_to_images_base64 render_page pages)))).
Proof.
  split.
  - intros batch_start batch batch_end H.
    apply batches_In in H as [Hlt [-> ->]].
    unfold pdf_to_images_base64 in *. rewrite length_map, length_seq in Hlt.
    rewrite slice_length, length_map, length_seq.
    unfold slice. rewrite skipn_map, firstn_map, map_map. cbn [page].
    rewrite skipn_seq, firstn_seq_min. cbn [Nat.add].
    replace (batch_start + BATCH_SIZE - batch_start) with BATCH_SIZE by lia.
    replace (batch_start + Nat.min BATCH_SIZE (pages - batch_start) - batch_start)
      with (Nat.min BATCH_SIZE (pages - batch_start)) by lia.
    split; [|unfold BATCH_SIZE; lia].
    apply map_succ_seq.
  - unfold batches. rewrite map_map, length_map. cbn [fst].
    rewrite map_id. unfold range. rewrite Nat.sub_0_r.
    apply (range_fuel_starts _ 0). unfold BATCH_SIZE. lia.
Qed.

Lemma batch_page_ranges_witness :
  map page (slice (pdf_to_images_base64 (fun _ => []) 5) 3 6) = seq (3 + 1) (5 - 3)
  /\ 5 <= 5.
Proof.
  apply (proj1 (batch_page_ranges (fun _ => []) 5) 3
           (slice (pdf_to_images_base64 (fun _ => []) 5) 3 6) 5).
  vm_compute. right. left. reflexivity.
Defined.

(** ** The shape of the extracted map *)

Lemma dict_set_absent {V} (d : dict V) k v :
  dict_get k d = None -> dict_set k v d = d ++ [(k, v)].
Proof.
  induction d as [|[k0 v0] d IH]; simpl; [reflexivity|].
  destruct (str_eqb k0 k); [discriminate|]. intros H. now rewrite IH.
Qed.

Lemma dict_has_app_other {V} (d : dict V) k v g :
  k <> g -> dict_has g (d ++ [(k, v)]) = dict_has g d.
Proof.
  intros Hne. unfold dict_has. induction d as [|[k0 v0] d IH]; simpl.
  - apply str_eqb_neq in Hne. now rewrite Hne.
  - destruct (str_eqb k0 g); [reflexivity | exact IH].
Qed.

Lemma backfill_shape_gen (fs : list str) : forall all_results : dict json,
  NoDup fs ->
  fold_left
    (fun acc f => if dict_has f acc then acc else dict_set f (JStr SENTINEL) acc)
    fs all_results
  = all_results
    ++ map (fun f => (f, JStr SENTINEL))
           (filter (fun f => negb (dict_has f all_results)) fs).
Proof.
  induction fs as [|f fs IH]; intros acc Hnd; simpl.
  - now rewrite app_nil_r.
  - inversion Hnd as [|? ? Hnotin Hnd']; subst.
    destruct (dict_has f acc) eqn:E; simpl; [now apply IH|].
    unfold dict_has in E. destruct (dict_get f acc) eqn:Eg; [discriminate|].
    rewrite (dict_set_absent _ _ _ Eg), IH by exact Hnd'.
    rewrite <- app_assoc. simpl. do 3 f_equal.
    apply filter_ext_in. intros g Hg. f_equal.
    apply dict_has_app_other. intros ->. contradiction.
Qed.

Lemma NoDup_ALL_FIELDS : NoDup ALL_FIELDS.
Proof. apply nodupb_sound. vm_compute. reflexivity. Qed.

Lemma backfill_shape (all_results : dict json) :
  backfill all_results
  = all_results
    ++ map (fun f => (f, JStr SENTINEL))
           (filter (fun f => negb (dict_has f all_results)) ALL_FIELDS).
Proof. apply backfill_shape_gen, NoDup_ALL_FIELDS. Qed.

Lemma NoDup_keys_merge_pair (d : dict json) kv :
  NoDup (keys d) -> NoDup (keys (merge_pair d kv)).
Proof.
  intros H. destruct kv as [k v]. unfold merge_pair.
  destruct (acceptable v && unresolved d k); [|exact H].
  now apply NoDup_keys_dict_set.
Qed.

Lemma NoDup_keys_merge_batch (d : dict json) r :
  NoDup (keys d) -> NoDup (keys (merge_batch d r)).
Proof.
  intros H. destruct r as [[]|]; simpl; try exact H.
  unfold merge_items. generalize (obj_dict members) as items.
  intros items; revert d H.
  induction items as [|kv items IH]; intros d H; simpl; [exact H|].
  apply IH, NoDup_keys_merge_pair, H.
Qed.

Lemma NoDup_keys_merge_all rs : forall d : dict json,
  NoDup (keys d) -> NoDup (keys (merge_all d rs)).
Proof.
  induction rs as [|r rs IH]; intros d H; simpl; [exact H|].
  apply IH, NoDup_keys_merge_batch, H.
Qed.

Lemma all_accepted_filter (d : dict json) :
  NoDup (keys d) -> all_accepted d ->
  filter (fun kv => acceptable (snd kv)) d = d.
Proof.
  induction d as [|[k v] d IH]; intros Hnd Hall; [reflexivity|].
  simpl in Hnd. inversion Hnd as [|? ? Hnotin Hnd']; subst.
  assert (Hv : acceptable v = true).
  { apply (Hall k). simpl. now rewrite str_eqb_refl. }
  simpl. rewrite Hv. f_equal. apply IH; [exact Hnd'|].
  intros k' v' Hget. apply (Hall k'). simpl.
  destruct (str_eqb k k') eqn:E; [|exact Hget].
  apply str_eqb_eq in E. subst k'. apply dict_get_None in Hnotin. congruence.
Qed.

Lemma merge_all_unusable rs : forall d : dict json,
  forallb unusable rs = true -> merge_all d rs = d.
Proof.
  induction rs as [|r rs IH]; intros d H; [reflexivity|].
  simpl in H. apply andb_true_iff in H as [Hr Hrs].
  simpl. rewrite <- (IH d Hrs) at 2. f_equal.
  destruct r as [[]|]; try reflexivity. discriminate Hr.
Qed.

(** X3: the map returned by [extract_info_from_pdf] is what the batches
    resolved, in the order in which they resolved it and without repeated
    key, followed by the schema fields that are still missing, in schema
    order, each with the sentinel.  With no page, or when no reply decodes
    to an object, it is the whole schema with the sentinel. *)
Theorem extraction_shape :
  (forall rs,
     extract_info_from_pdf rs
     = merge_all [] rs
       ++ map (fun f => (f, JStr SENTINEL))
              (filter (fun f => negb (dict_has f (merge_all [] rs))) ALL_FIELDS)
     /\ NoDup (keys (extract_info_from_pdf rs)))
  /\ (forall rs,
        forallb unusable rs = true ->
        extract_info_from_pdf rs = map (fun f => (f, JStr SENTINEL)) ALL_FIELDS).
Proof.
  split.
  - intros rs. unfold extract_info_from_pdf. split; [apply backfill_shape|].
    unfold backfill. generalize ALL_FIELDS as fs.
    assert (H : NoDup (keys (merge_all [] rs)))
      by (apply NoDup_keys_merge_all; constructor).
    revert H. generalize (merge_all [] rs) as acc. intros acc H fs. revert acc H.
    induction fs as [|f fs IH]; intros acc H; simpl; [exact H|].
    apply IH. destruct (dict_has f acc); [exact H|].
    now apply NoDup_keys_dict_set.
  - intros rs H. unfold extract_info_from_pdf.
    rewrite (merge_all_unusable rs [] H), backfill_shape.
    rewrite forallb_filter_id by reflexivity. reflexivity.
Qed.

Lemma extraction_shape_witness :
  extract_info_from_pdf [None; Some (JArr []); Some (JStr (u "抱歉"))]
  = map (fun f => (f, JStr SENTINEL)) ALL_FIELDS.
Proof.
  apply (proj2 extraction_shape). reflexivity.
Defined.

(** X4: the preview, which shows the fields that are non-empty and not the
    sentinel, shows exactly what the batches resolved, in the order in which
    they resolved it. *)
Theorem preview_shows_resolved_fields (rs : list batch_response) :
  preview (extract_info_from_pdf rs) = merge_all [] rs.
Proof.
  unfold preview, extract_info_from_pdf. rewrite backfill_shape, filter_app.
  change (fun kv : str * json => truthy (snd kv) && negb (eq_str (snd kv) SENTINEL))
    with (fun kv : str * json => acceptable (snd kv)).
  rewrite all_accepted_filter.
  - rewrite <- app_nil_r. f_equal.
    induction (filter _ ALL_FIELDS) as [|f fs IH]; [reflexivity|].
    simpl. rewrite IH.
    replace (acceptable (JStr SENTINEL)) with false by (vm_compute; reflexivity).
    reflexivity.
  - apply NoDup_keys_merge_all. constructor.
  - apply all_accepted_merge_all, all_accepted_nil.
Qed.

Lemma filter_split_length {A} (f : A -> bool) (l : list A) :
  length (filter f l) + length (filter (fun x => negb (f x)) l) = length l.
Proof.
  induction l as [|x l IH]; [reflexivity|].
  simpl. destruct (f x); simpl; lia.
Qed.

Lemma keys_filter {V} (p : str -> bool) (d : dict V) :
  keys (filter (fun kv => p (fst kv)) d) = filter p (keys d).
Proof.
  induction d as [|[k v] d IH]; [reflexivity|].
  simpl. destruct (p k); simpl; now rewrite IH.
Qed.

Lemma dict_has_In {V} (d : dict V) k : dict_has k d = true <-> In k (keys d).
Proof.
  unfold dict_has. destruct (dict_get k d) eqn:E.
  - split; [intros _ | reflexivity].
    destruct (in_dec str_eq_dec k (keys d)) as [H|H]; [exact H|].
    apply dict_get_None in H. congruence.
  - apply dict_get_None in E. split; [discriminate | contradiction].
Qed.

Lemma in_schema_In k : in_schema k = true <-> In k ALL_FIELDS.
Proof.
  unfold in_schema. rewrite existsb_exists. split.
  - intros [x [Hx E]]. apply str_eqb_eq in E. now subst.
  - intros H. exists k. split; [exact H | apply str_eqb_refl].
Qed.

(** X5: the returned map has the 34 schema fields and, besides, the keys
    outside the schema that the batches resolved: one entry for each, and no
    other. *)
Theorem extraction_length (rs : list batch_response) :
  length (extract_info_from_pdf rs)
  = 34 + length (filter (fun kv => negb (in_schema (fst kv))) (merge_all [] rs))
  /\ (forall k, In k (keys (extract_info_from_pdf rs)) <->
                In k ALL_FIELDS \/ In k (keys (merge_all [] rs))).
Proof.
  unfold extract_info_from_pdf. rewrite backfill_shape.
  set (acc := merge_all [] rs).
  assert (Hnd : NoDup (keys acc)) by (apply NoDup_keys_merge_all; constructor).
  split.
  - rewrite length_app, length_map.
    pose proof (filter_split_length (fun f => dict_has f acc) ALL_FIELDS) as H1.
    pose proof (filter_split_length (fun kv : str * json => in_schema (fst kv)) acc)
      as H2.
    assert (H3 : length (filter (fun f => dict_has f acc) ALL_FIELDS)
                 = length (filter (fun kv : str * json => in_schema (fst kv)) acc)).
    { rewrite <- (length_map fst (filter _ acc)).
      change (map fst (filter (fun kv : str * json => in_schema (fst kv)) acc))
        with (keys (filter (fun kv : str * json => in_schema (fst kv)) acc)).
      rewrite keys_filter. apply Permutation_length, NoDup_Permutation.
      - apply NoDup_filter, NoDup_ALL_FIELDS.
      - apply NoDup_filter, Hnd.
      - intros x. rewrite !filter_In, dict_has_In, in_schema_In. tauto. }
    change (length ALL_FIELDS) with 34 in H1. lia.
  - intros k. unfold keys. rewrite map_app, in_app_iff, map_map. cbn [fst].
    rewrite map_id, filter_In, negb_true_iff.
    fold (keys acc). destruct (dict_has k acc) eqn:E.
    + apply dict_has_In in E. split; [intros [H|[_ H]]; [now right | discriminate]|].
      intros _. now left.
    + split; [intros [H|[H _]]; [now right | now left]|].
      intros [H|H]; [right; now split | now left].
Qed.

(** ** The code fence *)

Lemma strip_prefix_nil sep : sep <> [] -> strip_prefix sep [] = None.
Proof. destruct sep; [contradiction | reflexivity]. Qed.

Lemma contains_nil sep : sep <> [] -> contains sep [] = false.
Proof. intros H. simpl. now rewrite strip_prefix_nil. Qed.

(** What precedes the first occurrence contains none. *)
Lemma cut_first_clean sep s : sep <> [] -> forall a b,
  cut_first sep s = Some (a, b) -> contains sep a = false.
Proof.
  intros Hsep. induction s as [|c s IH]; intros a b.
  - simpl. now rewrite strip_prefix_nil.
  - cbn [cut_first]. destruct (strip_prefix sep (c :: s)) as [r|] eqn:E.
    + intros [= <- <-]. now apply contains_nil.
    + destruct (cut_first sep s) as [[a' b']|] eqn:Ec; [|discriminate].
      intros [= <- <-]. cbn [contains].
      destruct (strip_prefix sep (c :: a')) as [r|] eqn:E'.
      * apply strip_prefix_app in E'. apply cut_first_app in Ec.
        assert (H : strip_prefix sep (c :: s) = Some (r ++ sep ++ b')).
        { apply strip_prefix_app. rewrite Ec, app_comm_cons, E'.
          now rewrite <- app_assoc. }
        congruence.
      * now apply (IH a' b').
Qed.

Lemma up_to_next_clean sep s :
  sep <> [] -> contains sep (up_to_next sep s) = false.
Proof.
  intros Hsep. unfold up_to_next. destruct (cut_first sep s) as [[a b]|] eqn:E.
  - now apply (cut_first_clean sep s Hsep a b).
  - rewrite cut_first_contains, E. reflexivity.
Qed.

Lemma up_to_next_absent sep s : contains sep s = false -> up_to_next sep s = s.
Proof.
  rewrite cut_first_contains. unfold up_to_next.
  destruct (cut_first sep s) as [[a b]|]; [discriminate | reflexivity].
Qed.

Lemma contains_false_strip sep s :
  contains sep s = false -> contains sep (strip s) = false.
Proof.
  intros H. destruct (contains sep (strip s)) eqn:E; [|reflexivity].
  apply contains_iff in E as [a [b' E]].
  destruct (strip_split s) as [w1 [w2 [_ [_ Es]]]].
  assert (Hs : contains sep s = true); [|congruence].
  apply contains_iff. exists (w1 ++ a), (b' ++ w2).
  rewrite Es, E. now rewrite <- !app_assoc.
Qed.

Lemma contains_longer sep extra s :
  contains (sep ++ extra) s = true -> contains sep s = true.
Proof.
  intros H. apply contains_iff in H as [a [b' ->]]. apply contains_iff.
  exists a, (extra ++ b'). now rewrite <- app_assoc.
Qed.

(** The second segment of a split, when the separator occurs. *)
Lemma split_second sep s a rest :
  sep <> [] -> cut_first sep s = Some (a, rest) ->
  nth_error (split s sep) 1 = Some (up_to_next sep rest).
Proof.
  intros Hsep E. rewrite (split_cut_first sep Hsep s), E.
  rewrite (split_cut_first sep Hsep rest). unfold up_to_next.
  destruct (cut_first sep rest) as [[a' b']|]; reflexivity.
Qed.

Lemma split_first sep s :
  sep <> [] -> nth_error (split s sep) 0 = Some (up_to_next sep s).
Proof.
  intros Hsep. rewrite (split_cut_first sep Hsep s). unfold up_to_next.
  destruct (cut_first sep s) as [[a b']|]; reflexivity.
Qed.

Lemma between_fences_cut raw opening a rest :
  opening <> [] -> cut_first opening raw = Some (a, rest) ->
  between_fences raw opening
  = Some (strip (up_to_next FENCE (up_to_next opening rest))).
Proof.
  intros Ho E. unfold between_fences.
  rewrite (split_second opening raw a rest Ho E).
  rewrite split_first by discriminate. reflexivity.
Qed.

Lemma FENCE_trimmed s : contains FENCE (strip s) = contains FENCE s.
Proof.
  apply (contains_strip FENCE 96%N 96%N (tl FENCE) (tl (rev FENCE)));
    reflexivity.
Qed.

(** X6: removing the code fence never raises.  A reply without three
    backquotes goes to [json.loads] trimmed and otherwise as it is; from a
    reply with a fence, what goes to [json.loads] contains no fence. *)
Theorem raw_json_total (text : str) :
  exists raw,
    raw_json text = Some raw
    /\ (contains FENCE text = false -> raw = strip text)
    /\ (contains FENCE text = true -> contains FENCE raw = false).
Proof.
  unfold raw_json. rewrite <- (FENCE_trimmed text).
  set (trimmed := strip text).
  destruct (contains FENCE_JSON trimmed) eqn:Ej.
  - assert (Hf : contains FENCE trimmed = true)
      by exact (contains_longer FENCE (u "json") trimmed Ej).
    rewrite cut_first_contains in Ej.
    destruct (cut_first FENCE_JSON trimmed) as [[a rest]|] eqn:E; [|discriminate].
    rewrite (between_fences_cut trimmed FENCE_JSON a rest ltac:(discriminate) E).
    eexists. split; [reflexivity|]. split; [congruence|].
    intros _. apply contains_false_strip, up_to_next_clean. discriminate.
  - destruct (contains FENCE trimmed) eqn:Ef.
    + rewrite cut_first_contains in Ef.
      destruct (cut_first FENCE trimmed) as [[a rest]|] eqn:E; [|discriminate].
      rewrite (between_fences_cut trimmed FENCE a rest ltac:(discriminate) E).
      eexists. split; [reflexivity|]. split; [discriminate|].
      intros _. apply contains_false_strip, up_to_next_clean. discriminate.
    + exists trimmed. split; [reflexivity|]. split; [reflexivity | discriminate].
Qed.

Lemma raw_json_total_witness :
  raw_json (u " {} ") = Some (u "{}").
Proof.
  destruct (raw_json_total (u " {} ")) as [raw [-> [H _]]].
  f_equal. rewrite H by (vm_compute; reflexivity). vm_compute. reflexivity.
Defined.

(** X7: from a reply with one [```json] fence, [json.loads] receives the
    trimmed text between that fence and the next three backquotes (or the
    end of the reply); from a reply fenced without the word [json], the
    trimmed text between the first three backquotes and the next. *)
Theorem raw_json_fenced (text : str) (before rest : str) :
  (cut_first FENCE_JSON (strip text) = Some (before, rest) ->
   contains FENCE_JSON rest = false ->
   raw_json text = Some (strip (up_to_next FENCE rest)))
  /\ (contains FENCE_JSON text = false ->
      cut_first FENCE (strip text) = Some (before, rest) ->
      raw_json text = Some (strip (up_to_next FENCE rest))).
Proof.
  unfold raw_json. split.
  - intros E Hrest. rewrite cut_first_contains, E.
    rewrite (between_fences_cut _ FENCE_JSON before rest ltac:(discriminate) E).
    now rewrite (up_to_next_absent FENCE_JSON rest Hrest).
  - intros Hj E. rewrite (contains_false_strip _ _ Hj).
    rewrite (cut_first_contains FENCE), E.
    rewrite (between_fences_cut _ FENCE before rest ltac:(discriminate) E).
    now rewrite (up_to_next_absent FENCE _
                   (up_to_next_clean FENCE rest ltac:(discriminate))).
Qed.

Lemma raw_json_fenced_witness :
  raw_json (u "结果如下：```json {} ``` 以上。") = Some (u "{}").
Proof.
  rewrite (proj1 (raw_json_fenced (u "结果如下：```json {} ``` 以上。")
                    (u "结果如下：") (u " {} ``` 以上。")));
    vm_compute; reflexivity.
Defined.

(** ** UTF-8: decoding and encoding are inverse of each other *)

Ltac to_prop :=
  repeat match goal with
  | H : (_ && _) = true |- _ => apply andb_true_iff in H; destruct H
  | H : (_ && _) = false |- _ => apply andb_false_iff in H; destruct H
  | H : (_ <=? _)%N = true |- _ => apply N.leb_le in H
  | H : (_ <=? _)%N = false |- _ => apply N.leb_gt in H
  | H : (_ <? _)%N = true |- _ => apply N.ltb_lt in H
  | H : (_ <? _)%N = false |- _ => apply N.ltb_ge in H
  | H : (_ =? _)%N = true |- _ => apply N.eqb_eq in H
  | H : (_ =? _)%N = false |- _ => apply N.eqb_neq in H
  end.

Ltac arith := zify; Z.to_euclidean_division_equations; lia.

Ltac decide_tests :=
  repeat match goal with
  | |- context [(?a <? ?b)%N] => destruct (a <? b)%N eqn:?; to_prop; try arith
  | |- context [(?a <=? ?b)%N] => destruct (a <=? b)%N eqn:?; to_prop; try arith
  | |- context [(?a =? ?b)%N] => destruct (a =? b)%N eqn:?; to_prop; try arith
  end.

Lemma lead3_bounds b0 b1 :
  lead3 b0 b1 = true ->
  (224 <= b0 <= 239 /\ 128 <= b1 <= 191
   /\ (b0 = 224 -> 160 <= b1) /\ (b0 = 237 -> b1 <= 159))%N.
Proof.
  unfold lead3, cont.
  destruct (b0 =? 224)%N eqn:E1; [|destruct (b0 =? 237)%N eqn:E2];
    intros H; to_prop; lia.
Qed.

Lemma lead4_bounds b0 b1 :
  lead4 b0 b1 = true ->
  (240 <= b0 <= 244 /\ 128 <= b1 <= 191
   /\ (b0 = 240 -> 144 <= b1) /\ (b0 = 244 -> b1 <= 143))%N.
Proof.
  unfold lead4, cont.
  destruct (b0 =? 240)%N eqn:E1; [|destruct (b0 =? 244)%N eqn:E2];
    intros H; to_prop; lia.
Qed.

Lemma cont_bounds b : cont b = true -> (128 <= b <= 191)%N.
Proof. unfold cont. intros H. to_prop. lia. Qed.

Lemma encode_decoded_1 b0 :
  (b0 <? 128)%N = true -> utf8_encode_char b0 = Some [b0].
Proof. intros H. unfold utf8_encode_char. now rewrite H. Qed.

Lemma encode_decoded_2 b0 b1 :
  lead2 b0 = true -> cont b1 = true ->
  utf8_encode_char ((b0 - 192) * 64 + low6 b1)%N = Some [b0; b1].
Proof.
  intros H0 H1. apply cont_bounds in H1. unfold lead2 in H0. to_prop.
  unfold utf8_encode_char, low6. decide_tests.
  repeat f_equal; arith.
Qed.

Lemma encode_decoded_3 b0 b1 b2 :
  lead3 b0 b1 = true -> cont b2 = true ->
  utf8_encode_char ((b0 - 224) * 4096 + low6 b1 * 64 + low6 b2)%N
  = Some [b0; b1; b2].
Proof.
  intros H0 H2. apply lead3_bounds in H0 as [H0 [H1 [Ha Hb]]].
  apply cont_bounds in H2.
  assert (Hc : b0 = 224%N \/ b0 = 237%N \/ (b0 <> 224 /\ b0 <> 237)%N) by lia.
  unfold utf8_encode_char, low6.
  destruct Hc as [Hc|[Hc|Hc]]; [specialize (Ha Hc) | specialize (Hb Hc) |];
    decide_tests; cbv [andb]; repeat f_equal; arith.
Qed.

Lemma encode_decoded_4 b0 b1 b2 b3 :
  lead4 b0 b1 = true -> cont b2 = true -> cont b3 = true ->
  utf8_encode_char
    ((b0 - 240) * 262144 + low6 b1 * 4096 + low6 b2 * 64 + low6 b3)%N
  = Some [b0; b1; b2; b3].
Proof.
  intros H0 H2 H3. apply lead4_bounds in H0 as [H0 [H1 [Ha Hb]]].
  apply cont_bounds in H2, H3.
  assert (Hc : b0 = 240%N \/ b0 = 244%N \/ (b0 <> 240 /\ b0 <> 244)%N) by lia.
  unfold utf8_encode_char, low6.
  destruct Hc as [Hc|[Hc|Hc]]; [specialize (Ha Hc) | specialize (Hb Hc) |];
    decide_tests; cbv [andb]; repeat f_equal; arith.
Qed.

Lemma byte_of_to_N b : byte_of_N (Byte.to_N b) = b.
Proof. unfold byte_of_N. now rewrite Byte.of_to_N. Qed.

Lemma to_N_byte_of_N n : (n < 256)%N -> Byte.to_N (byte_of_N n) = n.
Proof.
  intros H. unfold byte_of_N. destruct (Byte.of_N n) eqn:E.
  - now apply Byte.to_of_N.
  - apply Byte.of_N_None_iff in E. lia.
Qed.

Lemma utf8_encode_decoded_bounded n :
  forall (bs : bytes) (s : str),
    length bs <= n ->
    utf8_decode bs = Some s -> utf8_encode s = Some bs.
Proof.
  unfold utf8_decode.
  induction n as [|n IH]; intros bs s Hlen H.
  { destruct bs; [|simpl in Hlen; lia]. injection H as <-. reflexivity. }
  assert (step : forall (t : bytes) (c : char) (pre : list N) (front : bytes),
             bs = front ++ t -> front <> [] ->
             option_map (cons c) (utf8_decode_N (map Byte.to_N t)) = Some s ->
             utf8_encode_char c = Some pre ->
             map byte_of_N pre = front ->
             utf8_encode s = Some bs).
  { intros t c pre front -> Hfront Hd Hc Hpre.
    destruct (utf8_decode_N (map Byte.to_N t)) as [s'|] eqn:D; [|discriminate].
    injection Hd as <-. cbn [utf8_encode]. rewrite Hc, Hpre.
    rewrite (IH t s'); [reflexivity| |exact D].
    rewrite length_app in Hlen. destruct front; [congruence|].
    simpl in Hlen. lia. }
  destruct bs as [|x0 t0]; [injection H as <-; reflexivity|].
  cbn [map utf8_decode_N] in H.
  destruct (Byte.to_N x0 <? 128)%N eqn:E0.
  { apply (step t0 _ _ [x0] eq_refl ltac:(discriminate) H
             (encode_decoded_1 _ E0)).
    cbn [map]. now rewrite byte_of_to_N. }
  destruct t0 as [|x1 t1]; [discriminate|]. cbn [map] in H.
  destruct (lead2 (Byte.to_N x0) && cont (Byte.to_N x1)) eqn:E1.
  { apply andb_true_iff in E1 as [Ea Eb].
    apply (step t1 _ _ [x0; x1] eq_refl ltac:(discriminate) H
             (encode_decoded_2 _ _ Ea Eb)).
    cbn [map]. now rewrite !byte_of_to_N. }
  destruct t1 as [|x2 t2]; [discriminate|]. cbn [map] in H.
  destruct (lead3 (Byte.to_N x0) (Byte.to_N x1) && cont (Byte.to_N x2)) eqn:E2.
  { apply andb_true_iff in E2 as [Ea Eb].
    apply (step t2 _ _ [x0; x1; x2] eq_refl ltac:(discriminate) H
             (encode_decoded_3 _ _ _ Ea Eb)).
    cbn [map]. now rewrite !byte_of_to_N. }
  destruct t2 as [|x3 t3]; [discriminate|]. cbn [map] in H.
  destruct (lead4 (Byte.to_N x0) (Byte.to_N x1) && cont (Byte.to_N x2)
            && cont (Byte.to_N x3)) eqn:E3; [|discriminate].
  apply andb_true_iff in E3 as [E3 Ec]. apply andb_true_iff in E3 as [Ea Eb].
  apply (step t3 _ _ [x0; x1; x2; x3] eq_refl ltac:(discriminate) H
           (encode_decoded_4 _ _ _ _ Ea Eb Ec)).
  cbn [map]. now rewrite !byte_of_to_N.
Qed.

Lemma utf8_encode_decoded (bs : bytes) (s : str) :
  utf8_decode bs = Some s -> utf8_encode s = Some bs.
Proof. apply (utf8_encode_decoded_bounded (length bs)). lia. Qed.

Lemma Some_eq {A} (a b : A) : Some a = Some b -> a = b.
Proof. now intros [= ->]. Qed.

Lemma utf8_encode_char_bounded c pre :
  utf8_encode_char c = Some pre -> Forall (fun b => (b < 256)%N) pre.
Proof.
  unfold utf8_encode_char.
  destruct (c <? 128)%N eqn:E0; [|destruct (c <? 2048)%N eqn:E1;
    [|destruct (c <? 65536)%N eqn:E2;
      [destruct ((55296 <=? c)%N && (c <=? 57343)%N) eqn:E3
      |destruct (c <? 1114112)%N eqn:E4]]];
    intros H; try discriminate; apply Some_eq in H; subst pre; to_prop;
    repeat (apply Forall_cons; [cbv beta; arith|]); apply Forall_nil.
Qed.

Lemma lead2_iff b0 : lead2 b0 = true <-> (194 <= b0 <= 223)%N.
Proof. unfold lead2. rewrite andb_true_iff, !N.leb_le. tauto. Qed.

Lemma cont_iff b : cont b = true <-> (128 <= b <= 191)%N.
Proof. unfold cont. rewrite andb_true_iff, !N.leb_le. tauto. Qed.

Lemma lead3_iff b0 b1 :
  lead3 b0 b1 = true <->
  (224 <= b0 <= 239 /\ 128 <= b1 <= 191
   /\ (b0 = 224 -> 160 <= b1) /\ (b0 = 237 -> b1 <= 159))%N.
Proof.
  split; [apply lead3_bounds|].
  unfold lead3, cont.
  destruct (b0 =? 224)%N eqn:E1; [|destruct (b0 =? 237)%N eqn:E2];
    to_prop; rewrite ?andb_true_iff, ?N.leb_le; lia.
Qed.

Lemma lead4_iff b0 b1 :
  lead4 b0 b1 = true <->
  (240 <= b0 <= 244 /\ 128 <= b1 <= 191
   /\ (b0 = 240 -> 144 <= b1) /\ (b0 = 244 -> b1 <= 143))%N.
Proof.
  split; [apply lead4_bounds|].
  unfold lead4, cont.
  destruct (b0 =? 240)%N eqn:E1; [|destruct (b0 =? 244)%N eqn:E2];
    to_prop; rewrite ?andb_true_iff, ?N.leb_le; lia.
Qed.

Lemma not_true_false b : (b = true -> False) -> b = false.
Proof. destruct b; [intros H; now destruct H|reflexivity]. Qed.

Lemma utf8_decode_encoded_char c pre rest :
  utf8_encode_char c = Some pre ->
  utf8_decode_N (pre ++ rest) = option_map (cons c) (utf8_decode_N rest).
Proof.
  unfold utf8_encode_char.
  destruct (c <? 128)%N eqn:E0; [|destruct (c <? 2048)%N eqn:E1;
    [|destruct (c <? 65536)%N eqn:E2;
      [destruct ((55296 <=? c)%N && (c <=? 57343)%N) eqn:E3
      |destruct (c <? 1114112)%N eqn:E4]]];
    intros H; try discriminate; apply Some_eq in H; subst pre;
    cbn [app utf8_decode_N].
  - now rewrite E0.
  - to_prop.
    replace (_ <? 128)%N with false by (symmetry; apply N.ltb_ge; arith).
    replace (lead2 _ && cont _) with true
      by (symmetry; apply andb_true_iff; rewrite lead2_iff, cont_iff; arith).
    unfold low6. do 2 f_equal. arith.
  - assert (Hs : (c < 55296 \/ 57343 < c)%N) by (to_prop; lia).
    clear E3. to_prop.
    replace (_ <? 128)%N with false by (symmetry; apply N.ltb_ge; arith).
    replace (lead2 _) with false
      by (symmetry; apply not_true_false; rewrite lead2_iff; arith).
    cbn [andb].
    replace (lead3 _ _ && cont _) with true
      by (symmetry; apply andb_true_iff; rewrite lead3_iff, cont_iff; arith).
    unfold low6. do 2 f_equal. arith.
  - to_prop.
    replace (_ <? 128)%N with false by (symmetry; apply N.ltb_ge; arith).
    replace (lead2 _) with false
      by (symmetry; apply not_true_false; rewrite lead2_iff; arith).
    cbn [andb].
    replace (lead3 _ _) with false
      by (symmetry; apply not_true_false; rewrite lead3_iff; arith).
    cbn [andb].
    replace (lead4 _ _ && cont _ && cont _) with true
      by (symmetry; rewrite !andb_true_iff, lead4_iff, !cont_iff; arith).
    unfold low6. do 2 f_equal. arith.
Qed.

Lemma utf8_decode_encoded (s : str) :
  forall bs, utf8_encode s = Some bs -> utf8_decode bs = Some s.
Proof.
  unfold utf8_decode.
  induction s as [|c s IH]; intros bs H.
  - injection H as <-. reflexivity.
  - cbn [utf8_encode] in H.
    destruct (utf8_encode_char c) as [pre|] eqn:Ec; [|discriminate].
    destruct (utf8_encode s) as [rest|] eqn:Es; [|discriminate].
    injection H as <-.
    rewrite map_app, map_map.
    rewrite (map_ext_in _ (fun n => n)), map_id.
    + rewrite (utf8_decode_encoded_char _ _ _ Ec), (IH rest eq_refl).
      reflexivity.
    + intros n Hn. apply to_N_byte_of_N.
      pose proof (utf8_encode_char_bounded _ _ Ec) as Hb.
      rewrite Forall_forall in Hb. now apply Hb.
Qed.

(** ** The rewritten archives, member by member *)

Lemma DOCUMENT_XML_not_rels : DOCUMENT_XML <> DOCUMENT_RELS.
Proof. discriminate. Qed.

Lemma DOCUMENT_XML_not_media x : DOCUMENT_XML <> u "word/media/" ++ x.
Proof. intros H. vm_compute in H. discriminate H. Qed.

Lemma zip_read_Some_In a name content :
  zip_read a name = Some content -> In name (namelist a).
Proof.
  intros H. destruct (in_dec str_eq_dec name (namelist a)) as [Hin|Hn];
    [exact Hin|].
  apply zip_read_None in Hn. congruence.
Qed.

(** What fill_template wrote decodes to the substituted text. *)
Lemma fill_member_document src text out :
  map (fill_member src text) src = map Ok out ->
  In DOCUMENT_XML (namelist src) ->
  exists new_content,
    utf8_encode text = Some new_content
    /\ zip_read out DOCUMENT_XML = Some new_content.
Proof.
  intros Hout Hin.
  assert (Hnames : namelist out = namelist src).
  { apply (map_Ok_names _ fst _ _ Hout). intros x e. apply fill_member_name. }
  apply in_map_iff in Hin as [item [Hitem Hin]].
  destruct (proj2 (map_Ok_In _ _ _ Hout) item Hin) as [e [He Hfe]].
  unfold fill_member in Hfe. rewrite Hitem, str_eqb_refl in Hfe.
  apply named_Ok in Hfe as [new [Hnew ->]]. unfold encode in Hnew.
  destruct (utf8_encode text) as [new'|] eqn:Eenc; [|discriminate].
  injection Hnew as ->.
  exists new. split; [reflexivity|].
  apply zip_read_all; [rewrite Hnames; apply in_map_iff; now exists item|].
  intros e' He' Hfst.
  destruct (proj1 (map_Ok_In _ _ _ Hout) e' He') as [item' [_ Hf']].
  assert (Hitem' : fst item' = DOCUMENT_XML)
    by (rewrite <- (fill_member_name _ _ _ _ Hf'); exact Hfst).
  unfold fill_member in Hf'. rewrite Hitem', str_eqb_refl in Hf'.
  unfold encode in Hf'. rewrite Eenc in Hf'. simpl in Hf'.
  now injection Hf' as <-.
Qed.

Lemma fill_member_others src text out name :
  map (fill_member src text) src = map Ok out ->
  name <> DOCUMENT_XML ->
  zip_read out name = zip_read src name.
Proof.
  intros Hout Hname.
  assert (Hnames : namelist out = namelist src).
  { apply (map_Ok_names _ fst _ _ Hout). intros x e. apply fill_member_name. }
  destruct (in_dec str_eq_dec name (namelist src)) as [Hin|Hn].
  - destruct (read_member_Ok src name Hin) as [c [_ Hc]]. rewrite Hc.
    apply zip_read_all; [now rewrite Hnames|].
    intros e He Hfst.
    destruct (proj1 (map_Ok_In _ _ _ Hout) e He) as [item [_ Hf]].
    assert (Hitem : fst item = name)
      by (rewrite <- (fill_member_name _ _ _ _ Hf); exact Hfst).
    apply fill_member_content in Hf; [|now rewrite Hitem].
    rewrite Hitem, Hc in Hf. now injection Hf.
  - rewrite (proj2 (zip_read_None src name) Hn).
    apply zip_read_None. now rewrite Hnames.
Qed.

Lemma member_text_In a name text :
  member_text a name = Some text -> In name (namelist a).
Proof.
  unfold member_text. destruct (zip_read a name) eqn:E; [|discriminate].
  intros _. exact (zip_read_Some_In _ _ _ E).
Qed.

(** X8: after a successful fill_template the destination is an archive
    with the member names of the template, whose word/document.xml decodes
    to exactly the substituted text of the template's word/document.xml. *)
Theorem fill_template_text TEMPLATE_PATH copy quota data output_path disk
    disk' :
  fill_template TEMPLATE_PATH copy quota data output_path disk
  = (disk', Ok tt) ->
  exists src xml_content out,
    disk TEMPLATE_PATH = Some (Zip src)
    /\ member_text src DOCUMENT_XML = Some xml_content
    /\ disk' output_path = Some (Zip out)
    /\ namelist out = namelist src
    /\ member_text out DOCUMENT_XML = Some (substitute xml_content data).
Proof.
  intros H.
  apply fill_template_Ok in H as [src [xml [out [Hs [Hxml [Hout [Hd _]]]]]]].
  exists src, xml, out. repeat split; try assumption.
  - apply (map_Ok_names _ fst _ _ Hout). intros x e. apply fill_member_name.
  - destruct (fill_member_document _ _ _ Hout (member_text_In _ _ _ Hxml))
      as [new [Henc Hread]].
    unfold member_text. rewrite Hread. now apply utf8_decode_encoded.
Qed.

Lemma fill_template_text_witness :
  exists disk' out,
    fill_template (u "template_v2.docx") None None scenario_D_fields
      (u "out.docx") sample_disk = (disk', Ok tt)
    /\ disk' (u "out.docx") = Some (Zip out)
    /\ member_text out DOCUMENT_XML
       = option_map (fun xml => substitute xml scenario_D_fields)
           (member_text sample_template DOCUMENT_XML).
Proof.
  destruct (fill_template (u "template_v2.docx") None None scenario_D_fields
              (u "out.docx") sample_disk) as [disk' r] eqn:E.
  assert (Hr : r = Ok tt) by (vm_compute in E; congruence). subst r.
  destruct (fill_template_text _ _ _ _ _ _ _ E)
    as [src [xml [out [Hs [Hxml [Hd [_ Ht]]]]]]].
  exists disk', out. split; [reflexivity|]. split; [exact Hd|].
  assert (Hsrc : src = sample_template).
  { assert (Hk : sample_disk (u "template_v2.docx")
                 = Some (Zip sample_template)) by reflexivity.
    congruence. }
  subst src. rewrite Hxml, Ht. reflexivity.
Defined.

(** X9: when no placeholder of a key of the field map occurs in the text
    of the template, a successful fill_template leaves at the destination
    an archive that has the member names of the template and reads, member
    for member, word/document.xml included, as the template does. *)
Theorem fill_template_without_tokens TEMPLATE_PATH copy quota data
    output_path disk disk' src xml_content :
  disk TEMPLATE_PATH = Some (Zip src) ->
  member_text src DOCUMENT_XML = Some xml_content ->
  (forall k, In k (keys data) ->
     contains (placeholder k) xml_content = false) ->
  fill_template TEMPLATE_PATH copy quota data output_path disk
  = (disk', Ok tt) ->
  exists out,
    disk' output_path = Some (Zip out)
    /\ namelist out = namelist src
    /\ forall name, zip_read out name = zip_read src name.
Proof.
  intros Hsrc Hxml Habsent H.
  apply fill_template_Ok in H as [src' [xml [out [Hs [Hxml' [Hout [Hd _]]]]]]].
  rewrite Hsrc in Hs. injection Hs as <-.
  rewrite Hxml in Hxml'. injection Hxml' as <-.
  rewrite (substitute_absent _ _ Habsent) in Hout.
  exists out. split; [exact Hd|]. split.
  { apply (map_Ok_names _ fst _ _ Hout). intros x e. apply fill_member_name. }
  intros name. destruct (str_eq_dec name DOCUMENT_XML) as [->|Hname].
  - destruct (fill_member_document _ _ _ Hout (member_text_In _ _ _ Hxml))
      as [new [Henc Hread]].
    rewrite Hread. unfold member_text in Hxml.
    destruct (zip_read src DOCUMENT_XML) as [raw|]; [|discriminate].
    apply utf8_encode_decoded in Hxml. congruence.
  - exact (fill_member_others _ _ _ _ Hout Hname).
Qed.

Lemma fill_template_without_tokens_witness :
  exists disk' out,
    fill_template (u "template_v2.docx") None None
      [(u "备注", Some (u "无"))] (u "out.docx") sample_disk = (disk', Ok tt)
    /\ disk' (u "out.docx") = Some (Zip out)
    /\ forall name, zip_read out name = zip_read sample_template name.
Proof.
  destruct (fill_template (u "template_v2.docx") None None
              [(u "备注", Some (u "无"))] (u "out.docx") sample_disk)
    as [disk' r] eqn:E.
  assert (Hr : r = Ok tt) by (vm_compute in E; congruence). subst r.
  destruct (fill_template_without_tokens (u "template_v2.docx") None None
              [(u "备注", Some (u "无"))] (u "out.docx") sample_disk disk'
              sample_template sample_text)
    as [out [Hd [_ Hread]]].
  - reflexivity.
  - vm_compute. reflexivity.
  - intros k [<-|[]]. vm_compute. reflexivity.
  - exact E.
  - exists disk', out. split; [reflexivity|]. split; [exact Hd | exact Hread].
Defined.

(** *** When fill_template succeeds *)

Lemma write_loop_all {A} (f : A -> result (str * bytes)) (l : list A) :
  (forall x, In x l -> exists e, f x = Ok e) ->
  forall written,
    exists es, write_loop None (map f l) written = (written ++ es, Ok tt)
               /\ map f l = map Ok es.
Proof.
  induction l as [|x l IH]; intros H written.
  - exists []. simpl. now rewrite app_nil_r.
  - destruct (H x (or_introl eq_refl)) as [e He].
    destruct (IH (fun y Hy => H y (or_intror Hy)) (written ++ [e]))
      as [es [Hes Hmap]].
    exists (e :: es). cbn [map write_loop]. rewrite He, Hes, Hmap.
    rewrite <- app_assoc. now split.
Qed.

Lemma utf8_encode_encodable s :
  encodable s <-> exists b, utf8_encode s = Some b.
Proof.
  unfold encodable. induction s as [|c s IH]; cbn [utf8_encode].
  - split; [now exists [] | constructor].
  - split.
    + intros H. inversion H as [|? ? Hc Hs]; subst.
      destruct (utf8_encode_char c) as [pre|]; [|congruence].
      destruct (proj1 IH Hs) as [rest ->]. now eexists.
    + intros [b Hb].
      destruct (utf8_encode_char c) as [pre|] eqn:Ec; [|discriminate].
      destruct (utf8_encode s) as [rest|]; [|discriminate].
      constructor; [congruence|]. apply IH. now exists rest.
Qed.

Lemma Forall_replace_fuel (P : char -> Prop) old new :
  Forall P new ->
  forall n s, Forall P s -> Forall P (replace_fuel n old new s).
Proof.
  intros Hnew. induction n as [|n IH]; intros s Hs; [exact Hs|].
  destruct s as [|c s]; [constructor|]. cbn [replace_fuel].
  destruct (strip_prefix old (c :: s)) as [rest|] eqn:E.
  - apply strip_prefix_app in E. rewrite E in Hs.
    apply Forall_app in Hs as [_ Hrest].
    apply Forall_app. split; [exact Hnew | now apply IH].
  - inversion Hs; subst. constructor; [assumption | now apply IH].
Qed.

Lemma Forall_replace (P : char -> Prop) s old new :
  Forall P s -> Forall P new -> Forall P (replace s old new).
Proof.
  intros Hs Hnew. unfold replace. destruct old as [|o old].
  - apply Forall_app. split; [|exact Hnew].
    induction Hs as [|c s Hc Hs IH]; [constructor|]. cbn [flat_map].
    apply Forall_app. split; [|exact IH].
    apply Forall_app. split; [exact Hnew | now constructor].
  - now apply Forall_replace_fuel.
Qed.

Lemma encodable_substitute data : forall xml_content,
  encodable xml_content ->
  (forall k v, In (k, Some v) data -> encodable v) ->
  encodable (substitute xml_content data).
Proof.
  unfold encodable.
  induction data as [|[k v] data IH]; intros xml Hxml Hdata; [exact Hxml|].
  change (substitute xml ((k, v) :: data))
    with (substitute (replace xml (placeholder k) (field_text v)) data).
  apply IH; [|intros k' v' Hin; apply (Hdata k' v'); now right].
  apply Forall_replace; [exact Hxml|].
  destruct v as [v|]; [|constructor].
  apply (Hdata k v). now left.
Qed.

(** X10: fill_template succeeds whenever the template is an archive at a
    path other than the destination, its word/document.xml decodes, every
    string of the field map can be encoded as UTF-8 (it holds no lone
    surrogate) and the disk refuses nothing (the copy meets no fault and no
    member is refused); the temporary path is then gone and the destination
    is an archive. *)
Theorem fill_template_succeeds TEMPLATE_PATH data output_path disk src
    xml_content :
  disk TEMPLATE_PATH = Some (Zip src) ->
  TEMPLATE_PATH <> output_path ->
  member_text src DOCUMENT_XML = Some xml_content ->
  (forall k v, In (k, Some v) data -> encodable v) ->
  exists disk' out,
    fill_template TEMPLATE_PATH None None data output_path disk
    = (disk', Ok tt)
    /\ disk' output_path = Some (Zip out)
    /\ disk' (output_path ++ u ".tmp") = None.
Proof.
  intros Hsrc Hpath Hxml Hdata.
  rewrite fill_template_unfold, Hsrc.
  rewrite (proj2 (str_eqb_neq _ _) Hpath). cbv zeta.
  unfold member_text in Hxml.
  destruct (zip_read src DOCUMENT_XML) as [raw|] eqn:Hraw; [|discriminate].
  unfold read_member. rewrite Hraw. unfold decode. rewrite Hxml.
  assert (Henc : encodable (substitute xml_content data)).
  { apply encodable_substitute; [|exact Hdata].
    apply utf8_encode_encodable. exists raw.
    now apply utf8_encode_decoded. }
  apply utf8_encode_encodable in Henc as [new Hnew].
  destruct (write_loop_all (fill_member src (substitute xml_content data)) src)
    with (written := @nil (str * bytes)) as [out [Hloop _]].
  { intros item Hin. unfold fill_member.
    destruct (str_eqb (fst item) DOCUMENT_XML).
    - unfold encode. rewrite Hnew. now eexists.
    - destruct (read_member_Ok src (fst item)) as [c [-> _]];
        [apply in_map_iff; now exists item | now eexists]. }
  unfold write_zip. rewrite Hloop. cbn [app].
  unfold os_replace. rewrite fs_set_same.
  eexists _, out. split; [reflexivity|]. split.
  - rewrite fs_set_other, fs_set_same; [reflexivity|].
    intros E. symmetry in E. revert E. apply app_suffix_neq. discriminate.
  - apply fs_set_same.
Qed.

Lemma fill_template_succeeds_witness :
  exists disk' out,
    fill_template (u "template_v2.docx") None None scenario_D_fields
      (u "out.docx") sample_disk = (disk', Ok tt)
    /\ disk' (u "out.docx") = Some (Zip out)
    /\ disk' (u "out.docx" ++ u ".tmp") = None.
Proof.
  apply (fill_template_succeeds (u "template_v2.docx") scenario_D_fields
           (u "out.docx") sample_disk sample_template sample_text).
  - reflexivity.
  - discriminate.
  - vm_compute. reflexivity.
  - intros k v Hin. apply utf8_encode_encodable.
    destruct (utf8_encode v) as [b|] eqn:E; [now exists b|].
    exfalso. simpl in Hin.
    repeat (destruct Hin as [Hin|Hin];
            [injection Hin as <- <-; vm_compute in E; discriminate E
            |try discriminate Hin]).
    exact Hin.
Defined.

(** ** The report: fill_template, then the images *)

Lemma image_member_others src rels old new img out name :
  map (image_member src rels old new img) src = map Ok out ->
  In name (namelist src) ->
  name <> DOCUMENT_RELS ->
  name <> u "word/media/" ++ old ->
  name <> u "word/media/" ++ new ->
  zip_read out name = zip_read src name.
Proof.
  intros Hout Hin Hrels Hold Hnew.
  apply in_map_iff in Hin as [item [Hitem Hin]].
  destruct (image_member_kept src rels old new img item Hin)
    as [c [Hf Hc]]; try (now rewrite Hitem).
  rewrite Hitem in Hf, Hc.
  destruct (proj2 (map_Ok_In _ _ _ Hout) item Hin) as [e [He Hfe]].
  rewrite Hf in Hfe. injection Hfe as <-.
  rewrite Hc.
  apply zip_read_all; [apply in_map_iff; now exists (name, c)|].
  intros e He' Hfst.
  destruct (proj1 (map_Ok_In _ _ _ Hout) e He') as [item' [Hin' Hf']].
  assert (Hitem' : fst item' = name)
    by exact (image_member_name _ _ _ _ _ _ _ _ Hf' Hfst Hnew).
  destruct (image_member_kept src rels old new img item' Hin')
    as [c' [Hf'' Hc']]; try (now rewrite Hitem').
  rewrite Hitem' in Hf'', Hc'. rewrite Hf'' in Hf'. injection Hf' as <-.
  simpl. congruence.
Qed.

Lemma targeted_media_document is_decimal src tag old :
  targeted_media is_decimal src tag = Some old ->
  In DOCUMENT_XML (namelist src).
Proof.
  unfold targeted_media.
  destruct (member_text src DOCUMENT_XML) as [doc|] eqn:E; [|discriminate].
  intros _. exact (member_text_In _ _ _ E).
Qed.

Lemma replace_image_in_docx_document is_decimal lower quota docx_path
    image_placeholder new_image_bytes image_ext disk disk' src :
  disk docx_path = Some (Zip src) ->
  replace_image_in_docx is_decimal lower quota docx_path image_placeholder
    new_image_bytes image_ext disk = (disk', Ok tt) ->
  exists out,
    disk' docx_path = Some (Zip out)
    /\ zip_read out DOCUMENT_XML = zip_read src DOCUMENT_XML.
Proof.
  intros Hsrc H.
  apply (replace_image_in_docx_Ok _ _ _ _ _ _ _ _ _ _ Hsrc) in H.
  destruct (targeted_media is_decimal src image_placeholder) as [old|] eqn:Et.
  - destruct H as [rels [out [Hout [Hd _]]]].
    exists out. split; [exact Hd|].
    apply (image_member_others _ _ _ _ _ _ _ Hout).
    + exact (targeted_media_document _ _ _ _ Et).
    + exact DOCUMENT_XML_not_rels.
    + apply DOCUMENT_XML_not_media.
    + apply DOCUMENT_XML_not_media.
  - subst disk'. now exists src.
Qed.

Lemma replace_images_document is_decimal lower quota output_path images :
  forall call disk disk' src,
    disk output_path = Some (Zip src) ->
    replace_images is_decimal lower quota call output_path images disk
    = (disk', Ok tt) ->
    exists out,
      disk' output_path = Some (Zip out)
      /\ zip_read out DOCUMENT_XML = zip_read src DOCUMENT_XML.
Proof.
  induction images as [|[img_key img_file] images IH];
    intros call disk disk' src Hsrc H.
  - injection H as <-. now exists src.
  - cbn [replace_images] in H. cbv zeta in H.
    apply bind_Ok in H as [[] [mid [H1 H2]]].
    destruct (replace_image_in_docx_document _ _ _ _ _ _ _ _ _ _ Hsrc H1)
      as [out1 [Hmid Hread1]].
    destruct (IH _ _ _ _ Hmid H2) as [out [Hd Hread]].
    exists out. split; [exact Hd | congruence].
Qed.

(** X11: when the generation of the report succeeds (fill_template, then
    replace_image_in_docx for every uploaded image, then reading the file
    back), the bytes read are an archive whose word/document.xml decodes to
    the substituted text of the template, whichever images were uploaded
    and whether or not their placeholders were found. *)
Theorem generate_report_text TEMPLATE_PATH is_decimal lower copy quota data
    output_path images disk disk' report :
  generate_report TEMPLATE_PATH is_decimal lower copy quota data output_path
    images disk = (disk', Ok report) ->
  exists src xml_content out,
    disk TEMPLATE_PATH = Some (Zip src)
    /\ member_text src DOCUMENT_XML = Some xml_content
    /\ report = Zip out
    /\ disk' output_path = Some (Zip out)
    /\ member_text out DOCUMENT_XML = Some (substitute xml_content data).
Proof.
  unfold generate_report. intros H.
  apply bind_Ok in H as [[] [mid1 [H1 H]]].
  apply bind_Ok in H as [[] [mid2 [H2 H3]]].
  apply fill_template_Ok in H1
    as [src [xml [out1 [Hs [Hxml [Hout [Hd1 _]]]]]]].
  destruct (replace_images_document _ _ _ _ _ _ _ _ _ Hd1 H2)
    as [out [Hd2 Hread]].
  unfold read_file in H3. rewrite Hd2 in H3. injection H3 as <- <-.
  exists src, xml, out. repeat split; try assumption.
  destruct (fill_member_document _ _ _ Hout (member_text_In _ _ _ Hxml))
    as [new [Henc Hread1]].
  unfold member_text. rewrite Hread, Hread1.
  now apply utf8_decode_encoded.
Qed.

Lemma generate_report_text_witness :
  exists disk' out,
    generate_report (u "template_v2.docx") ascii_digit ascii_lower
      None (fun _ => None) scenario_D_fields (u "out.docx")
      (uploaded_images one_photo)
      sample_disk = (disk', Ok (Zip out))
    /\ member_text out DOCUMENT_XML
       = option_map (fun xml => substitute xml scenario_D_fields)
           (member_text sample_template DOCUMENT_XML).
Proof.
  destruct (generate_report (u "template_v2.docx") ascii_digit ascii_lower
              None (fun _ => None) scenario_D_fields (u "out.docx")
              (uploaded_images one_photo)
              sample_disk) as [disk' r] eqn:E.
  destruct r as [report|e]; [|vm_compute in E; discriminate E].
  destruct (generate_report_text _ _ _ _ _ _ _ _ _ _ _ E)
    as [src [xml [out [Hs [Hxml [-> [_ Ht]]]]]]].
  exists disk', out. split; [reflexivity|].
  assert (Hsrc : src = sample_template).
  { assert (Hk : sample_disk (u "template_v2.docx")
                 = Some (Zip sample_template)) by reflexivity.
    congruence. }
  subst src. rewrite Hxml, Ht. reflexivity.
Defined.

(** ** Where the new image goes *)

Lemma image_member_rels src rels old new img out :
  map (image_member src rels old new img) src = map Ok out ->
  In DOCUMENT_RELS (namelist src) ->
  exists new_content,
    utf8_encode rels = Some new_content
    /\ zip_read out DOCUMENT_RELS = Some new_content.
Proof.
  intros Hout Hin.
  apply in_map_iff in Hin as [item [Hitem Hin]].
  destruct (proj2 (map_Ok_In _ _ _ Hout) item Hin) as [e [He Hfe]].
  unfold image_member in Hfe. rewrite Hitem, str_eqb_refl in Hfe.
  apply named_Ok in Hfe as [new' [Hnew ->]]. unfold encode in Hnew.
  destruct (utf8_encode rels) as [b|] eqn:Eenc; [|discriminate].
  injection Hnew as ->.
  exists new'. split; [reflexivity|].
  apply zip_read_all; [apply in_map_iff; now exists (DOCUMENT_RELS, new')|].
  intros e' He' Hfst.
  destruct (proj1 (map_Ok_In _ _ _ Hout) e' He') as [item' [_ Hf']].
  unfold image_member in Hf'.
  destruct (str_eqb (fst item') DOCUMENT_RELS) eqn:E1.
  - unfold encode in Hf'. rewrite Eenc in Hf'. simpl in Hf'.
    now injection Hf' as <-.
  - destruct (str_eqb (fst item') (u "word/media/" ++ old)) eqn:E2.
    + injection Hf' as <-. simpl in Hfst. vm_compute in Hfst.
      discriminate Hfst.
    + apply named_Ok in Hf' as [c [_ ->]]. simpl in Hfst.
      apply str_eqb_neq in E1. contradiction.
Qed.



Lemma map_Ok_names_In (f : str * bytes -> result (str * bytes))
    (l : archive) (es : archive) :
  map f l = map Ok es ->
  (forall x e, In x l -> f x = Ok e -> fst e = fst x) ->
  namelist es = namelist l.
Proof.
  unfold namelist. revert es.
  induction l as [|x l IH]; intros [|e es] Hmap H; try discriminate;
    [reflexivity|].
  cbn [map] in Hmap. injection Hmap as He Hmap. cbn [map]. f_equal.
  - exact (H x e (or_introl eq_refl) He).
  - apply IH; [exact Hmap|]. intros y e' Hy. apply H. now right.
Qed.

(** X13: when the relationships part binds the placeholder (of letters,
    digits and underscores) to a media file that is not a member of the
    archive, a successful
    replace_image_in_docx stores the new image nowhere: every member other
    than the relationships part reads as before, no member is added, and
    only the relationships part is rewritten, now naming the new file. *)
Theorem replace_image_without_media_member is_decimal lower quota docx_path
    image_placeholder new_image_bytes image_ext disk disk' src old_filename :
  let new_filename := new_media_name lower image_placeholder image_ext in
  word_chars image_placeholder = true ->
  disk docx_path = Some (Zip src) ->
  targeted_media is_decimal src image_placeholder = Some old_filename ->
  ~ In (u "word/media/" ++ old_filename) (namelist src) ->
  replace_image_in_docx is_decimal lower quota docx_path image_placeholder
    new_image_bytes image_ext disk = (disk', Ok tt) ->
  exists rels_content out,
    disk' docx_path = Some (Zip out)
    /\ namelist out = namelist src
    /\ (forall name, name <> DOCUMENT_RELS ->
          zip_read out name = zip_read src name)
    /\ member_text src DOCUMENT_RELS = Some rels_content
    /\ member_text out DOCUMENT_RELS
       = Some (replace rels_content (u "media/" ++ old_filename)
                 (u "media/" ++ new_filename)).
Proof.
  intros new_filename _ Hsrc Ht Hold H.
  destruct (replace_image_in_docx_target _ _ _ _ _ _ _ _ _ _ _ Hsrc Ht H)
    as [rels [out [Hrels [Hout Hd]]]].
  fold new_filename in Hout.
  assert (Hkept : forall item e,
             In item src ->
             image_member src
               (replace rels (u "media/" ++ old_filename)
                  (u "media/" ++ new_filename))
               old_filename new_filename new_image_bytes item = Ok e ->
             fst e = fst item
             /\ (fst item <> DOCUMENT_RELS ->
                 zip_read src (fst item) = Some (snd e))).
  { intros item e Hin Hf. unfold image_member in Hf.
    destruct (str_eqb (fst item) DOCUMENT_RELS) eqn:E1.
    { apply named_Ok in Hf as [c [_ ->]]. split; [reflexivity|].
      apply str_eqb_eq in E1. intros Hn. contradiction. }
    destruct (str_eqb (fst item) (u "word/media/" ++ old_filename)) eqn:E2.
    { destruct Hold. apply str_eqb_eq in E2. rewrite <- E2.
      apply in_map_iff. now exists item. }
    apply named_Ok in Hf as [c [Hc ->]]. split; [reflexivity|]. intros _.
    unfold read_member in Hc. simpl.
    destruct (zip_read src (fst item)); [now injection Hc as -> | discriminate]. }
  assert (Hnames : namelist out = namelist src).
  { apply (map_Ok_names_In _ _ _ Hout). intros item e Hin Hf.
    exact (proj1 (Hkept item e Hin Hf)). }
  exists rels, out. split; [exact Hd|]. split; [exact Hnames|].
  split; [|split; [exact Hrels|]].
  - intros name Hname.
    destruct (in_dec str_eq_dec name (namelist src)) as [Hin|Hn].
    + destruct (read_member_Ok src name Hin) as [c [_ Hc]]. rewrite Hc.
      apply zip_read_all; [now rewrite Hnames|].
      intros e He Hfst.
      destruct (proj1 (map_Ok_In _ _ _ Hout) e He) as [item [Hin' Hf]].
      destruct (Hkept item e Hin' Hf) as [Hfe Hread].
      rewrite <- Hfe, Hfst in Hread. specialize (Hread Hname). congruence.
    + rewrite (proj2 (zip_read_None src name) Hn).
      apply zip_read_None. now rewrite Hnames.
  - destruct (image_member_rels _ _ _ _ _ _ Hout (member_text_In _ _ _ Hrels))
      as [new [Henc Hread]].
    unfold member_text. rewrite Hread. now apply utf8_decode_encoded.
Qed.

Lemma replace_image_without_media_member_witness :
  exists disk' out,
    replace_image_in_docx ascii_digit ascii_lower None (u "report.docx")
      (u "IMAGE_PHOTO_1") (bytes_of "JPEG") (u "jpg")
      (fs_set (u "report.docx") (Some (Zip dangling_document)) no_disk)
    = (disk', Ok tt)
    /\ disk' (u "report.docx") = Some (Zip out)
    /\ namelist out = [DOCUMENT_XML; DOCUMENT_RELS].
Proof.
  destruct (replace_image_in_docx ascii_digit ascii_lower None
              (u "report.docx") (u "IMAGE_PHOTO_1") (bytes_of "JPEG") (u "jpg")
              (fs_set (u "report.docx") (Some (Zip dangling_document)) no_disk))
    as [disk' r] eqn:E.
  assert (Hr : r = Ok tt) by (vm_compute in E; congruence). subst r.
  destruct (replace_image_without_media_member ascii_digit ascii_lower None
              (u "report.docx") (u "IMAGE_PHOTO_1") (bytes_of "JPEG") (u "jpg")
              (fs_set (u "report.docx") (Some (Zip dangling_document)) no_disk)
              disk' dangling_document (u "image1.png"))
    as [rels [out [Hd [Hnames _]]]].
  - reflexivity.
  - reflexivity.
  - vm_compute. reflexivity.
  - vm_compute. intuition discriminate.
  - exact E.
  - exists disk', out. split; [reflexivity|]. split; [exact Hd|].
    rewrite Hnames. reflexivity.
Defined.

(** ** From the form to the report *)

Lemma fold_left_groups {A B C} (step : A -> B -> A) (groups : list (C * list B)) :
  forall acc,
    fold_left (fun acc group => fold_left step (snd group) acc) groups acc
    = fold_left step (flat_map snd groups) acc.
Proof.
  induction groups as [|g groups IH]; intros acc; [reflexivity|].
  cbn [fold_left flat_map]. now rewrite fold_left_app, IH.
Qed.

Lemma fold_dict_set_fresh {V} (f : str -> V) (ks : list str) :
  NoDup ks ->
  forall acc : dict V,
    (forall k, In k ks -> ~ In k (keys acc)) ->
    fold_left (fun d k => dict_set k (f k) d) ks acc
    = acc ++ map (fun k => (k, f k)) ks.
Proof.
  induction 1 as [|k ks Hk Hks IH]; intros acc Hacc.
  - cbn. now rewrite app_nil_r.
  - cbn [fold_left map].
    rewrite dict_set_absent
      by (apply dict_get_None, Hacc; now left).
    rewrite IH.
    + now rewrite <- app_assoc.
    + intros k' Hk' Hin. unfold keys in Hin. rewrite map_app in Hin.
      apply in_app_or in Hin as [Hin|[<-|[]]].
      * apply (Hacc k'); [now right | exact Hin].
      * contradiction.
Qed.

Lemma edited_form text_input :
  edited text_input = map (fun field => (field, text_input field)) ALL_FIELDS.
Proof.
  unfold edited.
  rewrite (fold_left_groups
             (fun edited field => dict_set field (text_input field) edited)).
  fold ALL_FIELDS.
  rewrite (fold_dict_set_fresh text_input ALL_FIELDS NoDup_ALL_FIELDS []);
    [reflexivity|].
  intros k _ [].
Qed.

Lemma dict_get_tabulate {V} (f : str -> V) (ks : list str) k :
  dict_get k (map (fun x => (x, f x)) ks)
  = if existsb (str_eqb k) ks then Some (f k) else None.
Proof.
  induction ks as [|x ks IH]; [reflexivity|].
  cbn [map dict_get existsb]. rewrite (str_eqb_sym k x).
  destruct (str_eqb x k) eqn:E; [|exact IH].
  apply str_eqb_eq in E. now subst.
Qed.

Lemma dict_get_app {V} (a b : dict V) k :
  dict_get k (a ++ b)
  = match dict_get k a with Some v => Some v | None => dict_get k b end.
Proof.
  induction a as [|[k0 v0] a IH]; [reflexivity|].
  cbn [app dict_get]. destruct (str_eqb k0 k); [reflexivity | exact IH].
Qed.

Lemma fill_data_form text_input para1 para2 :
  fill_data (edited text_input) para1 para2
  = map (fun field => (field, Some (text_input field))) ALL_FIELDS
    ++ [(PARAGRAPH_1, Some para1); (PARAGRAPH_2, Some para2)].
Proof.
  unfold fill_data. rewrite edited_form, map_map. cbn [fst snd].
  rewrite (dict_set_absent _ PARAGRAPH_1).
  - rewrite (dict_set_absent _ PARAGRAPH_2); [now rewrite <- app_assoc|].
    rewrite dict_get_app,
      (dict_get_tabulate (fun f => Some (text_input f)) ALL_FIELDS).
    reflexivity.
  - rewrite (dict_get_tabulate (fun f => Some (text_input f)) ALL_FIELDS).
    reflexivity.
Qed.

Lemma fill_data_lookup text_input para1 para2 k :
  dict_get k (fill_data (edited text_input) para1 para2)
  = if in_schema k then Some (Some (text_input k))
    else if str_eqb k PARAGRAPH_1 then Some (Some para1)
    else if str_eqb k PARAGRAPH_2 then Some (Some para2)
    else None.
Proof.
  rewrite fill_data_form, dict_get_app,
    (dict_get_tabulate (fun f => Some (text_input f)) ALL_FIELDS).
  fold (in_schema k). destruct (in_schema k); [reflexivity|].
  cbn [dict_get]. rewrite (str_eqb_sym PARAGRAPH_1 k), (str_eqb_sym PARAGRAPH_2 k).
  reflexivity.
Qed.

Lemma fill_data_ok text_input para1 para2 :
  (forall field, In field ALL_FIELDS -> brace_free (text_input field) = true) ->
  brace_free para1 = true -> brace_free para2 = true ->
  data_ok (fill_data (edited text_input) para1 para2) = true.
Proof.
  intros Hfields H1 H2. rewrite fill_data_form. unfold data_ok.
  rewrite forallb_app. apply andb_true_iff. split.
  - apply forallb_forall. intros kv Hkv.
    apply in_map_iff in Hkv as [field [<- Hin]]. cbn [fst snd field_text].
    rewrite (Hfields field Hin), andb_true_r.
    assert (Hall : forallb brace_free ALL_FIELDS = true)
      by (vm_compute; reflexivity).
    rewrite forallb_forall in Hall. now apply Hall.
  - cbn [forallb fst snd field_text]. rewrite H1, H2. reflexivity.
Qed.


(** X14: end to end.  For a template whose braces are those of its
    tokens, and form values and paragraphs without braces, the text of the
    generated report is the text of the template in which the token of each
    of the 34 schema fields has become what the form returned for that
    field, the tokens of the two description paragraphs have become the
    paragraphs, and every other token and all other text is as it was. *)
Theorem report_fills_form TEMPLATE_PATH is_decimal lower copy quota text_input
    para1 para2 output_path images disk disk' report src ps :
  disk TEMPLATE_PATH = Some (Zip src) ->
  member_text src DOCUMENT_XML = Some (render ps) ->
  template_ok ps = true ->
  (forall field, In field ALL_FIELDS -> brace_free (text_input field) = true) ->
  brace_free para1 = true -> brace_free para2 = true ->
  generate_report TEMPLATE_PATH is_decimal lower copy quota
    (fill_data (edited text_input) para1 para2) output_path images disk
  = (disk', Ok report) ->
  exists out,
    report = Zip out
    /\ member_text out DOCUMENT_XML
       = Some (render (map (report_piece text_input para1 para2) ps)).
Proof.
  intros Hsrc Hxml Hps Hfields H1 H2 H.
  unfold generate_report in H.
  apply bind_Ok in H as [[] [mid1 [Hfill H]]].
  apply bind_Ok in H as [[] [mid2 [Himages Hread]]].
  apply fill_template_Ok in Hfill
    as [src' [xml [out1 [Hs [Hxml' [Hout [Hd1 _]]]]]]].
  rewrite Hsrc in Hs. injection Hs as <-.
  rewrite Hxml in Hxml'. injection Hxml' as <-.
  destruct (replace_images_document _ _ _ _ _ _ _ _ _ Hd1 Himages)
    as [out [Hd2 Hsame]].
  unfold read_file in Hread. rewrite Hd2 in Hread. injection Hread as <- <-.
  exists out. split; [reflexivity|].
  destruct (fill_member_document _ _ _ Hout (member_text_In _ _ _ Hxml))
    as [new [Henc Hnew]].
  unfold member_text. rewrite Hsame, Hnew.
  rewrite (utf8_decode_encoded _ _ Henc). f_equal.
  rewrite substitute_render
    by (try apply fill_data_ok; assumption).
  f_equal. apply map_ext. intros [s|k]; [reflexivity|].
  cbn [fill_piece report_piece]. rewrite fill_data_lookup.
  destruct (in_schema k); [reflexivity|].
  destruct (str_eqb k PARAGRAPH_1); [reflexivity|].
  destruct (str_eqb k PARAGRAPH_2); reflexivity.
Qed.

Lemma report_fills_form_witness :
  exists disk' out,
    generate_report (u "template_v2.docx") ascii_digit ascii_lower
      None (fun _ => None)
      (fill_data (edited (fun _ => u "张三")) (u "甲") [])
      (u "out.docx")
      (uploaded_images one_photo)
      sample_disk = (disk', Ok (Zip out))
    /\ member_text out DOCUMENT_XML
       = Some (render (map (report_piece (fun _ => u "张三") (u "甲") [])
                         sample_pieces)).
Proof.
  destruct (generate_report (u "template_v2.docx") ascii_digit ascii_lower
              None (fun _ => None)
              (fill_data (edited (fun _ => u "张三")) (u "甲") [])
              (u "out.docx")
              (uploaded_images one_photo)
              sample_disk) as [disk' r] eqn:E.
  destruct r as [report|e]; [|vm_compute in E; discriminate E].
  destruct (report_fills_form (u "template_v2.docx") ascii_digit ascii_lower
              None (fun _ => None) (fun _ => u "张三") (u "甲") [] (u "out.docx")
              (uploaded_images one_photo)
              sample_disk disk' report sample_template sample_pieces)
    as [out [-> Ht]].
  - reflexivity.
  - vm_compute. reflexivity.
  - vm_compute. reflexivity.
  - intros field _. vm_compute. reflexivity.
  - reflexivity.
  - reflexivity.
  - exact E.
  - exists disk', out. split; [reflexivity | exact Ht].
Defined.

(** ** The lists of search_surroundings *)

Lemma append_to_other key text (result : dict json) k :
  key <> k -> dict_get k (append_to key text result) = dict_get k result.
Proof.
  intros Hne. unfold append_to.
  destruct (dict_get key result) as [[]|]; try reflexivity.
  now apply dict_get_set_other.
Qed.

Lemma append_to_list key text (result : dict json) items :
  dict_get key result = Some (JArr items) ->
  dict_get key (append_to key text result)
  = Some (JArr (items ++ [JStr text])).
Proof.
  intros H. unfold append_to. rewrite H. apply dict_get_set_same.
Qed.

Section SurroundingsLists.
Variable geocode_geo : str -> str -> response.
Variable place_around : json -> str -> Z -> str -> response.
Variable format_value : json -> str.
Variable describe : py_error -> str.

Lemma add_pois_other key k : key <> k ->
  forall pois result,
    dict_get k (fst (add_pois format_value key pois result))
    = dict_get k result.
Proof.
  intros Hne. induction pois as [|poi pois IH]; intros result; [reflexivity|].
  cbn [add_pois].
  destruct (py_get poi (u "name") (JStr [])) as [e|name]; [reflexivity|].
  destruct (py_get poi (u "distance") (JStr [])) as [e|distance];
    [reflexivity|].
  rewrite IH. now apply append_to_other.
Qed.

Lemma add_pois_list key :
  forall pois result items,
    dict_get key result = Some (JArr items) ->
    exists more,
      dict_get key (fst (add_pois format_value key pois result))
      = Some (JArr (items ++ more))
      /\ length more <= length pois
      /\ forallb is_text more = true.
Proof.
  induction pois as [|poi pois IH]; intros result items H.
  - exists []. rewrite app_nil_r. now split.
  - cbn [add_pois].
    destruct (py_get poi (u "name") (JStr [])) as [e|name].
    { exists []. rewrite app_nil_r. cbn. split; [exact H|]. split; [lia|easy]. }
    destruct (py_get poi (u "distance") (JStr [])) as [e|distance].
    { exists []. rewrite app_nil_r. cbn. split; [exact H|]. split; [lia|easy]. }
    destruct (IH _ _ (append_to_list key
                        (format_value name ++ u "（约" ++ format_value distance
                         ++ u "米）") result items H))
      as [more [Hget [Hlen Htext]]].
    exists (JStr (format_value name ++ u "（约" ++ format_value distance
                  ++ u "米）") :: more).
    rewrite <- app_assoc in Hget. split; [exact Hget|].
    split; [simpl; lia | exact Htext].
Qed.

Lemma py_first_five_length v items :
  py_first_five v = inr items -> length items <= 5.
Proof.
  destruct v; try discriminate; intros [= <-].
  - rewrite length_map. exact (firstn_le_length 5 _).
  - exact (firstn_le_length 5 _).
Qed.

Lemma search_category_other location amap_key category result k :
  snd (fst category) <> k ->
  dict_get k (fst (search_category place_around format_value location amap_key
                     category result))
  = dict_get k result.
Proof.
  destruct category as [[type_str key] radius]. cbn [fst snd]. intros Hne.
  unfold search_category.
  destruct (place_around location type_str radius amap_key) as [m|resp];
    [reflexivity|].
  destruct (py_get resp (u "status") JNull) as [e|status]; [reflexivity|].
  destruct (eq_str status (u "1")); [|reflexivity].
  destruct (py_get resp (u "pois") JNull) as [e|pois]; [reflexivity|].
  destruct (truthy pois); [|reflexivity].
  destruct (py_item resp (u "pois")) as [e|pois']; [reflexivity|].
  destruct (py_first_five pois') as [e|items]; [reflexivity|].
  now apply add_pois_other.
Qed.

Lemma search_category_list location amap_key category result items :
  dict_get (snd (fst category)) result = Some (JArr items) ->
  exists more,
    dict_get (snd (fst category))
      (fst (search_category place_around format_value location amap_key
              category result))
    = Some (JArr (items ++ more))
    /\ length more <= 5
    /\ forallb is_text more = true.
Proof.
  destruct category as [[type_str key] radius]. cbn [fst snd]. intros H.
  assert (Hsame : exists more,
             dict_get key result = Some (JArr (items ++ more))
             /\ length more <= 5 /\ forallb is_text more = true).
  { exists []. rewrite app_nil_r. split; [exact H|]. split; [simpl; lia|easy]. }
  unfold search_category.
  destruct (place_around location type_str radius amap_key) as [m|resp];
    [exact Hsame|].
  destruct (py_get resp (u "status") JNull) as [e|status]; [exact Hsame|].
  destruct (eq_str status (u "1")); [|exact Hsame].
  destruct (py_get resp (u "pois") JNull) as [e|pois]; [exact Hsame|].
  destruct (truthy pois); [|exact Hsame].
  destruct (py_item resp (u "pois")) as [e|pois']; [exact Hsame|].
  destruct (py_first_five pois') as [e|pois5] eqn:E5; [exact Hsame|].
  destruct (add_pois_list key pois5 result items H) as [more [Hg [Hl Ht]]].
  exists more. split; [exact Hg|]. split; [|exact Ht].
  apply py_first_five_length in E5. lia.
Qed.

Lemma search_categories_other location amap_key k :
  forall categories result,
    searches k categories = 0 ->
    dict_get k (fst (search_categories place_around format_value location
                       amap_key categories result))
    = dict_get k result.
Proof.
  induction categories as [|category categories IH]; intros result Hk;
    [reflexivity|].
  unfold searches in Hk. cbn [filter] in Hk.
  destruct (str_eqb (snd (fst category)) k) eqn:E; [discriminate|].
  apply str_eqb_neq in E.
  cbn [search_categories].
  pose proof (search_category_other location amap_key category result k E)
    as Hstep.
  destruct (search_category place_around format_value location amap_key
              category result) as [result' [e|]]; cbn [fst] in *.
  - exact Hstep.
  - now rewrite IH.
Qed.

Lemma search_categories_list location amap_key k :
  forall categories result items,
    dict_get k result = Some (JArr items) ->
    exists more,
      dict_get k (fst (search_categories place_around format_value location
                         amap_key categories result))
      = Some (JArr (items ++ more))
      /\ length more <= 5 * searches k categories
      /\ forallb is_text more = true.
Proof.
  induction categories as [|category categories IH]; intros result items H.
  - exists []. rewrite app_nil_r. split; [exact H|]. split; [simpl; lia|easy].
  - cbn [search_categories]. unfold searches. cbn [filter].
    fold (searches k categories).
    assert (Hstep : exists more,
               dict_get k
                 (fst (search_category place_around format_value location
                         amap_key category result))
               = Some (JArr (items ++ more))
               /\ length more
                  <= 5 * (if str_eqb (snd (fst category)) k then 1 else 0)
               /\ forallb is_text more = true).
    { destruct (str_eqb (snd (fst category)) k) eqn:E.
      - apply str_eqb_eq in E. subst k.
        destruct (search_category_list location amap_key category result
                    items H) as [more [Hg [Hl Ht]]].
        exists more. split; [exact Hg|]. split; [lia | exact Ht].
      - apply str_eqb_neq in E. exists []. rewrite app_nil_r.
        rewrite (search_category_other _ _ _ _ _ E).
        split; [exact H|]. split; [simpl; lia | easy]. }
    destruct Hstep as [more1 [Hg1 [Hl1 Ht1]]].
    destruct (search_category place_around format_value location amap_key
                category result) as [result' [e|]]; cbn [fst] in *.
    + exists more1. split; [exact Hg1|]. split; [|exact Ht1].
      unfold searches in *.
      destruct (str_eqb (snd (fst category)) k); cbn [length]; lia.
    + destruct (IH result' _ Hg1) as [more2 [Hg2 [Hl2 Ht2]]].
      exists (more1 ++ more2). rewrite app_assoc. split; [exact Hg2|].
      rewrite length_app, forallb_app, Ht1, Ht2. split; [|reflexivity].
      unfold searches in *.
      destruct (str_eqb (snd (fst category)) k); cbn [length]; lia.
Qed.

End SurroundingsLists.

(** X15: whatever the two services reply, each of the five category
    entries of the record returned by search_surroundings is a list of at
    most five items, every one of them a string. *)
Theorem surroundings_lists_are_short geocode_geo place_around format_value
    describe address amap_key key :
  In key [TRANSPORT; EDUCATION; MEDICAL; COMMERCE; PARKS] ->
  exists items,
    dict_get key
      (search_surroundings geocode_geo place_around format_value describe
         address amap_key)
    = Some (JArr items)
    /\ length items <= 5
    /\ forallb is_text items = true.
Proof.
  intros Hkey.
  assert (Hstatus : key <> STATUS)
    by (intros ->; vm_compute in Hkey; intuition discriminate).
  assert (Hcoord : key <> COORDINATE)
    by (intros ->; vm_compute in Hkey; intuition discriminate).
  assert (Hinit : dict_get key initial_result = Some (JArr []))
    by (simpl in Hkey; intuition (subst; reflexivity)).
  assert (Hcount : searches key CATEGORIES = 1)
    by (simpl in Hkey; intuition (subst; reflexivity)).
  assert (Hbody : exists items,
             dict_get key
               (fst (search_body geocode_geo place_around format_value
                       address amap_key))
             = Some (JArr items)
             /\ length items <= 5 /\ forallb is_text items = true).
  { unfold search_body.
    destruct (geocode_geo address amap_key) as [m|geo].
    { exists []. split; [exact Hinit|]. split; [simpl; lia | easy]. }
    destruct (locate geo) as [e|[location|]].
    { exists []. split; [exact Hinit|]. split; [simpl; lia | easy]. }
    - destruct (search_categories_list place_around format_value location
                  amap_key key CATEGORIES
                  (dict_set COORDINATE location initial_result) [])
        as [more [Hg [Hl Ht]]].
      + rewrite dict_get_set_other by (intros E; now apply Hcoord).
        exact Hinit.
      + exists more. split; [exact Hg|]. split; [|exact Ht].
        rewrite Hcount in Hl. lia.
    - exists []. cbn [fst].
      rewrite dict_get_set_other by (intros E; now apply Hstatus).
      split; [exact Hinit|]. split; [simpl; lia | easy]. }
  destruct Hbody as [items [Hg [Hl Ht]]].
  exists items. split; [|now split].
  unfold search_surroundings.
  destruct (search_body geocode_geo place_around format_value address amap_key)
    as [result [e|]]; cbn [fst] in Hg; [|exact Hg].
  rewrite dict_get_set_other by (intros E; now apply Hstatus). exact Hg.
Qed.

Lemma surroundings_lists_are_short_witness :
  exists items,
    dict_get TRANSPORT
      (search_surroundings geocoder_with_result flaky_search plain_text
         no_description (u "望京") (u "key"))
    = Some (JArr items)
    /\ length items <= 5
    /\ forallb is_text items = true.
Proof.
  apply (surroundings_lists_are_short geocoder_with_result flaky_search
           plain_text no_description (u "望京") (u "key") TRANSPORT).
  simpl. left. reflexivity.
Defined.

(** ** The status of search_surroundings *)

Lemma search_categories_answered place_around format_value location amap_key :
  forall categories result,
    snd (search_categories place_around format_value location amap_key
           categories result) = None ->
    forall category, In category categories ->
      exists resp,
        place_around location (fst (fst category)) (snd category) amap_key
        = Replies resp.
Proof.
  induction categories as [|c categories IH]; intros result H category Hin;
    [destruct Hin|].
  cbn [search_categories] in H.
  destruct (search_category place_around format_value location amap_key c
              result) as [result' [e|]] eqn:E; [discriminate H|].
  destruct Hin as [<-|Hin]; [|exact (IH result' H category Hin)].
  destruct c as [[type_str key] radius]. cbn [fst snd].
  unfold search_category in E.
  destruct (place_around location type_str radius amap_key) as [m|resp];
    [discriminate E | now exists resp].
Qed.

(** X16: a record of search_surroundings whose status is 成功 was built
    without any failure: the geocoder answered and resolved the address,
    the record carries the location it returned as its coordinate, and each
    of the five nearby requests was answered. *)
Theorem surroundings_success_is_complete geocode_geo place_around
    format_value describe address amap_key :
  dict_get STATUS
    (search_surroundings geocode_geo place_around format_value describe
       address amap_key)
  = Some (JStr (u "成功")) ->
  exists geo location,
    geocode_geo address amap_key = Replies geo
    /\ locate geo = inr (Some location)
    /\ dict_get COORDINATE
         (search_surroundings geocode_geo place_around format_value describe
            address amap_key)
       = Some location
    /\ forall category, In category CATEGORIES ->
         exists resp,
           place_around location (fst (fst category)) (snd category) amap_key
           = Replies resp.
Proof.
  unfold search_surroundings, search_body.
  destruct (geocode_geo address amap_key) as [m|geo].
  { rewrite dict_get_set_same. intros H. vm_compute in H. discriminate H. }
  destruct (locate geo) as [e|[location|]] eqn:El.
  { rewrite dict_get_set_same. intros H. vm_compute in H. discriminate H. }
  2:{ rewrite dict_get_set_same. intros H. vm_compute in H. discriminate H. }
  pose proof (search_categories_answered place_around format_value location
                amap_key CATEGORIES
                (dict_set COORDINATE location initial_result)) as Hans.
  pose proof (search_categories_other place_around format_value location
                amap_key COORDINATE CATEGORIES
                (dict_set COORDINATE location initial_result) eq_refl)
    as Hcoord.
  rewrite dict_get_set_same in Hcoord.
  destruct (search_categories place_around format_value location amap_key
              CATEGORIES (dict_set COORDINATE location initial_result))
    as [result [e|]]; cbn [fst snd] in *.
  { rewrite dict_get_set_same. intros H. vm_compute in H. discriminate H. }
  intros _. exists geo, location. split; [reflexivity|].
  split; [exact El|]. split; [exact Hcoord|]. exact (Hans eq_refl).
Qed.

Lemma surroundings_success_is_complete_witness :
  exists geo location,
    geocoder_with_result (u "望京") (u "key") = Replies geo
    /\ locate geo = inr (Some location)
    /\ dict_get COORDINATE
         (search_surroundings geocoder_with_result empty_search plain_text
            no_description (u "望京") (u "key"))
       = Some location.
Proof.
  destruct (surroundings_success_is_complete geocoder_with_result empty_search
              plain_text no_description (u "望京") (u "key"))
    as [geo [location [Hgeo [Hloc [Hcoord _]]]]].
  - vm_compute. reflexivity.
  - now exists geo, location.
Defined.

(** ** The paragraphs of generate_surrounding_description *)

Lemma strip_clean s :
  contains SPLIT_TOKEN s = false ->
  contains SPLIT_TOKEN (strip s) = false /\ strip (strip s) = strip s.
Proof.
  intros H. split; [now apply contains_false_strip | apply strip_idem].
Qed.

(** X17: whatever the model replies, neither of the two paragraphs
    returned by generate_surrounding_description contains the delimiter
    ---SPLIT---, and neither begins or ends with white space: trimming
    them again changes nothing. *)
Theorem narrative_paragraphs_are_clean (reply : str) :
  let (para1, para2) := generate_surrounding_description reply in
  contains SPLIT_TOKEN para1 = false
  /\ strip para1 = para1
  /\ contains SPLIT_TOKEN para2 = false
  /\ strip para2 = para2.
Proof.
  assert (Hsep : SPLIT_TOKEN <> []) by discriminate.
  unfold generate_surrounding_description. cbv zeta.
  rewrite (split_cut_first SPLIT_TOKEN Hsep (strip reply)).
  destruct (cut_first SPLIT_TOKEN (strip reply)) as [[a b]|] eqn:E.
  - destruct (strip_clean a (cut_first_clean _ _ Hsep _ _ E)) as [H1 H2].
    split; [exact H1|]. split; [exact H2|].
    rewrite (split_cut_first SPLIT_TOKEN Hsep b).
    destruct (cut_first SPLIT_TOKEN b) as [[a' b']|] eqn:E'.
    + exact (strip_clean a' (cut_first_clean _ _ Hsep _ _ E')).
    + apply strip_clean. rewrite cut_first_contains, E'. reflexivity.
  - assert (Hc : contains SPLIT_TOKEN (strip reply) = false)
      by (rewrite cut_first_contains, E; reflexivity).
    destruct (strip_clean _ Hc) as [H1 H2].
    split; [exact H1|]. split; [exact H2|]. split; reflexivity.
Qed.

(** ** Answers that come again *)

Lemma resolved_value (d : dict json) k :
  unresolved d k = false ->
  exists w, dict_get k d = Some w /\ acceptable w = true.
Proof.
  unfold unresolved, acceptable.
  destruct (dict_get k d) as [w|]; [|discriminate].
  intros H. apply orb_false_iff in H as [H1 H2].
  apply negb_false_iff in H1. exists w. now rewrite H1, H2.
Qed.

Lemma value_resolved (d : dict json) k w :
  dict_get k d = Some w -> acceptable w = true -> unresolved d k = false.
Proof.
  unfold unresolved, acceptable. intros -> H.
  apply andb_true_iff in H as [H1 H2]. apply negb_true_iff in H2.
  now rewrite H1, H2.
Qed.

Lemma merge_pair_resolves d k v :
  acceptable v = true -> unresolved (merge_pair d (k, v)) k = false.
Proof.
  intros Hv. unfold merge_pair. rewrite Hv. cbn [andb].
  destruct (unresolved d k) eqn:E; [|exact E].
  apply (value_resolved _ _ v); [apply dict_get_set_same | exact Hv].
Qed.

Lemma merge_pair_stays_resolved d kv k :
  unresolved d k = false -> unresolved (merge_pair d kv) k = false.
Proof.
  intros H. destruct (resolved_value _ _ H) as [w [Hw Hacc]].
  apply (value_resolved _ _ w); [|exact Hacc].
  now apply merge_pair_keeps.
Qed.

Lemma merge_items_stays_resolved items : forall d k,
  unresolved d k = false -> unresolved (merge_items d items) k = false.
Proof.
  unfold merge_items.
  induction items as [|kv items IH]; intros d k H; [exact H|].
  apply IH. now apply merge_pair_stays_resolved.
Qed.

Lemma merge_batch_stays_resolved d r k :
  unresolved d k = false -> unresolved (merge_batch d r) k = false.
Proof.
  destruct r as [[]|]; simpl; try (intros H; exact H).
  apply merge_items_stays_resolved.
Qed.

Lemma merge_all_stays_resolved rs : forall d k,
  unresolved d k = false -> unresolved (merge_all d rs) k = false.
Proof.
  unfold merge_all.
  induction rs as [|r rs IH]; intros d k H; [exact H|].
  apply IH. now apply merge_batch_stays_resolved.
Qed.

Lemma merge_items_resolves items : forall d k v,
  In (k, v) items -> acceptable v = true ->
  unresolved (merge_items d items) k = false.
Proof.
  unfold merge_items.
  induction items as [|kv items IH]; intros d k v Hin Hv; [destruct Hin|].
  destruct Hin as [->|Hin].
  - apply (merge_items_stays_resolved items). now apply merge_pair_resolves.
  - exact (IH _ k v Hin Hv).
Qed.

Lemma absorbed_merge_batch d r : absorbed (merge_batch d r) r.
Proof.
  destruct r as [[]|]; simpl; try exact I.
  intros k v. apply merge_items_resolves.
Qed.

Lemma absorbed_stays d r r' : absorbed d r -> absorbed (merge_batch d r') r.
Proof.
  destruct r as [[]|]; simpl; try (intros _; exact I).
  intros H k v Hin Hv. apply merge_batch_stays_resolved. exact (H k v Hin Hv).
Qed.

Lemma absorbed_merge_all rs : forall d r,
  absorbed d r \/ In r rs -> absorbed (merge_all d rs) r.
Proof.
  unfold merge_all.
  induction rs as [|r0 rs IH]; intros d r [H|H]; [exact H | destruct H | |].
  - apply IH. left. now apply absorbed_stays.
  - apply IH. destruct H as [->|H]; [left; apply absorbed_merge_batch | now right].
Qed.

Lemma merge_batch_absorbed d r : absorbed d r -> merge_batch d r = d.
Proof.
  destruct r as [[]|]; simpl; try reflexivity.
  unfold merge_items. induction (obj_dict members) as [|[k v] items IH];
    intros H; [reflexivity|].
  cbn [fold_left].
  assert (Hstep : merge_pair d (k, v) = d).
  { unfold merge_pair. destruct (acceptable v) eqn:Hv; [|reflexivity].
    now rewrite (H k v (or_introl eq_refl) Hv). }
  rewrite Hstep. apply IH. intros k' v' Hin. apply H. now right.
Qed.

(** X18: an answer that comes a second time changes nothing.  Appending
    to the sequence of batch responses any responses that already occur in
    it leaves the extracted field map exactly as it was. *)
Theorem extraction_absorbs_repeated_answers (rs extra : list batch_response) :
  (forall r, In r extra -> In r rs) ->
  extract_info_from_pdf (rs ++ extra) = extract_info_from_pdf rs.
Proof.
  intros Hextra. unfold extract_info_from_pdf. f_equal.
  unfold merge_all at 1. rewrite fold_left_app.
  fold (merge_all [] rs).
  assert (Habs : forall r, In r extra -> absorbed (merge_all [] rs) r)
    by (intros r Hr; apply absorbed_merge_all; right; now apply Hextra).
  revert Habs. generalize (merge_all [] rs) as d. clear Hextra.
  induction extra as [|r extra IH]; intros d Habs; [reflexivity|].
  cbn [fold_left]. rewrite merge_batch_absorbed by (apply Habs; now left).
  apply IH. intros r' Hr'. apply Habs. now right.
Qed.

Lemma extraction_absorbs_repeated_answers_witness :
  extract_info_from_pdf (scenario_A ++ scenario_A)
  = extract_info_from_pdf scenario_A.
Proof.
  apply (extraction_absorbs_repeated_answers scenario_A scenario_A).
  intros r Hr. exact Hr.
Defined.

(** ** The name of the report and of the images *)

(** X19: the file name offered for download is built from what the form
    returned for the owner and the address: the owner, or 报告 when the
    owner field was left empty (so the name never starts with the
    separator), then the first ten characters of the address, joined by
    underscores and followed by 估价报告.docx. *)
Theorem report_filename_of_form (text_input : str -> str) :
  exists owner,
    report_filename (edited text_input)
    = owner ++ u "_" ++ firstn 10 (text_input ADDRESS) ++ u "_估价报告.docx"
    /\ owner <> []
    /\ (text_input OWNER <> [] -> owner = text_input OWNER)
    /\ (text_input OWNER = [] -> owner = u "报告").
Proof.
  unfold report_filename. rewrite edited_form.
  rewrite !(dict_get_tabulate text_input ALL_FIELDS).
  change (existsb (str_eqb (u "权属人")) ALL_FIELDS) with true.
  change (existsb (str_eqb (u "房产地址")) ALL_FIELDS) with true.
  cbv iota. change (u "权属人") with OWNER. change (u "房产地址") with ADDRESS.
  destruct (text_input OWNER) as [|c s].
  - exists (u "报告"). split; [reflexivity|]. split; [discriminate|].
    split; [intros H; now destruct H | reflexivity].
  - exists (c :: s). split; [reflexivity|]. split; [discriminate|].
    split; [reflexivity | discriminate].
Qed.

Lemma after_last_app c stem ext :
  existsb (N.eqb c) ext = false ->
  after_last c (stem ++ c :: ext) = Some ext.
Proof.
  intros H.
  assert (Hext : after_last c ext = None).
  { induction ext as [|x ext IH]; [reflexivity|].
    cbn [existsb] in H. apply orb_false_iff in H as [Hx Hrest].
    cbn [after_last]. rewrite (IH Hrest).
    rewrite N.eqb_sym in Hx. now rewrite Hx. }
  induction stem as [|x stem IH]; cbn [app after_last].
  - now rewrite Hext, N.eqb_refl.
  - now rewrite IH.
Qed.

Lemma after_last_absent c s :
  existsb (N.eqb c) s = false -> after_last c s = None.
Proof.
  induction s as [|x s IH]; [reflexivity|]. intros H.
  cbn [existsb] in H. apply orb_false_iff in H as [Hx Hrest].
  cbn [after_last]. rewrite (IH Hrest).
  rewrite N.eqb_sym in Hx. now rewrite Hx.
Qed.

(** X20: the extension given to replace_image_in_docx is what follows the
    last dot of the uploaded file's name, and the whole name when the name
    has no dot; it contains no dot whenever the name has one. *)
Theorem extension_of_name (name : str) :
  (forall stem ext,
     name = stem ++ 46%N :: ext -> existsb (N.eqb 46) ext = false ->
     extension name = ext)
  /\ (existsb (N.eqb 46) name = false -> extension name = name)
  /\ (existsb (N.eqb 46) name = true ->
      existsb (N.eqb 46) (extension name) = false
      /\ exists stem, name = stem ++ 46%N :: extension name).
Proof.
  unfold extension. split; [|split].
  - intros stem ext -> H. now rewrite after_last_app.
  - intros H. now rewrite after_last_absent.
  - induction name as [|x name IH]; [discriminate|].
    cbn [existsb after_last]. intros H.
    destruct (existsb (N.eqb 46) name) eqn:E.
    + destruct (IH eq_refl) as [Hno [stem Hstem]].
      destruct (after_last 46%N name) as [e|] eqn:Ea.
      * split; [exact Hno|]. exists (x :: stem). cbn [app]. now f_equal.
      * congruence.
    + rewrite (after_last_absent _ _ E).
      rewrite orb_false_r in H. rewrite N.eqb_sym in H. rewrite H.
      apply N.eqb_eq in H. subst x.
      split; [exact E|]. now exists [].
Qed.

Lemma report_filename_of_form_witness :
  exists owner,
    report_filename (edited (fun field => if str_eqb field OWNER then []
                                          else u "望京西园四区"))
    = owner ++ u "_" ++ u "望京西园四区" ++ u "_估价报告.docx"
    /\ owner = u "报告".
Proof.
  destruct (report_filename_of_form
              (fun field => if str_eqb field OWNER then [] else u "望京西园四区"))
    as [owner [Hname [_ [_ Hdefault]]]].
  exists owner. split; [exact Hname | apply Hdefault; reflexivity].
Defined.

Lemma extension_of_name_witness :
  extension (u "front.view.JPG") = u "JPG" /\ extension (u "front") = u "front".
Proof.
  split.
  - apply (proj1 (extension_of_name (u "front.view.JPG")) (u "front.view")
             (u "JPG")); reflexivity.
  - apply (proj1 (proj2 (extension_of_name (u "front")))). reflexivity.
Defined.

(** ** When replace_image_in_docx succeeds *)

Lemma decoded_encodable b s : utf8_decode b = Some s -> encodable s.
Proof.
  intros H. apply utf8_encode_encodable. exists b.
  now apply utf8_encode_decoded.
Qed.

(** X21: replace_image_in_docx succeeds whenever the placeholder is made
    of letters, digits and underscores, the document is an archive in which
    it is bound to a media file (so that both
    parts can be read and decoded), the lower-cased placeholder and the
    extension can be encoded as UTF-8, and the disk accepts every write (no
    member is refused; the final rename fails only for a missing source);
    the temporary path is then gone and the document is an archive again. *)
Theorem replace_image_in_docx_succeeds is_decimal lower docx_path
    image_placeholder new_image_bytes image_ext disk src old_filename :
  word_chars image_placeholder = true ->
  disk docx_path = Some (Zip src) ->
  targeted_media is_decimal src image_placeholder = Some old_filename ->
  encodable (lower image_placeholder) ->
  encodable image_ext ->
  exists disk' out,
    replace_image_in_docx is_decimal lower None docx_path image_placeholder
      new_image_bytes image_ext disk = (disk', Ok tt)
    /\ disk' docx_path = Some (Zip out)
    /\ disk' (docx_path ++ u ".imgtmp") = None.
Proof.
  intros _ Hsrc Ht Hph Hext.
  rewrite replace_image_in_docx_unfold, Hsrc.
  unfold targeted_media, member_text in Ht. unfold read_member, decode.
  destruct (zip_read src DOCUMENT_XML) as [raw_doc|]; [|discriminate].
  destruct (utf8_decode raw_doc) as [doc|]; [|discriminate].
  destruct (zip_read src DOCUMENT_RELS) as [raw_rels|]; [|discriminate].
  destruct (utf8_decode raw_rels) as [rels|] eqn:Erels; [|discriminate].
  destruct (re_search (match_embed is_decimal image_placeholder) doc)
    as [rid|]; [|discriminate].
  rewrite Ht. cbv zeta.
  set (new_filename := new_media_name lower image_placeholder image_ext).
  set (new_rels := replace rels (u "media/" ++ old_filename)
                     (u "media/" ++ new_filename)).
  assert (Henc : encodable new_rels).
  { apply Forall_replace; [exact (decoded_encodable _ _ Erels)|].
    unfold new_filename, new_media_name.
    repeat (apply Forall_app; split); try assumption;
      repeat (constructor; [discriminate|]); constructor. }
  apply utf8_encode_encodable in Henc as [new Hnew].
  destruct (write_loop_all
              (image_member src new_rels old_filename new_filename
                 new_image_bytes) src)
    with (written := @nil (str * bytes)) as [out [Hloop _]].
  { intros item Hin. unfold image_member.
    destruct (str_eqb (fst item) DOCUMENT_RELS).
    - unfold encode. rewrite Hnew. now eexists.
    - destruct (str_eqb (fst item) (u "word/media/" ++ old_filename));
        [now eexists|].
      destruct (read_member_Ok src (fst item)) as [c [-> _]];
        [apply in_map_iff; now exists item | now eexists]. }
  unfold write_zip. rewrite Hloop. cbn [app].
  unfold os_replace. rewrite fs_set_same.
  eexists _, out. split; [reflexivity|]. split.
  - rewrite fs_set_other, fs_set_same; [reflexivity|].
    intros E. symmetry in E. revert E. apply app_suffix_neq. discriminate.
  - apply fs_set_same.
Qed.

Lemma replace_image_in_docx_succeeds_witness :
  exists disk' out,
    replace_image_in_docx ascii_digit ascii_lower None (u "report.docx")
      (u "IMAGE_PHOTO_1") (bytes_of "JPEG") (u "jpg")
      (fs_set (u "report.docx") (Some (Zip sample_template)) no_disk)
    = (disk', Ok tt)
    /\ disk' (u "report.docx") = Some (Zip out)
    /\ disk' (u "report.docx" ++ u ".imgtmp") = None.
Proof.
  apply (replace_image_in_docx_succeeds ascii_digit ascii_lower
           (u "report.docx") (u "IMAGE_PHOTO_1") (bytes_of "JPEG") (u "jpg")
           (fs_set (u "report.docx") (Some (Zip sample_template)) no_disk)
           sample_template (u "image1.png")).
  - reflexivity.
  - reflexivity.
  - vm_compute. reflexivity.
  - apply utf8_encode_encodable. vm_compute. now eexists.
  - apply utf8_encode_encodable. vm_compute. now eexists.
Defined.

(** ** UTF-8 *)

(** X22: the two codecs used on the parts of the archive are inverse of
    each other.  Bytes that decode are given back by encoding the decoded
    text, and a text that can be encoded (it holds no lone surrogate and no
    code point above U+10FFFF) is given back by decoding its encoding. *)
Theorem utf8_round_trip :
  (forall (b : bytes) (s : str),
     utf8_decode b = Some s -> utf8_encode s = Some b)
  /\ (forall (s : str) (b : bytes),
        utf8_encode s = Some b -> utf8_decode b = Some s).
Proof.
  split.
  - exact utf8_encode_decoded.
  - exact utf8_decode_encoded.
Qed.

Lemma utf8_round_trip_witness :
  utf8_encode sample_text = Some sample_document
  /\ utf8_decode (bytes_of "估价") = Some (u "估价").
Proof.
  split.
  - apply (proj1 utf8_round_trip). vm_compute. reflexivity.
  - apply (proj2 utf8_round_trip). vm_compute. reflexivity.
Defined.

(** ** What a category request adds *)

Lemma dict_set_set {V} (d : dict V) k v1 v2 :
  dict_set k v2 (dict_set k v1 d) = dict_set k v2 d.
Proof.
  induction d as [|[k0 v0] d IH]; cbn [dict_set].
  - now rewrite str_eqb_refl.
  - destruct (str_eqb k0 k) eqn:E; cbn [dict_set]; rewrite E;
      [reflexivity | now rewrite IH].
Qed.

Lemma dict_set_same {V} (d : dict V) k v :
  dict_get k d = Some v -> dict_set k v d = d.
Proof.
  induction d as [|[k0 v0] d IH]; cbn [dict_get dict_set]; [discriminate|].
  destruct (str_eqb k0 k); [now intros [= ->] | intros H; now rewrite IH].
Qed.

Lemma add_pois_objects format_value key :
  forall pois (result : dict json) items,
    forallb is_object pois = true ->
    dict_get key result = Some (JArr items) ->
    add_pois format_value key pois result
    = (dict_set key
         (JArr (items ++ map (fun poi => JStr (poi_entry format_value poi)) pois))
         result, None).
Proof.
  induction pois as [|poi pois IH]; intros result items Hobj Hget.
  - cbn [map add_pois]. rewrite app_nil_r. now rewrite dict_set_same.
  - cbn [forallb] in Hobj. apply andb_true_iff in Hobj as [Hpoi Hobj].
    destruct poi as [| | | | | |members]; try discriminate Hpoi.
    cbn [add_pois py_get].
    rewrite (IH _ (items ++ [JStr (poi_entry format_value (JObj members))])
               Hobj).
    + unfold append_to. rewrite Hget, dict_set_set.
      cbn [map]. now rewrite <- app_assoc.
    + unfold append_to. rewrite Hget. apply dict_get_set_same.
Qed.

Lemma forallb_firstn {A} (p : A -> bool) n (l : list A) :
  forallb p l = true -> forallb p (firstn n l) = true.
Proof.
  revert n. induction l as [|x l IH]; intros [|n] H; try reflexivity.
  cbn [forallb] in H. apply andb_true_iff in H as [Hx Hl].
  cbn [firstn forallb]. now rewrite Hx, IH.
Qed.

(** X23: when a nearby-search request is answered with status 1 and a list
    of points of interest that are objects, the category list of the record
    grows by one string for each of the first five of them, in their order:
    the name, then the distance between （约 and 米）, a missing name or
    distance being rendered as the empty string would be; nothing else of
    the record changes and nothing is raised. *)
Theorem category_entries place_around format_value location amap_key
    type_str key radius (result : dict json) members pois items :
  place_around location type_str radius amap_key = Replies (JObj members) ->
  dict_get (u "status") (obj_dict members) = Some (JStr (u "1")) ->
  dict_get (u "pois") (obj_dict members) = Some (JArr pois) ->
  forallb is_object pois = true ->
  dict_get key result = Some (JArr items) ->
  search_category place_around format_value location amap_key
    (type_str, key, radius) result
  = (dict_set key
       (JArr (items
              ++ map (fun poi => JStr (poi_entry format_value poi))
                     (firstn 5 pois)))
       result, None).
Proof.
  intros Hreply Hstatus Hpois Hobj Hget.
  unfold search_category. rewrite Hreply. cbn [py_get py_item].
  rewrite Hstatus, Hpois. cbn [eq_str].
  change (str_eqb (u "1") (u "1")) with true. cbv iota.
  destruct pois as [|poi pois].
  - cbn [truthy firstn map]. rewrite app_nil_r. now rewrite dict_set_same.
  - cbn [truthy py_first_five].
    apply add_pois_objects; [|exact Hget].
    now apply forallb_firstn.
Qed.

Lemma category_entries_witness :
  search_category flaky_search plain_text (JStr (u "116.48,39.99")) (u "key")
    (u "交通设施服务", TRANSPORT, 1000%Z) initial_result
  = (dict_set TRANSPORT (JArr [JStr (u "望京站（约350米）")]) initial_result,
     None).
Proof.
  apply (category_entries flaky_search plain_text (JStr (u "116.48,39.99"))
           (u "key") (u "交通设施服务") TRANSPORT 1000%Z initial_result
           [ (u "status", JStr (u "1"));
             (u "pois",
              JArr [ JObj [ (u "name", JStr (u "望京站"));
                            (u "distance", JStr (u "350")) ] ]) ]
           [ JObj [ (u "name", JStr (u "望京站"));
                    (u "distance", JStr (u "350")) ] ]
           []); reflexivity.
Defined.

(** ** The order of the fields *)

Lemma dict_get_In {V} (d : dict V) k v :
  NoDup (keys d) -> (dict_get k d = Some v <-> In (k, v) d).
Proof.
  induction d as [|[k0 v0] d IH]; intros Hnd; cbn [dict_get].
  - split; [discriminate | intros []].
  - cbn [keys map fst] in Hnd. inversion Hnd as [|? ? Hnotin Hnd']; subst.
    destruct (str_eqb k0 k) eqn:E.
    + apply str_eqb_eq in E. subst k0. split.
      * intros [= ->]. now left.
      * intros [[= ->]|Hin]; [reflexivity|].
        destruct Hnotin. apply in_map_iff. now exists (k, v).
    + apply str_eqb_neq in E. rewrite (IH Hnd'). split.
      * intros H. now right.
      * intros [[= -> _]|Hin]; [now destruct E | exact Hin].
Qed.

Lemma dict_get_Permutation {V} (d d' : dict V) k :
  NoDup (keys d) -> Permutation d d' -> dict_get k d = dict_get k d'.
Proof.
  intros Hnd Hp.
  assert (Hnd' : NoDup (keys d'))
    by (apply (Permutation_NoDup (Permutation_map fst Hp)), Hnd).
  destruct (dict_get k d) as [v|] eqn:E.
  - apply (dict_get_In d k v Hnd) in E. symmetry.
    apply (dict_get_In d' k v Hnd'). exact (Permutation_in _ Hp E).
  - destruct (dict_get k d') as [v|] eqn:E'; [|reflexivity].
    apply (dict_get_In d' k v Hnd') in E'.
    apply (Permutation_in _ (Permutation_sym Hp)) in E'.
    apply (dict_get_In d k v Hnd) in E'. congruence.
Qed.

(** X24: on a template whose braces are those of its tokens, with keys
    and values without braces, the order in which the fields stand in the
    map does not matter: two maps with the same entries, each key once,
    give the same text. *)
Theorem substitute_ignores_field_order (data data' : dict (option str))
    (ps : list piece) :
  data_ok data = true -> template_ok ps = true ->
  NoDup (keys data) -> Permutation data data' ->
  substitute (render ps) data = substitute (render ps) data'.
Proof.
  intros Hd Hps Hnd Hp.
  assert (Hd' : data_ok data' = true).
  { unfold data_ok in *. rewrite forallb_forall in *. intros kv Hkv.
    apply Hd. exact (Permutation_in _ (Permutation_sym Hp) Hkv). }
  rewrite !substitute_render by assumption.
  f_equal. apply map_ext. intros [s|k]; [reflexivity|].
  cbn [fill_piece]. now rewrite (dict_get_Permutation data data' k Hnd Hp).
Qed.

Lemma substitute_ignores_field_order_witness :
  substitute (render scenario_D_template) scenario_D_fields
  = substitute (render scenario_D_template) (rev scenario_D_fields).
Proof.
  apply (substitute_ignores_field_order scenario_D_fields
           (rev scenario_D_fields) scenario_D_template).
  - reflexivity.
  - reflexivity.
  - apply nodupb_sound. reflexivity.
  - apply Permutation_rev.
Defined.
